(** * Parikshan.AI edge agent

    A shallow embedding of the edge agent's durable event queue
    ([event_queue.py]), cloud client ([api_client.py]), drain loop
    ([main.py]), configuration merge ([config.py]) and stream supervisor
    ([rtsp_manager.py]), with the properties of each. *)

From Stdlib Require Import ZArith List String Ascii Lia Permutation Sorted QArith_base.
From stdpp Require Import base option list gmap strings pretty.

Local Open Scope string_scope.
Local Open Scope Z_scope.

(** ** Python effects: exceptions and object state *)

Module Py.

(** The exceptions the modelled code can raise or catch. *)
Inductive exn : Type :=
| KeyError (key : string)
| ValueError (msg : string)
| IndexError
| ClientError (msg : string)
| OverflowError
| OperationalError (msg : string).

Inductive res (A : Type) : Type :=
| Ret (a : A)
| Raise (e : exn).
Arguments Ret {A} a.
Arguments Raise {A} e.

(** A method of an object with state [S]: it returns or raises, and in
    both cases leaves a state behind. *)
Definition M (S A : Type) : Type := S → res A * S.

Definition ret {S A} (a : A) : M S A := λ s, (Ret a, s).

Definition bind {S A B} (m : M S A) (k : A → M S B) : M S B :=
  λ s, match m s with
       | (Ret a, s') => k a s'
       | (Raise e, s') => (Raise e, s')
       end.

Definition raise {S A} (e : exn) : M S A := λ s, (Raise e, s).

(** An outcome that does not touch the state (a reply of the outside
    world, a pure computation that may raise). *)
Definition lift {S A} (r : res A) : M S A := λ s, (r, s).

(** [try: m  except Exception as e: h e]. *)
Definition try_except {S A} (m : M S A) (h : exn → M S A) : M S A :=
  λ s, match m s with
       | (Ret a, s') => (Ret a, s')
       | (Raise e, s') => h e s'
       end.

(** [d[k]] on a dict. *)
Definition getitem {S V} (d : gmap string V) (k : string) : M S V :=
  match d !! k with
  | Some v => ret v
  | None => raise (KeyError k)
  end.

(** [d.get(k, default)]. *)
Definition get {V} (d : gmap string V) (k : string) (default : V) : V :=
  match d !! k with
  | Some v => v
  | None => default
  end.

(** [l[:n]] for a list [l]; a negative [n] counts from the end. *)
Definition slice_to {A} (l : list A) (n : Z) : list A :=
  if n <? 0 then take (length l - Z.to_nat (- n))%nat l
  else take (Z.to_nat n) l.

End Py.

Notation "'do' x <~ m ; k" := (Py.bind m (λ x, k))
  (at level 10, x name, m at level 100, k at level 200).

(** ** event_queue.py *)

Module EventQueue.
Import Py.

(** Column [status]: the three texts the code writes. *)
Inductive event_status : Type := Pending | Processed | Failed.

#[global] Instance event_status_eq_dec : EqDecision event_status.
Proof. solve_decision. Defined.

(** A row of table [events].  [data] is the JSON text that
    [json.dumps] stores; timestamps are texts, compared as texts. *)
Record row : Type := mk_row {
  row_id : Z;
  event_type : string;
  camera_id : Z;
  timestamp : string;
  data : string;
  status : event_status;
  retry_count : Z;
  created_at : string;
  processed_at : option string
}.

(** The event dict a detector hands to [enqueue]. *)
Record Event : Type := mk_event {
  ev_type : string;
  ev_camera_id : Z;
  ev_timestamp : string;
  ev_data : string
}.

(** The dict [get_pending] builds for each selected row. *)
Record pending_event : Type := mk_pending {
  pe_id : Z;
  pe_type : string;
  pe_camera_id : Z;
  pe_timestamp : string;
  pe_data : string;
  pe_retry_count : Z
}.

(** The queue object: the database file (table [events] in rowid order,
    the AUTOINCREMENT high-water mark kept in [sqlite_sequence], the
    [processed_count] row of table [stats]) and the attribute
    [_processed_count]. *)
Record EventQueue : Type := mk_queue {
  events : list row;
  sqlite_sequence : Z;
  stats_processed_count : Z;
  _processed_count : Z
}.

(** A freshly created database, as [_init_db] leaves it. *)
Definition new_queue : EventQueue :=
  {| events := []; sqlite_sequence := 0;
     stats_processed_count := 0; _processed_count := 0 |}.

(** [_init_db] on an existing file: the counter is read back. *)
Definition _init_db (q : EventQueue) : EventQueue :=
  {| events := events q; sqlite_sequence := sqlite_sequence q;
     stats_processed_count := stats_processed_count q;
     _processed_count := stats_processed_count q |}.

Definition processed_count (q : EventQueue) : Z := _processed_count q.

Definition count_status (s : event_status) (q : EventQueue) : Z :=
  Z.of_nat (length (filter (λ r, status r = s) (events q))).

Definition pending_count (q : EventQueue) : Z := count_status Pending q.

(** [INSERT INTO events (type, camera_id, timestamp, data)]: the other
    columns take their defaults; [now] is CURRENT_TIMESTAMP. *)
Definition insert_row (event : Event) (now : string) (rowid : Z) : row :=
  {| row_id := rowid; event_type := ev_type event;
     camera_id := ev_camera_id event; timestamp := ev_timestamp event;
     data := ev_data event; status := Pending; retry_count := 0;
     created_at := now; processed_at := None |}.

(** The largest rowid in the table, 0 when the table is empty. *)
Definition max_rowid (l : list row) : Z :=
  foldr (λ r m, Z.max (row_id r) m) 0 l.

(** With AUTOINCREMENT the new rowid is one more than the largest rowid
    the table has ever held.  This is the INSERT once [sqlite3] has
    bound its parameters and while rowids are left; [QueueBinding]
    below has the call with the errors of the binding. *)
Definition enqueue (event : Event) (now : string) : M EventQueue Z :=
  λ q, let event_id := Z.max (sqlite_sequence q) (max_rowid (events q)) + 1 in
       (Ret event_id,
        {| events := events q ++ [insert_row event now event_id];
           sqlite_sequence := event_id;
           stats_processed_count := stats_processed_count q;
           _processed_count := _processed_count q |}).

(** [WHERE status = 'pending' AND retry_count < 5]. *)
Definition eligible (r : row) : Prop :=
  status r = Pending ∧ retry_count r < 5.

#[global] Instance eligible_dec r : Decision (eligible r).
Proof. unfold eligible. apply _. Defined.

(** [ORDER BY created_at ASC]: texts compare lexicographically; rows
    with equal [created_at] stay in rowid order. *)
Fixpoint insert_by_created_at (r : row) (l : list row) : list row :=
  match l with
  | [] => [r]
  | x :: l' =>
      if String.leb (created_at r) (created_at x) then r :: x :: l'
      else x :: insert_by_created_at r l'
  end.

Definition order_by_created_at (l : list row) : list row :=
  foldr insert_by_created_at [] l.

(** [LIMIT n]: SQLite puts no upper bound on the number of rows when [n]
    is negative. *)
Definition limit {A} (n : Z) (l : list A) : list A :=
  if n <? 0 then l else take (Z.to_nat n) l.

Definition select_pending (batch_size : Z) (q : EventQueue) : list row :=
  limit batch_size (order_by_created_at (filter eligible (events q))).

Definition pending_of_row (r : row) : pending_event :=
  {| pe_id := row_id r; pe_type := event_type r;
     pe_camera_id := camera_id r; pe_timestamp := timestamp r;
     pe_data := data r; pe_retry_count := retry_count r |}.

(** The SELECT of [get_pending] once [sqlite3] has bound [batch_size]
    to [LIMIT ?]; [QueueBinding.get_pending] has the call with the
    error of the binding. *)
Definition get_pending (batch_size : Z) : M EventQueue (list pending_event) :=
  λ q, (Ret (pending_of_row <$> select_pending batch_size q), q).

(** [UPDATE events SET status = 'processed', processed_at = ?
     WHERE id IN (...)], on one row. *)
Definition set_processed (event_ids : list Z) (now : string) (r : row) : row :=
  if decide (row_id r ∈ event_ids) then
    {| row_id := row_id r; event_type := event_type r;
       camera_id := camera_id r; timestamp := timestamp r;
       data := data r; status := Processed;
       retry_count := retry_count r; created_at := created_at r;
       processed_at := Some now |}
  else r.

(** The two UPDATEs of [mark_processed] once [sqlite3] has bound the
    ids and the counter; [QueueBinding.mark_processed] has the call
    with the errors of the binding. *)
Definition mark_processed (event_ids : list Z) (now : string) : M EventQueue unit :=
  λ q, match event_ids with
       | [] => (Ret tt, q)
       | _ =>
           let n := _processed_count q + Z.of_nat (length event_ids) in
           (Ret tt,
            {| events := set_processed event_ids now <$> events q;
               sqlite_sequence := sqlite_sequence q;
               stats_processed_count := n;
               _processed_count := n |})
       end.

(** [UPDATE events SET retry_count = retry_count + 1,
     status = CASE WHEN retry_count >= 4 THEN 'failed' ELSE 'pending' END
     WHERE id IN (...)], on one row; the right-hand sides read the row
    as it was before the update. *)
Definition bump_retry (event_ids : list Z) (r : row) : row :=
  if decide (row_id r ∈ event_ids) then
    {| row_id := row_id r; event_type := event_type r;
       camera_id := camera_id r; timestamp := timestamp r;
       data := data r;
       status := if 4 <=? retry_count r then Failed else Pending;
       retry_count := retry_count r + 1; created_at := created_at r;
       processed_at := processed_at r |}
  else r.

(** The UPDATE of [mark_failed] once [sqlite3] has bound the ids;
    [QueueBinding.mark_failed] has the call with the errors of the
    binding. *)
Definition mark_failed (event_ids : list Z) : M EventQueue unit :=
  λ q, match event_ids with
       | [] => (Ret tt, q)
       | _ =>
           (Ret tt,
            {| events := bump_retry event_ids <$> events q;
               sqlite_sequence := sqlite_sequence q;
               stats_processed_count := stats_processed_count q;
               _processed_count := _processed_count q |})
       end.

Definition flush : M EventQueue unit := ret tt.

(** [DELETE FROM events WHERE status IN ('processed', 'failed')
     AND created_at < datetime('now', '-N days')]; [cutoff] is the text
    that [datetime] evaluates to. *)
Definition old_terminal (cutoff : string) (r : row) : Prop :=
  (status r = Processed ∨ status r = Failed)
  ∧ String.ltb (created_at r) cutoff = true.

#[global] Instance old_terminal_dec cutoff r : Decision (old_terminal cutoff r).
Proof. unfold old_terminal. apply _. Defined.

Definition cleanup_old (cutoff : string) : M EventQueue unit :=
  λ q, (Ret tt,
        {| events := filter (λ r, ¬ old_terminal cutoff r) (events q);
           sqlite_sequence := sqlite_sequence q;
           stats_processed_count := stats_processed_count q;
           _processed_count := _processed_count q |}).

(** The dict of [get_queue_stats]. *)
Record queue_stats : Type := mk_stats {
  pending : Z;
  processed : Z;
  failed : Z;
  total_processed : Z
}.

Definition get_queue_stats (q : EventQueue) : queue_stats :=
  {| pending := count_status Pending q;
     processed := count_status Processed q;
     failed := count_status Failed q;
     total_processed := _processed_count q |}.

(** The queue's mutating calls, for reasoning about call sequences. *)
Inductive op : Type :=
| Enqueue (event : Event) (now : string)
| MarkProcessed (event_ids : list Z) (now : string)
| MarkFailed (event_ids : list Z)
| CleanupOld (cutoff : string).

Definition call (o : op) : M EventQueue unit :=
  match o with
  | Enqueue event now => do _ <~ enqueue event now; ret tt
  | MarkProcessed event_ids now => mark_processed event_ids now
  | MarkFailed event_ids => mark_failed event_ids
  | CleanupOld cutoff => cleanup_old cutoff
  end.

Fixpoint calls (os : list op) : M EventQueue unit :=
  match os with
  | [] => ret tt
  | o :: os' => do _ <~ call o; calls os'
  end.

(** The state a call sequence leaves behind. *)
Definition after (os : list op) (q : EventQueue) : EventQueue :=
  snd (calls os q).

(** *** Vocabulary of the properties *)

(** [a] is created no later than [b]. *)
Definition older (a b : row) : Prop :=
  String.leb (created_at a) (created_at b) = true.

(** The terminal statuses. *)
Definition terminal (s : event_status) : Prop :=
  s = Processed ∨ s = Failed.

(** What the schema guarantees: [id] is a primary key, and with
    AUTOINCREMENT no id exceeds the recorded high-water mark. *)
Definition well_formed (q : EventQueue) : Prop :=
  NoDup (row_id <$> events q)
  ∧ Forall (λ r, row_id r ≤ sqlite_sequence q) (events q).

(** The ids of the records in status [s]. *)
Definition ids_with (s : event_status) (q : EventQueue) : list Z :=
  row_id <$> filter (λ r, status r = s) (events q).

(** A call as a drain loop issues it: [mark_processed] on distinct ids
    of pending records, [mark_failed] on ids of records that are not
    processed, and no [cleanup_old]. *)
Definition drain_call (o : op) (q : EventQueue) : Prop :=
  match o with
  | Enqueue _ _ => True
  | MarkProcessed event_ids _ =>
      NoDup event_ids ∧ Forall (λ i, i ∈ ids_with Pending q) event_ids
  | MarkFailed event_ids =>
      Forall (λ i, i ∉ ids_with Processed q) event_ids
  | CleanupOld _ => False
  end.

Fixpoint drain_calls (os : list op) (q : EventQueue) : Prop :=
  match os with
  | [] => True
  | o :: os' => drain_call o q ∧ drain_calls os' (snd (call o q))
  end.

(** Call sequences without [cleanup_old]. *)
Definition no_cleanup (o : op) : Prop :=
  match o with
  | CleanupOld _ => False
  | _ => True
  end.

(** The counter, its copy in table [stats] and the table [events]
    agree. *)
Definition coherent (q : EventQueue) : Prop :=
  _processed_count q = count_status Processed q
  ∧ stats_processed_count q = _processed_count q.



(** A sample event, and the queue holding two copies of it. *)
Definition sample_event : Event :=
  {| ev_type := "ATTENDANCE"; ev_camera_id := 3;
     ev_timestamp := "2026-01-05T08:30:00"; ev_data := "{}" |}.

Definition two_pending : EventQueue :=
  after [Enqueue sample_event "2026-01-05 08:30:00";
         Enqueue sample_event "2026-01-05 08:30:01"] new_queue.

(** The batch a drain of [two_pending] submits. *)
Definition sample_batch : list pending_event :=
  pending_of_row <$> select_pending 50 two_pending.

(** One record that was delivered, and one that ran out of retries. *)
Definition one_processed : EventQueue :=
  after [Enqueue sample_event "2026-01-05 08:30:00";
         MarkProcessed [1] "2026-01-05T14:00:05"] new_queue.

Definition one_failed : EventQueue :=
  after [Enqueue sample_event "2026-01-05 08:30:00";
         MarkFailed [1]; MarkFailed [1]; MarkFailed [1]; MarkFailed [1];
         MarkFailed [1]] new_queue.

(** Two records, the first delivered and the second rejected once. *)
Definition drained_sample : list op :=
  [Enqueue sample_event "2026-01-05 08:30:00";
   Enqueue sample_event "2026-01-05 08:30:01";
   MarkProcessed [1] "2026-01-05T14:00:05";
   MarkFailed [2]].


End EventQueue.

(** ** api_client.py *)

Module ApiClient.
Import Py.

(** The client object; the HTTP session is left out. *)
Record ParikShanAPIClient : Type := mk_client {
  token : option string;
  token_expires_at : option string;
  school_id : option Z
}.

(** The JSON object of a successful login; [ld_expiresAt] is what
    [datetime.fromisoformat] makes of the [expiresAt] text (it raises on
    a malformed one). *)
Record login_data : Type := mk_login_data {
  ld_token : string;
  ld_expiresAt : res string;
  ld_schoolId : Z
}.

(** What [session.post] gives back once it does not raise: the status
    code, what [resp.json()] evaluates to (it raises on a body that is
    not JSON) and what [resp.text()] evaluates to. *)
Record response (B : Type) : Type := mk_response {
  resp_status : Z;
  resp_json : res B;
  resp_text : res string
}.
Arguments mk_response {B} _ _ _.
Arguments resp_status {B} _.
Arguments resp_json {B} _.
Arguments resp_text {B} _.

(** The outside world during one call: whether the stored expiry time
    has passed, and the outcome of each POST ([Raise] is a transport
    error). *)
Record world : Type := mk_world {
  token_expired : bool;
  login_post : res (response login_data);
  events_post : res (response (gmap string Z))
}.

Definition set_token (t : string) : M ParikShanAPIClient unit :=
  λ c, (Ret tt,
        {| token := Some t; token_expires_at := token_expires_at c;
           school_id := school_id c |}).

Definition set_expiry_and_school (t : string) (i : Z) : M ParikShanAPIClient unit :=
  λ c, (Ret tt,
        {| token := token c; token_expires_at := Some t;
           school_id := Some i |}).

Definition login (w : world) : M ParikShanAPIClient bool :=
  try_except
    (do resp <~ lift (login_post w);
     if decide (resp_status resp = 200) then
       do data <~ lift (resp_json resp);
       do _ <~ set_token (ld_token data);
       do expires <~ lift (ld_expiresAt data);
       do _ <~ set_expiry_and_school expires (ld_schoolId data);
       ret true
     else
       do _ <~ lift (resp_text resp);
       ret false)
    (λ _, ret false).

(** [not self.token]. *)
Definition no_token (c : ParikShanAPIClient) : bool :=
  match token c with
  | None => true
  | Some t => bool_decide (t = "")
  end.

Definition _ensure_authenticated (w : world) : M ParikShanAPIClient unit :=
  λ c, if no_token c
          || (bool_decide (is_Some (token_expires_at c)) && token_expired w)
       then (do _ <~ login w; ret tt) c
       else (Ret tt, c).

(** [{'processed': 0, 'failed': len(events)}]. *)
Definition all_failed {A} (events : list A) : gmap string Z :=
  {[ "processed" := 0; "failed" := Z.of_nat (length events) ]}.

Definition submit_events (w : world) (events : list EventQueue.pending_event)
  : M ParikShanAPIClient (gmap string Z) :=
  do _ <~ _ensure_authenticated w;
  try_except
    (do resp <~ lift (events_post w);
     if decide (resp_status resp = 200) then lift (resp_json resp)
     else
       do _ <~ lift (resp_text resp);
       ret (all_failed events))
    (λ _, ret (all_failed events)).

(** Sample worlds: the cloud accepts the first event of a batch of two;
    the cloud answers 500; the connection breaks. *)
Definition logged_in : ParikShanAPIClient :=
  {| token := Some "token-1"; token_expires_at := Some "2026-01-06T00:00:00+00:00";
     school_id := Some 12 |}.

Definition accepts_one : world :=
  {| token_expired := false;
     login_post := Raise (ClientError "not used");
     events_post :=
       Ret (mk_response 200 (Ret {[ "processed" := 1; "failed" := 1 ]})
              (Ret "accepted 1 of 2")) |}.

Definition server_error : world :=
  {| token_expired := false;
     login_post := Raise (ClientError "not used");
     events_post :=
       Ret (mk_response 500 (Raise (ValueError "not JSON"))
              (Ret "Internal Server Error")) |}.

Definition connection_lost : world :=
  {| token_expired := false;
     login_post := Raise (ClientError "connection refused");
     events_post := Raise (ClientError "connection refused") |}.

End ApiClient.

(** ** main.py *)

Module EdgeAgent.
Import Py.

Record EdgeAgent : Type := mk_agent {
  event_queue : EventQueue.EventQueue;
  api_client : ApiClient.ParikShanAPIClient
}.

(** A call on [self.event_queue]. *)
Definition on_queue {A} (m : M EventQueue.EventQueue A) : M EdgeAgent A :=
  λ a, let '(r, q) := m (event_queue a) in
       (r, {| event_queue := q; api_client := api_client a |}).

(** A call on [self.api_client]. *)
Definition on_client {A} (m : M ApiClient.ParikShanAPIClient A) : M EdgeAgent A :=
  λ a, let '(r, c) := m (api_client a) in
       (r, {| event_queue := event_queue a; api_client := c |}).

(** One turn of the [while] loop of [_event_sync_loop], up to the
    [sleep(5)]; [now] is the clock read by [mark_processed]. *)
Definition event_sync_turn (w : ApiClient.world) (now : string) : M EdgeAgent unit :=
  try_except
    (do events <~ on_queue (EventQueue.get_pending 50);
     match events with
     | [] => ret tt
     | _ =>
         do result <~ on_client (ApiClient.submit_events w events);
         do n <~ getitem result "processed";
         if 0 <? n then
           on_queue (EventQueue.mark_processed
                       (EventQueue.pe_id <$> slice_to events n) now)
         else ret tt
     end)
    (λ _, ret tt).

(** The loop, one turn per element of the list; it ends when the
    shutdown event is set. *)
Fixpoint _event_sync_loop (turns : list (ApiClient.world * string)) : M EdgeAgent unit :=
  match turns with
  | [] => ret tt
  | (w, now) :: rest =>
      do _ <~ event_sync_turn w now; _event_sync_loop rest
  end.

(** An agent with two pending events in its queue. *)
Definition two_queued : EdgeAgent :=
  {| event_queue := EventQueue.two_pending;
     api_client := ApiClient.logged_in |}.

(** Status and retry count of each record, in table order. *)
Definition delivery_state (a : EdgeAgent)
  : list (Z * EventQueue.event_status * Z) :=
  (λ r, (EventQueue.row_id r, EventQueue.status r, EventQueue.retry_count r))
    <$> EventQueue.events (event_queue a).

End EdgeAgent.

(** ** rtsp_manager.py *)

Module RTSPStreamManager.

(** What [_stream_loop] keeps between turns: its local
    [reconnect_delay] (seconds) and [stream.stats.is_connected]. *)
Record stream_state : Type := mk_stream {
  reconnect_delay : Z;
  is_connected : bool
}.

(** The sleeps of the loop: [asyncio.sleep(reconnect_delay)] and the
    frame pacing [asyncio.sleep(0.033)]. *)
Inductive wait : Type :=
| Backoff (seconds : Z)
| FramePause.

(** The camera during one turn: the answer of [stream.connect()] if it
    is called, and whether [process_frame] raises. *)
Record camera_io : Type := mk_io {
  connect_ok : bool;
  frame_raises : bool
}.

(** A task is created by [start] once [stream.connect()] succeeded. *)
Definition task_start : stream_state :=
  {| reconnect_delay := 5; is_connected := true |}.

(** [process_frame] and the pacing sleep, with the [except] branch. *)
Definition frame_turn (io : camera_io) (delay : Z) : stream_state * wait :=
  if frame_raises io then
    ({| reconnect_delay := delay; is_connected := false |}, Backoff delay)
  else
    ({| reconnect_delay := delay; is_connected := true |}, FramePause).

(** One turn of the [while self._running] loop. *)
Definition stream_turn (io : camera_io) (s : stream_state) : stream_state * wait :=
  if is_connected s then frame_turn io (reconnect_delay s)
  else if connect_ok io then frame_turn io 5
  else ({| reconnect_delay := Z.min (reconnect_delay s * 2) 60;
           is_connected := false |},
        Backoff (reconnect_delay s)).

(** The loop over the camera's behaviour turn by turn: the sleeps it
    performs and the state it ends in. *)
Fixpoint _stream_loop (ios : list camera_io) (s : stream_state)
  : list wait * stream_state :=
  match ios with
  | [] => ([], s)
  | io :: rest =>
      let '(s', w) := stream_turn io s in
      let '(ws, s'') := _stream_loop rest s' in
      (w :: ws, s'')
  end.

(** The ladder 5, 10, 20, 40, 60, 60, ... *)
Definition ladder (k : nat) : Z := Z.min (5 * 2 ^ Z.of_nat k) 60.

Definition connect_fails : camera_io :=
  {| connect_ok := false; frame_raises := false |}.

End RTSPStreamManager.

(** ** config.py *)

Module Config.
Import Py.

Record CameraConfig : Type := mk_camera {
  cam_id : Z;
  cam_name : string;
  rtsp_url : string;
  cam_type : string;
  location : string;
  enabled : bool
}.

Record NVRConfig : Type := mk_nvr {
  nvr_id : Z;
  nvr_name : string;
  ip_address : string;
  port : Z;
  username : string;
  password : string;
  rtsp_template : string;
  total_channels : Z
}.

(** The cloud's JSON documents.  A key read with [d[k]] is a field, a
    key read with [d.get(k, ...)] is an optional field ([None]: the key
    is absent); values have the JSON types of the cloud API. *)
Record camera_entry : Type := mk_camera_entry {
  ce_id : Z;
  ce_name : string;
  rtspUrl : option string;
  nvrId : option Z;
  channelNumber : option Z;
  ce_type : option string;
  ce_location : option string;
  isActive : option bool
}.

Record nvr_entry : Type := mk_nvr_entry {
  ne_id : Z;
  ne_name : string;
  ipAddress : string;
  ne_port : option Z;
  ne_username : option string;
  ne_password : option string;
  rtspTemplate : option string;
  totalChannels : option Z
}.

Record face_encoding : Type := mk_face_encoding {
  entityType : option string;
  entityId : option Z;
  sectionId : option Z;
  encoding : option string
}.

Record school_config_entry : Type := mk_school_config {
  enableFaceRecognition : option bool;
  enableDisciplineAlerts : option bool;
  attendanceConfidenceThreshold : option Z;
  fightConfidenceThreshold : option Z;
  crowdingThreshold : option Z;
  runningThreshold : option Z
}.

(** The empty dict [{}]. *)
Definition no_school_config : school_config_entry :=
  {| enableFaceRecognition := None; enableDisciplineAlerts := None;
     attendanceConfidenceThreshold := None; fightConfidenceThreshold := None;
     crowdingThreshold := None; runningThreshold := None |}.

Record cloud_config : Type := mk_cloud_config {
  cc_cameras : option (list camera_entry);
  cc_nvrs : option (list nvr_entry);
  cc_faceEncodings : option (list face_encoding);
  cc_schoolConfig : option school_config_entry
}.

(** The attributes [update_from_cloud] never writes. *)
Record settings : Type := mk_settings {
  version : string;
  api_url : string;
  agent_id : string;
  agent_secret : string;
  school_code : string;
  queue_db_path : string;
  log_level : string;
  heartbeat_interval : Z;
  config_refresh_interval : Z;
  event_batch_size : Z;
  event_sync_interval : Z;
  attention_detection_enabled : bool;
  uniform_detection_enabled : bool;
  max_cameras_per_worker : Z;
  frame_skip_count : Z;
  detection_interval_ms : Z
}.

(** The configuration object.  A threshold is the exact quotient that
    Python's [/] rounds to a float. *)
Record Config : Type := mk_config {
  static : settings;
  cameras : list CameraConfig;
  nvrs : list NVRConfig;
  face_encodings : list face_encoding;
  school_config : school_config_entry;
  face_detection_enabled : bool;
  discipline_detection_enabled : bool;
  face_confidence_threshold : Q;
  discipline_confidence_threshold : Q
}.

(** [n / 100]. *)
Definition percent (n : Z) : Q := Qmake n 100.

(** [Config()] without a config file; [getenv] is the environment. *)
Definition init (getenv : gmap string string) : Config :=
  {| static :=
       {| version := "1.0.0";
          api_url := get getenv "PARIKSHAN_API_URL" "https://parikshan.ai";
          agent_id := get getenv "AGENT_ID" "";
          agent_secret := get getenv "AGENT_SECRET" "";
          school_code := get getenv "SCHOOL_CODE" "";
          queue_db_path := get getenv "QUEUE_DB_PATH" "/app/data/queue.db";
          log_level := get getenv "LOG_LEVEL" "INFO";
          heartbeat_interval := 30;
          config_refresh_interval := 300;
          event_batch_size := 50;
          event_sync_interval := 5;
          attention_detection_enabled := false;
          uniform_detection_enabled := false;
          max_cameras_per_worker := 10;
          frame_skip_count := 5;
          detection_interval_ms := 1000 |};
     cameras := []; nvrs := []; face_encodings := [];
     school_config := no_school_config;
     face_detection_enabled := true;
     discipline_detection_enabled := true;
     face_confidence_threshold := percent 80;
     discipline_confidence_threshold := percent 85 |}.

Definition set_cameras (l : list CameraConfig) : M Config unit :=
  λ c, (Ret tt,
        {| static := static c; cameras := l; nvrs := nvrs c;
           face_encodings := face_encodings c;
           school_config := school_config c;
           face_detection_enabled := face_detection_enabled c;
           discipline_detection_enabled := discipline_detection_enabled c;
           face_confidence_threshold := face_confidence_threshold c;
           discipline_confidence_threshold := discipline_confidence_threshold c |}).

(** [self.cameras.append(cam)]. *)
Definition append_camera (cam : CameraConfig) : M Config unit :=
  λ c, set_cameras (cameras c ++ [cam]) c.

Definition set_nvrs (l : list NVRConfig) : M Config unit :=
  λ c, (Ret tt,
        {| static := static c; cameras := cameras c; nvrs := l;
           face_encodings := face_encodings c;
           school_config := school_config c;
           face_detection_enabled := face_detection_enabled c;
           discipline_detection_enabled := discipline_detection_enabled c;
           face_confidence_threshold := face_confidence_threshold c;
           discipline_confidence_threshold := discipline_confidence_threshold c |}).

Definition set_face_encodings (l : list face_encoding) : M Config unit :=
  λ c, (Ret tt,
        {| static := static c; cameras := cameras c; nvrs := nvrs c;
           face_encodings := l;
           school_config := school_config c;
           face_detection_enabled := face_detection_enabled c;
           discipline_detection_enabled := discipline_detection_enabled c;
           face_confidence_threshold := face_confidence_threshold c;
           discipline_confidence_threshold := discipline_confidence_threshold c |}).

(** The five assignments under [if 'schoolConfig' in cloud_config]. *)
Definition set_school_config (sc : school_config_entry) : M Config unit :=
  λ c, (Ret tt,
        {| static := static c; cameras := cameras c; nvrs := nvrs c;
           face_encodings := face_encodings c;
           school_config := sc;
           face_detection_enabled := default true (enableFaceRecognition sc);
           discipline_detection_enabled := default true (enableDisciplineAlerts sc);
           face_confidence_threshold :=
             percent (default 80 (attendanceConfidenceThreshold sc));
           discipline_confidence_threshold :=
             percent (default 85 (fightConfidenceThreshold sc)) |}).

Definition default_template : string :=
  "rtsp://{username}:{password}@{ip}:{port}/cam/realmonitor?channel={channel}&subtype=0".

(** [x or y] on strings. *)
Definition str_or (x y : string) : string :=
  if decide (x = "") then y else x.

(** Python truthiness of [cam.get('nvrId')]. *)
Definition truthy_id (i : option Z) : bool :=
  match i with
  | None => false
  | Some n => bool_decide (n ≠ 0)
  end.

(** The first NVR with [nvr.id == nvr_id]. *)
Fixpoint find_nvr (i : option Z) (l : list NVRConfig) : option NVRConfig :=
  match l with
  | [] => None
  | nvr :: l' =>
      if decide (Some (nvr_id nvr) = i) then Some nvr else find_nvr i l'
  end.

Definition nvr_of_entry (nvr : nvr_entry) : NVRConfig :=
  {| nvr_id := ne_id nvr; nvr_name := ne_name nvr;
     ip_address := ipAddress nvr;
     port := default 554 (ne_port nvr);
     username := default "" (ne_username nvr);
     password := default "" (ne_password nvr);
     rtsp_template := default "" (rtspTemplate nvr);
     total_channels := default 16 (totalChannels nvr) |}.

Definition camera_of_entry (cam : camera_entry) (url : string) : CameraConfig :=
  {| cam_id := ce_id cam; cam_name := ce_name cam; rtsp_url := url;
     cam_type := default "GENERAL" (ce_type cam);
     location := default "" (ce_location cam);
     enabled := default true (isActive cam) |}.

(** The keyword arguments of the [format] call. *)
Definition nvr_kwargs (nvr : NVRConfig) (channel : Z) : gmap string string :=
  {[ "username" := username nvr;
     "password" := password nvr;
     "ip" := ip_address nvr;
     "port" := pretty (port nvr);
     "channel" := pretty channel ]}.

Section WithFormat.

(** [template.format] with keyword arguments, of the Python library. *)
Variable str_format : string → gmap string string → res string.

Definition _build_nvr_rtsp_url (camera : camera_entry) : M Config string :=
  λ c, let channel := default 1 (channelNumber camera) in
       match find_nvr (nvrId camera) (nvrs c) with
       | Some nvr =>
           let template := str_or (rtsp_template nvr) default_template in
           lift (str_format template (nvr_kwargs nvr channel)) c
       | None => (Ret "", c)
       end.

(** The body of [for cam in cloud_config['cameras']]. *)
Definition load_camera (cam : camera_entry) : M Config unit :=
  let rtsp_url := default "" (rtspUrl cam) in
  do rtsp_url <~ (if bool_decide (rtsp_url = "") && truthy_id (nvrId cam)
                  then _build_nvr_rtsp_url cam
                  else ret rtsp_url);
  append_camera (camera_of_entry cam rtsp_url).

Fixpoint load_cameras (cams : list camera_entry) : M Config unit :=
  match cams with
  | [] => ret tt
  | cam :: rest => do _ <~ load_camera cam; load_cameras rest
  end.

Definition update_from_cloud (cloud_config : cloud_config) : M Config unit :=
  do _ <~ match cc_cameras cloud_config with
          | Some cams => do _ <~ set_cameras []; load_cameras cams
          | None => ret tt
          end;
  do _ <~ match cc_nvrs cloud_config with
          | Some l => set_nvrs (nvr_of_entry <$> l)
          | None => ret tt
          end;
  do _ <~ match cc_faceEncodings cloud_config with
          | Some l => set_face_encodings l
          | None => ret tt
          end;
  match cc_schoolConfig cloud_config with
  | Some sc => set_school_config sc
  | None => ret tt
  end.

End WithFormat.

Definition get_active_cameras (c : Config) : list CameraConfig :=
  filter (λ cam, enabled cam = true ∧ rtsp_url cam ≠ "") (cameras c).

(** The fragment of [str.format] the templates use: text, the escapes
    [{{] and [}}], and replacement fields [{name}] looked up in the
    keyword arguments.  Conversions, format specifications and
    attribute or index lookups inside a field are not interpreted. *)
Inductive format_state : Type :=
| Text
| AfterOpen
| AfterClose
| Field (name : string).

Definition res_map {A B} (f : A → B) (r : res A) : res B :=
  match r with
  | Ret a => Ret (f a)
  | Raise e => Raise e
  end.

Fixpoint format_from (kwargs : gmap string string) (st : format_state)
    (s : string) : res string :=
  match s with
  | EmptyString =>
      match st with
      | Text => Ret ""
      | AfterClose => Raise (ValueError "Single '}' encountered in format string")
      | _ => Raise (ValueError "expected '}' before end of string")
      end
  | String c s' =>
      match st with
      | Text =>
          if decide (c = "{"%char) then format_from kwargs AfterOpen s'
          else if decide (c = "}"%char) then format_from kwargs AfterClose s'
          else res_map (String c) (format_from kwargs Text s')
      | AfterOpen =>
          if decide (c = "{"%char) then
            res_map (String c) (format_from kwargs Text s')
          else if decide (c = "}"%char) then Raise IndexError
          else format_from kwargs (Field (String c "")) s'
      | AfterClose =>
          if decide (c = "}"%char) then
            res_map (String c) (format_from kwargs Text s')
          else Raise (ValueError "Single '}' encountered in format string")
      | Field name =>
          if decide (c = "}"%char) then
            match kwargs !! name with
            | Some v => res_map (String.append v) (format_from kwargs Text s')
            | None => Raise (KeyError name)
            end
          else if decide (c = "{"%char) then
            Raise (ValueError "unexpected '{' in field name")
          else format_from kwargs (Field (name ++ String c "")) s'
      end
  end.

Definition format (template : string) (kwargs : gmap string string) : res string :=
  format_from kwargs Text template.

(** *** Vocabulary of the properties *)

(** Formatting the template of each of the NVRs [l] returns. *)
Definition templates_format
    (str_format : string → gmap string string → res string)
    (l : list NVRConfig) : Prop :=
  ∀ nvr channel, nvr ∈ l →
    ∃ url, str_format (str_or (rtsp_template nvr) default_template)
             (nvr_kwargs nvr channel) = Ret url.

(** [c'] differs from [c] in the camera list at most. *)
Definition same_but_cameras (c c' : Config) : Prop :=
  static c' = static c ∧ nvrs c' = nvrs c
  ∧ face_encodings c' = face_encodings c
  ∧ school_config c' = school_config c
  ∧ face_detection_enabled c' = face_detection_enabled c
  ∧ discipline_detection_enabled c' = discipline_detection_enabled c
  ∧ face_confidence_threshold c' = face_confidence_threshold c
  ∧ discipline_confidence_threshold c' = discipline_confidence_threshold c.

(** What an update that ran to its end leaves in the attributes other
    than the camera list. *)
Definition sections_merged (cc : cloud_config) (c c' : Config) : Prop :=
  static c' = static c
  ∧ nvrs c' = from_option (fmap nvr_of_entry) (nvrs c) (cc_nvrs cc)
  ∧ face_encodings c' = default (face_encodings c) (cc_faceEncodings cc)
  ∧ school_config c' = default (school_config c) (cc_schoolConfig cc)
  ∧ face_detection_enabled c'
    = from_option (λ sc, default true (enableFaceRecognition sc))
        (face_detection_enabled c) (cc_schoolConfig cc)
  ∧ discipline_detection_enabled c'
    = from_option (λ sc, default true (enableDisciplineAlerts sc))
        (discipline_detection_enabled c) (cc_schoolConfig cc)
  ∧ face_confidence_threshold c'
    = from_option (λ sc, percent (default 80 (attendanceConfidenceThreshold sc)))
        (face_confidence_threshold c) (cc_schoolConfig cc)
  ∧ discipline_confidence_threshold c'
    = from_option (λ sc, percent (default 85 (fightConfidenceThreshold sc)))
        (discipline_confidence_threshold c) (cc_schoolConfig cc).

(** A first configuration document: one camera behind one NVR. *)
Definition gate_camera : camera_entry :=
  {| ce_id := 1; ce_name := "Gate"; rtspUrl := None; nvrId := Some 7;
     channelNumber := Some 2; ce_type := Some "ENTRY"; ce_location := None;
     isActive := Some true |}.

Definition main_nvr : nvr_entry :=
  {| ne_id := 7; ne_name := "Main NVR"; ipAddress := "10.0.0.5";
     ne_port := None; ne_username := Some "admin"; ne_password := Some "pw";
     rtspTemplate := None; totalChannels := None |}.

Definition first_sync : cloud_config :=
  {| cc_cameras := Some [gate_camera];
     cc_nvrs := Some [main_nvr];
     cc_faceEncodings := Some [];
     cc_schoolConfig :=
       Some {| enableFaceRecognition := Some true;
               enableDisciplineAlerts := None;
               attendanceConfidenceThreshold := Some 75;
               fightConfidenceThreshold := None;
               crowdingThreshold := None; runningThreshold := None |} |}.

(** A camera that names an NVR the agent does not know, next to one
    with a URL of its own, and a configuration that knows another NVR. *)
Definition yard_camera : camera_entry :=
  {| ce_id := 2; ce_name := "Yard"; rtspUrl := Some ""; nvrId := Some 9;
     channelNumber := None; ce_type := None; ce_location := None;
     isActive := Some true |}.

Definition hall_camera : camera_entry :=
  {| ce_id := 3; ce_name := "Hall";
     rtspUrl := Some "rtsp://10.0.0.9/stream1"; nvrId := None;
     channelNumber := None; ce_type := Some "CORRIDOR";
     ce_location := Some "Block A"; isActive := None |}.

Definition cameras_only : cloud_config :=
  {| cc_cameras := Some [hall_camera; yard_camera]; cc_nvrs := None;
     cc_faceEncodings := None; cc_schoolConfig := None |}.

Definition synced_once : Config :=
  snd (update_from_cloud format first_sync (init ∅)).

End Config.

(** ** event_queue.py: vocabulary of the queue's histories *)

Module QueueHistory.
Import Py EventQueue.

(** The columns that identify an event and carry what the detector
    reported. *)
Definition content (r : row) :=
  (row_id r, event_type r, camera_id r, timestamp r, data r, created_at r).

(** [a] is created strictly before [b]. *)
Definition strictly_older (a b : row) : Prop :=
  String.ltb (created_at a) (created_at b) = true.

(** What the status of a record says about its other columns. *)
Definition status_consistent (r : row) : Prop :=
  0 ≤ retry_count r
  ∧ (status r = Pending → retry_count r ≤ 4)
  ∧ (status r = Failed → 5 ≤ retry_count r)
  ∧ (status r = Processed → is_Some (processed_at r)).

(** A call as a drain loop issues it, or a [cleanup_old]. *)
Definition drain_or_cleanup_call (o : op) (q : EventQueue) : Prop :=
  match o with
  | CleanupOld _ => True
  | _ => drain_call o q
  end.

Fixpoint drain_or_cleanup_calls (os : list op) (q : EventQueue) : Prop :=
  match os with
  | [] => True
  | o :: os' =>
      drain_or_cleanup_call o q ∧ drain_or_cleanup_calls os' (snd (call o q))
  end.

(** The dict that [get_pending] returns for [event] once it is stored
    under [event_id]. *)
Definition pending_of_event (event_id : Z) (event : Event) : pending_event :=
  {| pe_id := event_id; pe_type := ev_type event;
     pe_camera_id := ev_camera_id event; pe_timestamp := ev_timestamp event;
     pe_data := ev_data event; pe_retry_count := 0 |}.

(** Deliveries and a clean-up in between. *)
Definition cleaned_sample : list op :=
  [Enqueue sample_event "2026-01-05 08:30:00";
   Enqueue sample_event "2026-01-05 08:30:01";
   MarkProcessed [1] "2026-01-05T14:00:05";
   CleanupOld "2026-01-06 00:00:00";
   MarkFailed [2]].

End QueueHistory.

(** ** main.py: the agent at work *)

Module AgentRuns.
Import Py EdgeAgent.

(** The callback the stream tasks are given. *)
Definition _handle_detection_event (event : EventQueue.Event) (now : string)
  : M EdgeAgent unit :=
  do _ <~ on_queue (EventQueue.enqueue event now); ret tt.

(** What happens to a running agent: a stream task reports a detection,
    or the drain loop takes a turn. *)
Inductive happening : Type :=
| Detection (event : EventQueue.Event) (now : string)
| DrainTurn (w : ApiClient.world) (now : string).

Definition happen (h : happening) : M EdgeAgent unit :=
  match h with
  | Detection event now => _handle_detection_event event now
  | DrainTurn w now => event_sync_turn w now
  end.

Fixpoint happenings (hs : list happening) : M EdgeAgent unit :=
  match hs with
  | [] => ret tt
  | h :: hs' => do _ <~ happen h; happenings hs'
  end.

(** The agent as [__init__] makes it, with a new database. *)
Definition new_agent : EdgeAgent :=
  {| event_queue := EventQueue.new_queue;
     api_client :=
       {| ApiClient.token := None; ApiClient.token_expires_at := None;
          ApiClient.school_id := None |} |}.

(** The batch a drain turn submits. *)
Definition batch (a : EdgeAgent) : list EventQueue.row :=
  EventQueue.select_pending 50 (event_queue a).

(** The cloud answers 200 and reports [n] events as processed. *)
Definition acknowledges (n : Z) : ApiClient.world :=
  {| ApiClient.token_expired := false;
     ApiClient.login_post := Raise (ClientError "not used");
     ApiClient.events_post :=
       Ret (ApiClient.mk_response 200
              (Ret {[ "processed" := n ]}) (Ret "ok")) |}.

(** Nothing of the batch is acknowledged: the POST raises, or answers
    with another status than 200, or with a body that is not JSON or
    has no [processed] entry, or reports no event as processed. *)
Definition acknowledges_nothing (w : ApiClient.world) : Prop :=
  match ApiClient.events_post w with
  | Raise _ => True
  | Ret resp =>
      ApiClient.resp_status resp ≠ 200
      ∨ match ApiClient.resp_json resp with
        | Raise _ => True
        | Ret body =>
            match body !! "processed" with
            | None => True
            | Some n => n ≤ 0
            end
        end
  end.

(** The columns a drain turn leaves alone. *)
Definition kept_by_drain (r : EventQueue.row) :=
  (EventQueue.row_id r, EventQueue.event_type r, EventQueue.camera_id r,
   EventQueue.timestamp r, EventQueue.data r, EventQueue.retry_count r,
   EventQueue.created_at r).

(** Two detections, a turn in which the cloud is down, one in which it
    acknowledges both, and a third detection. *)
Definition busy_morning : list happening :=
  [Detection EventQueue.sample_event "2026-01-05 08:30:00";
   Detection EventQueue.sample_event "2026-01-05 08:30:01";
   DrainTurn ApiClient.connection_lost "2026-01-05T08:30:05";
   DrainTurn (acknowledges 2) "2026-01-05T08:30:10";
   Detection EventQueue.sample_event "2026-01-05 08:30:12"].

End AgentRuns.

(** ** config.py: how the camera section resolves *)

Module ConfigLoading.
Import Py Config.

Section WithFormat.
Variable str_format : string → gmap string string → res string.

(** The URL the camera loop computes for one entry, against the NVR
    list [l]. *)
Definition resolved_url (l : list NVRConfig) (cam : camera_entry) : res string :=
  let url := default "" (rtspUrl cam) in
  if bool_decide (url = "") && truthy_id (nvrId cam) then
    match find_nvr (nvrId cam) l with
    | Some nvr =>
        str_format (str_or (rtsp_template nvr) default_template)
          (nvr_kwargs nvr (default 1 (channelNumber cam)))
    | None => Ret ""
    end
  else Ret url.

(** The cameras the loop appends before it ends or raises, and the
    exception it raises, if any. *)
Fixpoint resolved_cameras (l : list NVRConfig) (cams : list camera_entry)
  : list CameraConfig * option exn :=
  match cams with
  | [] => ([], None)
  | cam :: rest =>
      match resolved_url l cam with
      | Ret url =>
          let '(stored, e) := resolved_cameras l rest in
          (camera_of_entry cam url :: stored, e)
      | Raise e => ([], Some e)
      end
  end.

End WithFormat.

(** An entry that needs no NVR: it has a URL of its own, or names no
    NVR. *)
Definition self_contained (cam : camera_entry) : Prop :=
  default "" (rtspUrl cam) ≠ "" ∨ truthy_id (nvrId cam) = false.

(** [c] with another camera list. *)
Definition with_cameras (l : list CameraConfig) (c : Config) : Config :=
  snd (set_cameras l c).

(** Text without braces: [format] copies it. *)
Fixpoint plain (s : string) : bool :=
  match s with
  | EmptyString => true
  | String c s' =>
      negb (Ascii.eqb c "{") && negb (Ascii.eqb c "}") && plain s'
  end.

(** The URL of the default template. *)
Definition default_url (nvr : NVRConfig) (channel : Z) : string :=
  "rtsp://" ++ username nvr ++ ":" ++ password nvr ++ "@" ++ ip_address nvr
    ++ ":" ++ pretty (port nvr) ++ "/cam/realmonitor?channel="
    ++ pretty channel ++ "&subtype=0".

(** An NVR whose template names a field that [format] is not given, and
    a document with a camera behind it between two others. *)
Definition broken_nvr : NVRConfig :=
  {| nvr_id := 9; nvr_name := "Annex"; ip_address := "10.0.1.5"; port := 554;
     username := "admin"; password := "pw";
     rtsp_template := "rtsp://{host}/ch{channel}"; total_channels := 16 |}.

Definition annex_config : Config :=
  snd (set_nvrs [broken_nvr] synced_once).

Definition annex_sync : cloud_config :=
  {| cc_cameras := Some [hall_camera; yard_camera; gate_camera];
     cc_nvrs := Some []; cc_faceEncodings := Some [];
     cc_schoolConfig := Some no_school_config |}.

End ConfigLoading.

(** ** api_client.py: configuration and heartbeat requests *)

Module CloudSession.
Import Py ApiClient.

(** [get_config]; [config_get] is the outcome of the GET. *)
Definition get_config (w : world)
    (config_get : res (response Config.cloud_config))
  : M ParikShanAPIClient (option Config.cloud_config) :=
  do _ <~ _ensure_authenticated w;
  try_except
    (do resp <~ lift config_get;
     if decide (resp_status resp = 200) then
       do document <~ lift (resp_json resp);
       ret (Some document)
     else
       do _ <~ lift (resp_text resp);
       ret None)
    (λ _, ret None).

(** [send_heartbeat]; [heartbeat_post] is the outcome of the POST. *)
Definition send_heartbeat (w : world)
    (heartbeat_post : res (response unit))
  : M ParikShanAPIClient bool :=
  do _ <~ _ensure_authenticated w;
  try_except
    (do resp <~ lift heartbeat_post;
     if decide (resp_status resp = 200) then ret true
     else
       do _ <~ lift (resp_text resp);
       ret false)
    (λ _, ret false).

(** A client that has never logged in. *)
Definition logged_out : ParikShanAPIClient :=
  {| token := None; token_expires_at := None; school_id := None |}.

(** A login answer whose expiry time cannot be parsed. *)
Definition bad_expiry : world :=
  {| token_expired := true;
     login_post :=
       Ret (mk_response 200
              (Ret {| ld_token := "token-2";
                      ld_expiresAt := Raise (ValueError "Invalid isoformat string");
                      ld_schoolId := 12 |})
              (Ret "ok"));
     events_post := Raise (ClientError "not used") |}.

End CloudSession.

(** ** detectors/__init__.py *)

Module Detectors.
Import Py Config.

(** A detection dict: its [type] and the JSON text of its [data]. *)
Record detection : Type := mk_detection {
  det_type : string;
  det_data : string
}.

(** The detectors a composite can hold, with the arguments they are
    constructed with. *)
Inductive detector : Type :=
| FaceDetector (face_encodings : list face_encoding) (confidence_threshold : Q)
| DisciplineDetector (confidence_threshold : Q)
    (crowding_threshold running_threshold : Z).

(** [CompositeDetector(detectors)]. *)
Definition CompositeDetector : Type := list detector.

Definition discipline_camera_types : list string :=
  ["CORRIDOR"; "CLASSROOM"; "ENTRY"].

Definition create_detector (camera_type : string)
    (face_encodings : list face_encoding) (config : school_config_entry)
  : CompositeDetector :=
  let detectors : list detector := [] in
  let detectors :=
    if default true (enableFaceRecognition config) then
      (detectors ++ [FaceDetector face_encodings
                       (percent (default 80 (attendanceConfidenceThreshold config)))])%list
    else detectors in
  let detectors :=
    if default true (enableDisciplineAlerts config)
       && bool_decide (camera_type ∈ discipline_camera_types) then
      (detectors ++ [DisciplineDetector
                       (percent (default 85 (fightConfidenceThreshold config)))
                       (default 30 (crowdingThreshold config))
                       (default 5 (runningThreshold config))])%list
    else detectors in
  detectors.

Section WithModels.

(** A frame, and what [detector.detect(frame)] of each detector
    evaluates to (the models are outside the agent). *)
Variable frame : Type.
Variable run : detector → frame → res (list detection).

(** [CompositeDetector.detect]. *)
Fixpoint detect (detectors : CompositeDetector) (f : frame) : list detection :=
  match detectors with
  | [] => []
  | d :: rest =>
      match run d f with
      | Ret detections => (detections ++ detect rest f)%list
      | Raise _ => detect rest f
      end
  end.

End WithModels.

(** A school configuration that turns both detectors off. *)
Definition all_off : school_config_entry :=
  {| enableFaceRecognition := Some false; enableDisciplineAlerts := Some false;
     attendanceConfidenceThreshold := None; fightConfidenceThreshold := None;
     crowdingThreshold := None; runningThreshold := None |}.

End Detectors.

(** ** rtsp_manager.py: the stream object *)

Module Stream.
Import Py Config Detectors.

(** What leaves an OpenCV call as an exception, and the exception of
    [%] with a zero divisor. *)
Inductive error : Type :=
| Cv2Error (msg : string)
| ZeroDivisionError.

Inductive outcome (A : Type) : Type :=
| Returns (a : A)
| Raises (e : error).
Arguments Returns {A} a.
Arguments Raises {A} e.

(** [StreamStats].  A [datetime] is the number of microseconds it
    stands for. *)
Record StreamStats : Type := mk_stats {
  camera_id : Z;
  frames_processed : Z;
  detections_count : Z;
  errors_count : Z;
  last_frame_time : option Z;
  is_connected : bool
}.

(** The stream object.  [_cap] is the capture object, if any, with the
    URL it was opened on; the callback is the same for every stream and
    is given where it is called. *)
Record RTSPStream : Type := mk_stream {
  camera : CameraConfig;
  face_encodings : list face_encoding;
  school_config : school_config_entry;
  frame_skip : Z;
  detection_interval_ms : Z;
  stats : StreamStats;
  _cap : option string;
  _frame_count : Z;
  _last_detection_time : Z;
  _detector : option CompositeDetector
}.

(** [RTSPStream(camera, ..., frame_skip, detection_interval_ms)];
    [now] is the clock read by [__init__]. *)
Definition init (camera : CameraConfig) (face_encodings : list face_encoding)
    (school_config : school_config_entry)
    (frame_skip detection_interval_ms : Z) (now : Z) : RTSPStream :=
  {| camera := camera; face_encodings := face_encodings;
     school_config := school_config; frame_skip := frame_skip;
     detection_interval_ms := detection_interval_ms;
     stats := {| camera_id := cam_id camera; frames_processed := 0;
                 detections_count := 0; errors_count := 0;
                 last_frame_time := None; is_connected := false |};
     _cap := None; _frame_count := 0; _last_detection_time := now;
     _detector := None |}.

Definition set_stats (s : StreamStats) (st : RTSPStream) : RTSPStream :=
  {| camera := camera st; face_encodings := face_encodings st;
     school_config := school_config st; frame_skip := frame_skip st;
     detection_interval_ms := detection_interval_ms st;
     stats := s; _cap := _cap st; _frame_count := _frame_count st;
     _last_detection_time := _last_detection_time st;
     _detector := _detector st |}.

Definition set_cap (cap : option string) (st : RTSPStream) : RTSPStream :=
  {| camera := camera st; face_encodings := face_encodings st;
     school_config := school_config st; frame_skip := frame_skip st;
     detection_interval_ms := detection_interval_ms st;
     stats := stats st; _cap := cap; _frame_count := _frame_count st;
     _last_detection_time := _last_detection_time st;
     _detector := _detector st |}.

Definition set_frame_count (n : Z) (st : RTSPStream) : RTSPStream :=
  {| camera := camera st; face_encodings := face_encodings st;
     school_config := school_config st; frame_skip := frame_skip st;
     detection_interval_ms := detection_interval_ms st;
     stats := stats st; _cap := _cap st; _frame_count := n;
     _last_detection_time := _last_detection_time st;
     _detector := _detector st |}.

Definition set_last_detection_time (now : Z) (st : RTSPStream) : RTSPStream :=
  {| camera := camera st; face_encodings := face_encodings st;
     school_config := school_config st; frame_skip := frame_skip st;
     detection_interval_ms := detection_interval_ms st;
     stats := stats st; _cap := _cap st; _frame_count := _frame_count st;
     _last_detection_time := now; _detector := _detector st |}.

Definition set_detector (d : option CompositeDetector) (st : RTSPStream)
  : RTSPStream :=
  {| camera := camera st; face_encodings := face_encodings st;
     school_config := school_config st; frame_skip := frame_skip st;
     detection_interval_ms := detection_interval_ms st;
     stats := stats st; _cap := _cap st; _frame_count := _frame_count st;
     _last_detection_time := _last_detection_time st; _detector := d |}.

(** [stream.face_encodings = face_encodings], as [update_config]
    writes it. *)
Definition set_face_encodings (l : list face_encoding) (st : RTSPStream)
  : RTSPStream :=
  {| camera := camera st; face_encodings := l;
     school_config := school_config st; frame_skip := frame_skip st;
     detection_interval_ms := detection_interval_ms st;
     stats := stats st; _cap := _cap st; _frame_count := _frame_count st;
     _last_detection_time := _last_detection_time st;
     _detector := _detector st |}.

(** [self.stats.is_connected = b]. *)
Definition set_connected (b : bool) (st : RTSPStream) : RTSPStream :=
  set_stats {| camera_id := camera_id (stats st);
               frames_processed := frames_processed (stats st);
               detections_count := detections_count (stats st);
               errors_count := errors_count (stats st);
               last_frame_time := last_frame_time (stats st);
               is_connected := b |} st.

(** [self.stats.errors_count += 1]. *)
Definition count_error (st : RTSPStream) : RTSPStream :=
  set_stats {| camera_id := camera_id (stats st);
               frames_processed := frames_processed (stats st);
               detections_count := detections_count (stats st);
               errors_count := errors_count (stats st) + 1;
               last_frame_time := last_frame_time (stats st);
               is_connected := is_connected (stats st) |} st.

(** Lines 103-105: both frame counters and the time of the frame. *)
Definition count_frame (now : Z) (st : RTSPStream) : RTSPStream :=
  set_stats {| camera_id := camera_id (stats st);
               frames_processed := frames_processed (stats st) + 1;
               detections_count := detections_count (stats st);
               errors_count := errors_count (stats st);
               last_frame_time := Some now;
               is_connected := is_connected (stats st) |}
    (set_frame_count (_frame_count st + 1) st).

(** [self.stats.detections_count += n]. *)
Definition count_detections (n : Z) (st : RTSPStream) : RTSPStream :=
  set_stats {| camera_id := camera_id (stats st);
               frames_processed := frames_processed (stats st);
               detections_count := detections_count (stats st) + n;
               errors_count := errors_count (stats st);
               last_frame_time := last_frame_time (stats st);
               is_connected := is_connected (stats st) |} st.

(** [_init_detector]. *)
Definition _init_detector (st : RTSPStream) : RTSPStream :=
  match _detector st with
  | None =>
      set_detector
        (Some (create_detector (cam_type (camera st)) (face_encodings st)
                 (school_config st))) st
  | Some _ => st
  end.

(** The detector a stream works with: the one it has, or else the one
    [_init_detector] makes. *)
Definition detector_of (st : RTSPStream) : CompositeDetector :=
  match _detector st with
  | Some detector => detector
  | None =>
      create_detector (cam_type (camera st)) (face_encodings st)
        (school_config st)
  end.

(** The camera during one [connect]: what [cv2.VideoCapture(url)],
    [set] and [isOpened] do. *)
Record connect_io : Type := mk_connect_io {
  video_capture : outcome unit;
  cap_set : outcome unit;
  cap_isOpened : outcome bool
}.

(** [connect]. *)
Definition connect (io : connect_io) (st : RTSPStream) : bool * RTSPStream :=
  match video_capture io with
  | Raises _ => (false, st)
  | Returns _ =>
      let st := set_cap (Some (rtsp_url (camera st))) st in
      match cap_set io with
      | Raises _ => (false, st)
      | Returns _ =>
          match cap_isOpened io with
          | Returns true => (true, set_connected true st)
          | Returns false => (false, st)
          | Raises _ => (false, st)
          end
      end
  end.

(** [disconnect]; [release] returns. *)
Definition disconnect (st : RTSPStream) : RTSPStream :=
  set_connected false (set_cap None st).

(** What [process_frame] never writes. *)
Definition fixed_part (st : RTSPStream) :=
  (camera st, face_encodings st, school_config st, frame_skip st,
   detection_interval_ms st, _cap st, is_connected (stats st),
   camera_id (stats st)).

Section WithWorld.

(** Frames; the state of the object the callback belongs to and what
    the callback reads of the world at one call; the float
    [(now - last).total_seconds() * 1000] for a difference given in
    microseconds; [isoformat]. *)
Variable frame : Type.
Variable owner : Type.
Variable moment : Type.
Variable event_callback : moment → EventQueue.Event → M owner unit.
Variable total_ms : Z → Q.
Variable isoformat : Z → string.

(** The world during one [process_frame]: the capture's [isOpened]
    and [read], the two clock readings, the detectors' models and
    the world at the k-th call of the callback. *)
Record frame_io : Type := mk_frame_io {
  isOpened : outcome bool;
  read : outcome (bool * frame);
  frame_time : Z;
  detection_time : Z;
  run : detector → frame → res (list detection);
  callback_io : nat → moment
}.

(** The event dict of a detection. *)
Definition event_of (st : RTSPStream) (now : Z) (d : detection)
  : EventQueue.Event :=
  {| EventQueue.ev_type := det_type d;
     EventQueue.ev_camera_id := cam_id (camera st);
     EventQueue.ev_timestamp := isoformat now;
     EventQueue.ev_data := det_data d |}.

(** The [for detection in detections] loop, from the k-th call of the
    callback on. *)
Fixpoint deliver (io : frame_io) (k : nat) (events : list EventQueue.Event)
  : M owner unit :=
  match events with
  | [] => ret tt
  | event :: rest =>
      do _ <~ event_callback (callback_io io k) event;
      deliver io (S k) rest
  end.

(** [process_frame]: what it returns ([None], or the number in
    [{'detections': n}]) or raises, the stream and the callback's
    owner afterwards. *)
Definition process_frame (io : frame_io) (st : RTSPStream) (o : owner)
  : outcome (option Z) * RTSPStream * owner :=
  match _cap st with
  | None => (Returns None, count_error st, o)
  | Some _ =>
      match isOpened io with
      | Raises e => (Raises e, st, o)
      | Returns false => (Returns None, count_error st, o)
      | Returns true =>
          match read io with
          | Raises e => (Raises e, st, o)
          | Returns (false, _) => (Returns None, count_error st, o)
          | Returns (true, f) =>
              let st := count_frame (frame_time io) st in
              if frame_skip st =? 0 then (Raises ZeroDivisionError, st, o)
              else if negb (_frame_count st `mod` frame_skip st =? 0) then
                (Returns None, st, o)
              else
                let now := detection_time io in
                if negb (Qle_bool (inject_Z (detection_interval_ms st))
                           (total_ms (now - _last_detection_time st))) then
                  (Returns None, st, o)
                else
                  let st := set_last_detection_time now st in
                  let st := _init_detector st in
                  match _detector st with
                  | None => (Returns None, count_error st, o)
                  | Some detector =>
                      match detect frame (run io) detector f with
                      | [] => (Returns (Some 0), st, o)
                      | detections =>
                          let n := Z.of_nat (length detections) in
                          let st := count_detections n st in
                          match deliver io 0 (event_of st now <$> detections) o with
                          | (Ret _, o') => (Returns (Some n), st, o')
                          | (Raise _, o') => (Returns None, count_error st, o')
                          end
                      end
                  end
          end
      end
  end.

(** The camera during one turn of [_stream_loop]. *)
Record turn_io : Type := mk_turn_io {
  turn_connect : connect_io;
  turn_frame : frame_io
}.

(** [process_frame], the pacing sleep and the [except] branch of
    [_stream_loop]. *)
Definition frame_turn (io : turn_io) (reconnect_delay : Z)
    (st : RTSPStream) (o : owner)
  : Z * RTSPStreamManager.wait * RTSPStream * owner :=
  match process_frame (turn_frame io) st o with
  | (Returns _, st', o') =>
      (reconnect_delay, RTSPStreamManager.FramePause, st', o')
  | (Raises _, st', o') =>
      (reconnect_delay, RTSPStreamManager.Backoff reconnect_delay,
       disconnect st', o')
  end.

(** One turn of the [while self._running] loop on a stream object:
    the new [reconnect_delay], the sleep, the stream and the
    callback's owner. *)
Definition loop_turn (io : turn_io) (reconnect_delay : Z)
    (st : RTSPStream) (o : owner)
  : Z * RTSPStreamManager.wait * RTSPStream * owner :=
  if is_connected (stats st) then frame_turn io reconnect_delay st o
  else
    match connect (turn_connect io) st with
    | (true, st') => frame_turn io 5 st' o
    | (false, st') =>
        (Z.min (reconnect_delay * 2) 60,
         RTSPStreamManager.Backoff reconnect_delay, st', o)
    end.

(** The turns of one task, one per element of the list. *)
Fixpoint loop_turns (ios : list turn_io) (reconnect_delay : Z)
    (st : RTSPStream) (o : owner)
  : list RTSPStreamManager.wait * Z * RTSPStream * owner :=
  match ios with
  | [] => ([], reconnect_delay, st, o)
  | io :: rest =>
      let '(delay, w, st', o') := loop_turn io reconnect_delay st o in
      let '(ws, delay', st'', o'') := loop_turns rest delay st' o' in
      (w :: ws, delay', st'', o'')
  end.

(** The turn as the supervisor's model sees it. *)
Definition supervised (reconnect_delay : Z) (st : RTSPStream)
  : RTSPStreamManager.stream_state :=
  {| RTSPStreamManager.reconnect_delay := reconnect_delay;
     RTSPStreamManager.is_connected := is_connected (stats st) |}.

Definition raises {A} (r : outcome A) : bool :=
  match r with Raises _ => true | Returns _ => false end.

Definition camera_io_of (io : turn_io) (st : RTSPStream) (o : owner)
  : RTSPStreamManager.camera_io :=
  let st' := if is_connected (stats st) then st
             else snd (connect (turn_connect io) st) in
  {| RTSPStreamManager.connect_ok :=
       fst (connect (turn_connect io) st);
     RTSPStreamManager.frame_raises :=
       raises (process_frame (turn_frame io) st' o).1.1 |}.

(** The turns of a task as the supervisor's model sees them. *)
Fixpoint camera_ios_of (ios : list turn_io) (reconnect_delay : Z)
    (st : RTSPStream) (o : owner) : list RTSPStreamManager.camera_io :=
  match ios with
  | [] => []
  | io :: rest =>
      let '(delay, _, st', o') := loop_turn io reconnect_delay st o in
      camera_io_of io st o :: camera_ios_of rest delay st' o'
  end.

(** Whether the call runs the detectors. *)
Definition runs_detection (io : frame_io) (st : RTSPStream) : bool :=
  match _cap st, isOpened io, read io with
  | Some _, Returns true, Returns (true, _) =>
      let st := count_frame (frame_time io) st in
      negb (frame_skip st =? 0)
      && (_frame_count st `mod` frame_skip st =? 0)
      && Qle_bool (inject_Z (detection_interval_ms st))
           (total_ms (detection_time io - _last_detection_time st))
  | _, _, _ => false
  end.

(** A sequence of [process_frame] calls on one stream: how many of
    them run the detectors, and the stream afterwards. *)
Fixpoint frames (ios : list frame_io) (st : RTSPStream) (o : owner)
  : nat * RTSPStream * owner :=
  match ios with
  | [] => (0%nat, st, o)
  | io :: rest =>
      let '(_, st', o') := process_frame io st o in
      let '(n, st'', o'') := frames rest st' o' in
      ((if runs_detection io st then S n else n), st'', o'')
  end.

(** The capture delivers no frame. *)
Definition no_frame (io : frame_io) : Prop :=
  (∃ b, isOpened io = Returns b)
  ∧ (isOpened io = Returns true → ∃ f, read io = Returns (false, f)).

End WithWorld.

Arguments mk_frame_io {frame moment}.
Arguments isOpened {frame moment}.
Arguments read {frame moment}.
Arguments frame_time {frame moment}.
Arguments detection_time {frame moment}.
Arguments run {frame moment}.
Arguments callback_io {frame moment}.
Arguments mk_turn_io {frame moment}.
Arguments turn_connect {frame moment}.
Arguments turn_frame {frame moment}.
Arguments deliver {frame owner moment} event_callback io k events.
Arguments process_frame {frame owner moment} event_callback total_ms
  isoformat io st o.
Arguments frame_turn {frame owner moment} event_callback total_ms isoformat
  io reconnect_delay st o.
Arguments loop_turn {frame owner moment} event_callback total_ms isoformat
  io reconnect_delay st o.
Arguments loop_turns {frame owner moment} event_callback total_ms isoformat
  ios reconnect_delay st o.
Arguments raises {A} r.
Arguments camera_io_of {frame owner moment} event_callback total_ms
  isoformat io st o.
Arguments camera_ios_of {frame owner moment} event_callback total_ms
  isoformat ios reconnect_delay st o.
Arguments runs_detection {frame moment} total_ms io st.
Arguments frames {frame owner moment} event_callback total_ms isoformat
  ios st o.
Arguments no_frame {frame moment} io.

(** A camera at the gate, its stream once connected and once it has
    built its detector, and a capture that delivers a frame in which
    the face detector finds one person. *)
Definition gate : CameraConfig :=
  {| cam_id := 1; cam_name := "Gate"; rtsp_url := "rtsp://10.0.0.5/gate";
     cam_type := "ENTRY"; location := "Main gate"; enabled := true |}.

Definition answers : connect_io :=
  {| video_capture := Returns tt; cap_set := Returns tt;
     cap_isOpened := Returns true |}.

Definition gate_stream : RTSPStream :=
  snd (connect answers (init gate [] no_school_config 5 1000 0)).

Definition gate_stream_at_work : RTSPStream :=
  set_frame_count 4 (_init_detector gate_stream).

Definition seen : detection :=
  {| det_type := "ATTENDANCE"; det_data := "{}" |}.

Definition one_face : frame_io unit string :=
  {| isOpened := Returns true; read := Returns (true, tt);
     frame_time := 2000000; detection_time := 2000001;
     run := λ d _, match d with
                   | FaceDetector _ _ => Ret [seen]
                   | DisciplineDetector _ _ _ => Ret []
                   end;
     callback_io := λ _, "2026-01-05 08:30:00" |}.

Definition dark : frame_io unit string :=
  {| isOpened := Returns true; read := Returns (false, tt);
     frame_time := 0; detection_time := 0;
     run := λ _ _, Ret [];
     callback_io := λ _, "2026-01-05 08:30:00" |}.

(** Milliseconds of a difference in microseconds, exactly. *)
Definition exact_ms (d : Z) : Q := Qmake d 1000.

End Stream.

(** ** rtsp_manager.py: the manager and its stream objects *)

Module Manager.
Import Py Config.

(** A task created for [_stream_loop(stream)]: the stream object it
    loops on (its place in [objects]), the loop's local
    [reconnect_delay] and whether [cancel] was called on it. *)
Record task : Type := mk_task {
  task_stream : nat;
  reconnect_delay : Z;
  cancelled : bool
}.

(** The manager.  [objects] holds the stream objects that [_streams]
    or a task refers to, in the order of their creation; [_streams]
    and the tasks refer to them by position, so that a stream removed
    from [_streams] is still the one its task loops on. *)
Record RTSPStreamManager : Type := mk_manager {
  cameras : list CameraConfig;
  nvrs : list NVRConfig;
  face_encodings : list face_encoding;
  school_config : school_config_entry;
  _streams : gmap Z nat;
  _running : bool;
  _tasks : list task;
  objects : list Stream.RTSPStream
}.

(** [RTSPStreamManager(cameras, nvrs, event_callback, face_encodings,
    school_config)]. *)
Definition init (cameras : list CameraConfig) (nvrs : list NVRConfig)
    (face_encodings : list face_encoding)
    (school_config : school_config_entry) : RTSPStreamManager :=
  {| cameras := cameras; nvrs := nvrs; face_encodings := face_encodings;
     school_config := school_config; _streams := ∅; _running := false;
     _tasks := []; objects := [] |}.

Definition set_running (b : bool) (m : RTSPStreamManager) : RTSPStreamManager :=
  {| cameras := cameras m; nvrs := nvrs m;
     face_encodings := face_encodings m; school_config := school_config m;
     _streams := _streams m; _running := b; _tasks := _tasks m;
     objects := objects m |}.

Definition set_lists (l : list CameraConfig) (encodings : list face_encoding)
    (m : RTSPStreamManager) : RTSPStreamManager :=
  {| cameras := l; nvrs := nvrs m;
     face_encodings := encodings; school_config := school_config m;
     _streams := _streams m; _running := _running m; _tasks := _tasks m;
     objects := objects m |}.

Definition set_streams (streams : gmap Z nat) (m : RTSPStreamManager)
  : RTSPStreamManager :=
  {| cameras := cameras m; nvrs := nvrs m;
     face_encodings := face_encodings m; school_config := school_config m;
     _streams := streams; _running := _running m; _tasks := _tasks m;
     objects := objects m |}.

Definition set_tasks (tasks : list task) (m : RTSPStreamManager)
  : RTSPStreamManager :=
  {| cameras := cameras m; nvrs := nvrs m;
     face_encodings := face_encodings m; school_config := school_config m;
     _streams := _streams m; _running := _running m; _tasks := tasks;
     objects := objects m |}.

Definition set_objects (l : list Stream.RTSPStream) (m : RTSPStreamManager)
  : RTSPStreamManager :=
  {| cameras := cameras m; nvrs := nvrs m;
     face_encodings := face_encodings m; school_config := school_config m;
     _streams := _streams m; _running := _running m; _tasks := _tasks m;
     objects := l |}.

(** A method call on the stream object at [ref]. *)
Definition on_stream (f : Stream.RTSPStream → Stream.RTSPStream) (ref : nat)
    (m : RTSPStreamManager) : RTSPStreamManager :=
  set_objects (alter f ref (objects m)) m.

(** The world while one stream is created: the clock read by
    [RTSPStream.__init__] and the camera during [connect]. *)
Record spawn_io : Type := mk_spawn_io {
  created : Z;
  spawn_connect : Stream.connect_io
}.

(** Lines 179-189 and 246-255: a new stream object, and when it
    connects its entry in [_streams] and its task. *)
Definition spawn (io : spawn_io) (camera : CameraConfig)
    (encodings : list face_encoding) (m : RTSPStreamManager)
  : RTSPStreamManager :=
  let stream := Stream.init camera encodings (school_config m) 5 1000
                  (created io) in
  match Stream.connect (spawn_connect io) stream with
  | (true, stream) =>
      let ref := length (objects m) in
      set_tasks (_tasks m ++ [{| task_stream := ref; reconnect_delay := 5;
                                 cancelled := false |}])
        (set_streams (<[cam_id camera := ref]> (_streams m))
           (set_objects (objects m ++ [stream]) m))
  | (false, _) => m
  end.

(** [camera.enabled and camera.rtsp_url]. *)
Definition streamable (camera : CameraConfig) : bool :=
  enabled camera && negb (bool_decide (rtsp_url camera = "")).

(** The loop of [start], from the [i]-th camera on; [ios i] is the
    world while the [i]-th camera of the list is handled. *)
Fixpoint start_loop (ios : nat → spawn_io) (i : nat)
    (l : list CameraConfig) (m : RTSPStreamManager) : RTSPStreamManager :=
  match l with
  | [] => m
  | camera :: rest =>
      start_loop ios (S i) rest
        (if streamable camera then spawn (ios i) camera (face_encodings m) m
         else m)
  end.

(** [start]. *)
Definition start (ios : nat → spawn_io) (m : RTSPStreamManager)
  : RTSPStreamManager :=
  let m := set_running true m in
  start_loop ios 0 (cameras m) m.

(** Lines 238-240 for one [camera_id]. *)
Definition drop_stream (camera_id : Z) (m : RTSPStreamManager)
  : RTSPStreamManager :=
  match _streams m !! camera_id with
  | Some ref =>
      set_streams (delete camera_id (_streams m))
        (on_stream Stream.disconnect ref m)
  | None => m
  end.

(** The second loop of [update_config], from the [i]-th camera on. *)
Fixpoint update_loop (ios : nat → spawn_io) (i : nat)
    (l : list CameraConfig) (current_ids new_ids : gset Z)
    (encodings : list face_encoding) (m : RTSPStreamManager)
  : RTSPStreamManager :=
  match l with
  | [] => m
  | camera :: rest =>
      update_loop ios (S i) rest current_ids new_ids encodings
        (match _streams m !! cam_id camera with
         | Some ref => on_stream (Stream.set_face_encodings encodings) ref m
         | None =>
             if streamable camera
                && bool_decide (cam_id camera ∈ new_ids ∖ current_ids) then
               spawn (ios i) camera encodings m
             else m
         end)
  end.

(** [set(c.id for c in cameras if c.enabled and c.rtsp_url)]. *)
Definition streamable_ids (l : list CameraConfig) : gset Z :=
  list_to_set (cam_id <$> filter (λ c, streamable c = true) l).

(** [update_config]. *)
Definition update_config (ios : nat → spawn_io) (l : list CameraConfig)
    (encodings : list face_encoding) (m : RTSPStreamManager)
  : RTSPStreamManager :=
  let m := set_lists l encodings m in
  let current_ids : gset Z := dom (_streams m) in
  let new_ids := streamable_ids l in
  let m := foldr drop_stream m (elements (current_ids ∖ new_ids)) in
  update_loop ios 0 l current_ids new_ids encodings m.

Definition cancel (t : task) : task :=
  {| task_stream := task_stream t; reconnect_delay := reconnect_delay t;
     cancelled := true |}.

(** [stop]. *)
Definition stop (m : RTSPStreamManager) : RTSPStreamManager :=
  let m := set_running false m in
  let m := set_tasks (cancel <$> _tasks m) m in
  let m := foldr (on_stream Stream.disconnect) m (map_to_list (_streams m)).*2 in
  set_streams ∅ m.

Section WithWorld.
Variable frame : Type.
Variable owner : Type.
Variable moment : Type.
Variable event_callback : moment → EventQueue.Event → M owner unit.
Variable total_ms : Z → Q.
Variable isoformat : Z → string.

(** The event loop gives the [i]-th task a turn: one turn of its
    [while self._running] loop, unless the task is cancelled or the
    manager stopped. *)
Definition task_turn (i : nat) (io : Stream.turn_io frame moment)
    (m : RTSPStreamManager) (o : owner) : RTSPStreamManager * owner :=
  match _tasks m !! i with
  | Some t =>
      if _running m && negb (cancelled t) then
        match objects m !! task_stream t with
        | Some stream =>
            let '(delay, _, stream', o') :=
              Stream.loop_turn event_callback total_ms isoformat io
                (reconnect_delay t) stream o in
            (set_tasks (<[i := {| task_stream := task_stream t;
                                  reconnect_delay := delay;
                                  cancelled := cancelled t |}]> (_tasks m))
               (set_objects (<[task_stream t := stream']> (objects m)) m),
             o')
        | None => (m, o)
        end
      else (m, o)
  | None => (m, o)
  end.

End WithWorld.

Arguments task_turn {frame owner moment} event_callback total_ms isoformat
  i io m o.

(** What ties [_streams], the tasks and the stream objects together:
    an entry of [_streams] refers to a stream object of that camera
    id, two entries to two objects, and every entry's object has a
    task. *)
Definition consistent (m : RTSPStreamManager) : Prop :=
  (∀ camera_id ref, _streams m !! camera_id = Some ref →
     ∃ stream, objects m !! ref = Some stream
               ∧ cam_id (Stream.camera stream) = camera_id)
  ∧ (∀ camera_id ref, _streams m !! camera_id = Some ref →
       ∃ i t, _tasks m !! i = Some t ∧ task_stream t = ref
              ∧ cancelled t = false).

(** Every stream object carries the manager's school configuration. *)
Definition uniform (m : RTSPStreamManager) : Prop :=
  Forall (λ stream, Stream.school_config stream = school_config m)
    (objects m).

(** A school with a gate camera on one URL, then on another, and a
    hall camera. *)
Definition gate : CameraConfig := Stream.gate.

Definition gate_moved : CameraConfig :=
  {| cam_id := 1; cam_name := "Gate"; rtsp_url := "rtsp://10.0.0.6/gate";
     cam_type := "ENTRY"; location := "Main gate"; enabled := true |}.

Definition hall : CameraConfig :=
  {| cam_id := 3; cam_name := "Hall"; rtsp_url := "rtsp://10.0.0.9/stream1";
     cam_type := "CORRIDOR"; location := "Block A"; enabled := true |}.

(** Every camera answers. *)
Definition answers (now : Z) : spawn_io :=
  {| created := now; spawn_connect := Stream.answers |}.

Definition two_streams : RTSPStreamManager :=
  start (λ _, answers 0) (init [gate; hall] [] [] no_school_config).

End Manager.

(** ** main.py: the services of the agent *)

Module AgentServices.
Import Py.


(** The agent with the attributes the refresh loop works on:
    [event_queue] and [api_client] (in [agent]), [config] and
    [rtsp_manager]. *)
Record Agent : Type := mk_agent {
  agent : EdgeAgent.EdgeAgent;
  config : Config.Config;
  rtsp_manager : option Manager.RTSPStreamManager
}.

(** A call on [self.api_client]. *)
Definition on_client {A} (m : M ApiClient.ParikShanAPIClient A) : M Agent A :=
  λ a, let '(r, e) := EdgeAgent.on_client m (agent a) in
       (r, {| agent := e; config := config a;
              rtsp_manager := rtsp_manager a |}).

(** A call on [self.config]. *)
Definition on_config {A} (m : M Config.Config A) : M Agent A :=
  λ a, let '(r, c) := m (config a) in
       (r, {| agent := agent a; config := c;
              rtsp_manager := rtsp_manager a |}).

(** The empty dict, the one document that is not truthy. *)
Definition empty_document (d : Config.cloud_config) : bool :=
  match Config.cc_cameras d, Config.cc_nvrs d, Config.cc_faceEncodings d,
        Config.cc_schoolConfig d with
  | None, None, None, None => true
  | _, _, _, _ => false
  end.

Section WithFormat.
Variable str_format : string → gmap string string → res string.

(** [_sync_configuration]; [config_get] is the outcome of the GET. *)
Definition _sync_configuration (w : ApiClient.world)
    (config_get : res (ApiClient.response Config.cloud_config))
  : M Agent unit :=
  do config_data <~ on_client (CloudSession.get_config w config_get);
  match config_data with
  | Some document =>
      if empty_document document then ret tt
      else on_config (Config.update_from_cloud str_format document)
  | None => ret tt
  end.

(** [self.rtsp_manager.update_config(self.config.cameras,
    self.config.face_encodings)] when there is a manager. *)
Definition update_streams (ios : nat → Manager.spawn_io) : M Agent unit :=
  λ a, match rtsp_manager a with
       | Some m =>
           (Ret tt,
            {| agent := agent a; config := config a;
               rtsp_manager :=
                 Some (Manager.update_config ios
                         (Config.cameras (config a))
                         (Config.face_encodings (config a)) m) |})
       | None => (Ret tt, a)
       end.

(** One turn of [_config_refresh_loop], after its [sleep(300)]. *)
Definition config_refresh_turn (w : ApiClient.world)
    (config_get : res (ApiClient.response Config.cloud_config))
    (ios : nat → Manager.spawn_io) : M Agent unit :=
  try_except
    (do _ <~ _sync_configuration w config_get;
     update_streams ios)
    (λ _, ret tt).

End WithFormat.

(** The part of [_start_services] that makes the manager, once the
    health server is up. *)
Definition start_streams (ios : nat → Manager.spawn_io) : M Agent unit :=
  λ a, (Ret tt,
        {| agent := agent a; config := config a;
           rtsp_manager :=
             Some (Manager.start ios
                     (Manager.init (Config.cameras (config a))
                        (Config.nvrs (config a))
                        (Config.face_encodings (config a))
                        (Config.school_config (config a)))) |}).

(** An agent that started before the cloud had a school
    configuration, with the gate camera streaming; then the cloud
    serves a document with a school configuration. *)
Definition at_work : Agent :=
  snd (start_streams (λ _, Manager.answers 0)
         {| agent := EdgeAgent.two_queued;
            config := snd (Config.set_cameras [Manager.gate]
                             (Config.init ∅));
            rtsp_manager := None |}).

Definition serves (document : Config.cloud_config)
  : res (ApiClient.response Config.cloud_config) :=
  Ret (ApiClient.mk_response 200 (Ret document) (Ret "ok")).

End AgentServices.

(** ** event_queue.py: the calls as [sqlite3] runs them

    Before a statement runs, [cursor.execute] prepares it and binds its
    parameters, and both can fail.  The calls of [EventQueue] above are
    the statements; here they are behind the binding. *)

Module QueueBinding.
Import Py EventQueue.

(** A value handed to [execute] for a [?]. *)
Inductive parameter : Type :=
| Integer (n : Z)
| Text (s : string).

(** What SQLite stores as an INTEGER: a signed 64-bit value. *)
Definition sqlite_integer (n : Z) : Prop := - 2 ^ 63 ≤ n ∧ n < 2 ^ 63.

#[global] Instance sqlite_integer_dec n : Decision (sqlite_integer n).
Proof. unfold sqlite_integer. apply _. Defined.

Definition bindable (p : parameter) : Prop :=
  match p with
  | Integer n => sqlite_integer n
  | Text _ => True
  end.

#[global] Instance bindable_dec p : Decision (bindable p).
Proof. destruct p; apply _. Defined.

Section WithLimit.

(** [SQLITE_LIMIT_VARIABLE_NUMBER] of the SQLite library in use (999
    before SQLite 3.32, 32766 since, more in some distributions). *)
Variable variable_limit : Z.

(** [cursor.execute(sql, parameters)] up to the point where the
    statement runs: preparing fails with [OperationalError] when the
    statement has more [?] than the limit, then binding fails with
    [OverflowError] for an int outside the signed 64-bit range. *)
Definition bind_parameters (parameters : list parameter) : res unit :=
  if decide (variable_limit < Z.of_nat (length parameters)) then
    Raise (OperationalError "too many SQL variables")
  else if decide (Forall bindable parameters) then Ret tt
  else Raise OverflowError.

(** [enqueue]: the INSERT fails with SQLITE_FULL once the largest
    rowid has been handed out. *)
Definition enqueue (event : Event) (now : string) : M EventQueue Z :=
  do _ <~ lift (bind_parameters [Text (ev_type event);
                                 Integer (ev_camera_id event);
                                 Text (ev_timestamp event);
                                 Text (ev_data event)]);
  λ q, if decide (2 ^ 63 - 1
                  ≤ Z.max (sqlite_sequence q) (max_rowid (events q))) then
         (Raise (OperationalError "database or disk is full"), q)
       else EventQueue.enqueue event now q.

(** [get_pending]. *)
Definition get_pending (batch_size : Z) : M EventQueue (list pending_event) :=
  do _ <~ lift (bind_parameters [Text "pending"; Integer batch_size]);
  EventQueue.get_pending batch_size.

(** [mark_processed].  When binding the new counter fails, the
    attribute [_processed_count] has been assigned already, and the
    UPDATE of the records is not committed. *)
Definition mark_processed (event_ids : list Z) (now : string)
  : M EventQueue unit :=
  match event_ids with
  | [] => ret tt
  | _ =>
      do _ <~ lift (bind_parameters (Text now :: (Integer <$> event_ids)));
      λ q, let n := _processed_count q + Z.of_nat (length event_ids) in
           match bind_parameters [Integer n; Text "processed_count"] with
           | Ret _ => EventQueue.mark_processed event_ids now q
           | Raise e =>
               (Raise e,
                {| events := events q;
                   sqlite_sequence := sqlite_sequence q;
                   stats_processed_count := stats_processed_count q;
                   _processed_count := n |})
           end
  end.

(** [mark_failed]. *)
Definition mark_failed (event_ids : list Z) : M EventQueue unit :=
  match event_ids with
  | [] => ret tt
  | _ =>
      do _ <~ lift (bind_parameters (Integer <$> event_ids));
      EventQueue.mark_failed event_ids
  end.

End WithLimit.

(** What [mark_processed] needs of its ids and of the counter to get
    past the binding. *)
Definition accepted (variable_limit : Z) (event_ids : list Z)
    (q : EventQueue) : Prop :=
  Z.of_nat (length event_ids) + 1 ≤ variable_limit
  ∧ Forall sqlite_integer event_ids
  ∧ sqlite_integer (_processed_count q + Z.of_nat (length event_ids)).

End QueueBinding.

(** ** config.py: a camera behind no NVR, after one behind a bad NVR *)

Module ConfigNvr.
Import Py Config ConfigLoading.

(** A camera that names an NVR nobody knows. *)
Definition lost_camera : camera_entry :=
  {| ce_id := 4; ce_name := "Store"; rtspUrl := None; nvrId := Some 42;
     channelNumber := None; ce_type := None; ce_location := None;
     isActive := Some true |}.

(** It comes after the yard camera, whose NVR has a template that
    cannot be formatted. *)
Definition lost_sync : cloud_config :=
  {| cc_cameras := Some [yard_camera; lost_camera]; cc_nvrs := None;
     cc_faceEncodings := None; cc_schoolConfig := None |}.

End ConfigNvr.

(** * Properties *)

(** ** Order of timestamp texts *)

Module StringOrder.

Lemma ascii_compare_lt_trans a b c :
  Ascii.compare a b = Lt → Ascii.compare b c = Lt → Ascii.compare a c = Lt.
Proof.
  unfold Ascii.compare. rewrite !N.compare_lt_iff. lia.
Qed.

Lemma compare_lt_trans s1 : ∀ s2 s3,
  String.compare s1 s2 = Lt → String.compare s2 s3 = Lt →
  String.compare s1 s3 = Lt.
Proof.
  induction s1 as [|a s1 IH]; intros [|b s2] [|c s3]; simpl; try done.
  destruct (Ascii.compare a b) eqn:Hab; try done;
    destruct (Ascii.compare b c) eqn:Hbc; try done; intros H1 H2.
  - apply Ascii.compare_eq_iff in Hab, Hbc. subst.
    assert (Ascii.compare c c = Eq) as ->
      by (unfold Ascii.compare; apply N.compare_refl).
    eauto.
  - apply Ascii.compare_eq_iff in Hab. subst. by rewrite Hbc.
  - apply Ascii.compare_eq_iff in Hbc. subst. by rewrite Hab.
  - by rewrite (ascii_compare_lt_trans _ _ _ Hab Hbc).
Qed.

Lemma leb_trans s1 s2 s3 :
  String.leb s1 s2 = true → String.leb s2 s3 = true →
  String.leb s1 s3 = true.
Proof.
  unfold String.leb. intros H1 H2.
  destruct (String.compare s1 s2) eqn:H12; try done;
    destruct (String.compare s2 s3) eqn:H23; try done.
  - apply String.compare_eq_iff in H12. subst. by rewrite H23.
  - apply String.compare_eq_iff in H12. subst. by rewrite H23.
  - apply String.compare_eq_iff in H23. subst. by rewrite H12.
  - by rewrite (compare_lt_trans _ _ _ H12 H23).
Qed.

Lemma leb_false_flip s1 s2 :
  String.leb s1 s2 = false → String.leb s2 s1 = true.
Proof.
  intros H. destruct (String.leb_total s1 s2) as [H'|H']; congruence.
Qed.

End StringOrder.

(** ** The event queue *)

Module EventQueueFacts.
Import Py EventQueue.

Section Select.

Lemma insert_by_created_at_perm r l :
  insert_by_created_at r l ≡ₚ r :: l.
Proof.
  induction l as [|x l IH]; simpl; [done|].
  destruct (String.leb _ _); [done|].
  rewrite IH. apply Permutation_swap.
Qed.

Lemma order_by_created_at_perm l : order_by_created_at l ≡ₚ l.
Proof.
  induction l as [|x l IH]; simpl; [done|].
  by rewrite insert_by_created_at_perm, IH.
Qed.

Lemma insert_by_created_at_sorted r l :
  StronglySorted older l → StronglySorted older (insert_by_created_at r l).
Proof.
  induction 1 as [|x l Hl IH Hx]; simpl.
  - repeat constructor.
  - destruct (String.leb (created_at r) (created_at x)) eqn:Hrx.
    + constructor; [by constructor|].
      constructor; [done|].
      eapply Forall_impl; [exact Hx|].
      intros y Hy. unfold older in *.
      eauto using StringOrder.leb_trans.
    + constructor; [done|].
      rewrite insert_by_created_at_perm.
      constructor; [|done].
      by apply StringOrder.leb_false_flip.
Qed.

Lemma order_by_created_at_sorted l :
  StronglySorted older (order_by_created_at l).
Proof.
  induction l; simpl; [constructor|].
  by apply insert_by_created_at_sorted.
Qed.

Lemma sorted_prefix_before_rest (l1 l2 : list row) :
  StronglySorted older (l1 ++ l2) →
  ∀ a b, a ∈ l1 → b ∈ l2 → older a b.
Proof.
  induction l1 as [|x l1 IH]; simpl; intros Hs a b Ha Hb.
  - by apply elem_of_nil in Ha.
  - apply StronglySorted_inv in Hs as [Hs Hx].
    apply elem_of_cons in Ha as [->|Ha]; [|by eauto].
    rewrite Forall_forall in Hx. apply Hx.
    apply elem_of_app. by right.
Qed.

Lemma sorted_take n (l : list row) :
  StronglySorted older l → StronglySorted older (take n l).
Proof.
  intros Hs. revert n.
  induction Hs as [|x l Hl IH Hx]; intros [|n]; simpl; try constructor.
  - apply IH.
  - eapply Forall_impl with (P := older x); [|done].
    apply Forall_forall. intros y Hy.
    rewrite Forall_forall in Hx. apply Hx.
    eapply elem_of_take in Hy. by destruct Hy as (?&?&?); eapply list_elem_of_lookup_2.
Qed.

(** Whatever order the rows of equal [created_at] come in, a limit
    that is not negative keeps the oldest rows of a sorted table. *)
Lemma limit_takes_oldest (n : Z) (sorted l : list row) :
  0 ≤ n → sorted ≡ₚ l → StronglySorted older sorted →
  ∃ rest,
    limit n sorted ++ rest ≡ₚ l
    ∧ Z.of_nat (length (limit n sorted)) = Z.min n (Z.of_nat (length l))
    ∧ StronglySorted older (limit n sorted)
    ∧ ∀ a b, a ∈ limit n sorted → b ∈ rest → older a b.
Proof.
  intros Hn Hperm Hsorted.
  assert (limit n sorted = take (Z.to_nat n) sorted) as ->.
  { unfold limit. destruct (Z.ltb_spec n 0); [lia|done]. }
  exists (drop (Z.to_nat n) sorted). repeat split.
  - by rewrite take_drop.
  - rewrite length_take, <- Hperm. lia.
  - by apply sorted_take.
  - apply sorted_prefix_before_rest. by rewrite take_drop.
Qed.

End Select.

(** The SELECT of [get_pending] with a limit that is not negative: it
    gives, without changing the queue, at most [batch_size] records (as
    many as there are, up to the batch size), each a record of the
    queue with status pending and a retry count below 5, in ascending
    order of [created_at], and no record left out is older than a
    returned one; on an empty table it gives the empty list. *)
Lemma select_pending_oldest (q : EventQueue) (batch_size : Z) :
  0 ≤ batch_size →
  ∃ rows rest,
    get_pending batch_size q = (Ret (pending_of_row <$> rows), q)
    ∧ rows ++ rest ≡ₚ filter eligible (events q)
    ∧ Z.of_nat (length rows) ≤ batch_size
    ∧ Z.of_nat (length rows)
      = Z.min batch_size (Z.of_nat (length (filter eligible (events q))))
    ∧ Forall (λ r, r ∈ events q ∧ status r = Pending ∧ retry_count r < 5) rows
    ∧ StronglySorted older rows
    ∧ (∀ a b, a ∈ rows → b ∈ rest → older a b)
    ∧ (events q = [] → rows = []).
Proof.
  intros Hb.
  destruct (limit_takes_oldest batch_size
              (order_by_created_at (filter eligible (events q)))
              (filter eligible (events q)) Hb
              (order_by_created_at_perm _) (order_by_created_at_sorted _))
    as (rest & Hperm & Hlen & Hsorted & Hold).
  exists (select_pending batch_size q), rest.
  unfold select_pending in *.
  repeat split; try done.
  - lia.
  - apply Forall_forall. intros r Hr.
    assert (r ∈ filter eligible (events q)) as Hin.
    { rewrite <- Hperm. apply elem_of_app. by left. }
    apply list_elem_of_filter in Hin as [[? ?] ?]. done.
  - intros Hnil. rewrite Hnil. unfold limit. simpl.
    destruct (batch_size <? 0); [done|apply take_nil].
Qed.

End EventQueueFacts.
Module EventQueueSequences.
Import Py EventQueue.

(** *** Every call returns *)

Lemma call_returns o q : fst (call o q) = Ret tt.
Proof.
  destruct o as [e now|ids now|ids|cutoff]; simpl; try done.
  - by destruct ids.
  - by destruct ids.
Qed.

Lemma after_nil q : after [] q = q.
Proof. done. Qed.

Lemma after_cons o os q : after (o :: os) q = after os (snd (call o q)).
Proof.
  unfold after. simpl. unfold bind.
  pose proof (call_returns o q) as H.
  destruct (call o q) as [[[]|e] q']; simpl in *; [done|discriminate].
Qed.

Lemma calls_return os : ∀ q, fst (calls os q) = Ret tt.
Proof.
  induction os as [|o os IH]; intros q; simpl; [done|].
  unfold bind. pose proof (call_returns o q) as H.
  destruct (call o q) as [[[]|e] q']; simpl in *; [apply IH|discriminate].
Qed.

(** *** The state after an update with a list that is not empty *)

Lemma mark_processed_state ids now q :
  ids ≠ [] →
  snd (mark_processed ids now q)
  = {| events := set_processed ids now <$> events q;
       sqlite_sequence := sqlite_sequence q;
       stats_processed_count := _processed_count q + Z.of_nat (length ids);
       _processed_count := _processed_count q + Z.of_nat (length ids) |}.
Proof. by destruct ids. Qed.

Lemma mark_failed_state ids q :
  ids ≠ [] →
  snd (mark_failed ids q)
  = {| events := bump_retry ids <$> events q;
       sqlite_sequence := sqlite_sequence q;
       stats_processed_count := stats_processed_count q;
       _processed_count := _processed_count q |}.
Proof. by destruct ids. Qed.

(** *** Row updates keep the id *)

Lemma set_processed_id ids now r : row_id (set_processed ids now r) = row_id r.
Proof. unfold set_processed. by case_decide. Qed.

Lemma bump_retry_id ids r : row_id (bump_retry ids r) = row_id r.
Proof. unfold bump_retry. by case_decide. Qed.

Lemma fmap_ids_preserved (f : row → row) (l : list row) :
  (∀ r, row_id (f r) = row_id r) → row_id <$> (f <$> l) = row_id <$> l.
Proof.
  intros Hf. rewrite <- list_fmap_compose. apply list_fmap_ext.
  intros i r _. simpl. apply Hf.
Qed.

Lemma same_id_same_row (l : list row) r r' :
  NoDup (row_id <$> l) → r ∈ l → r' ∈ l → row_id r = row_id r' → r = r'.
Proof.
  induction l as [|x l IH]; simpl; intros Hnd Hr Hr' Hid.
  - by apply elem_of_nil in Hr.
  - apply NoDup_cons in Hnd as [Hx Hnd].
    apply elem_of_cons in Hr as [->|Hr];
      apply elem_of_cons in Hr' as [->|Hr']; try done.
    + exfalso. apply Hx. rewrite Hid. by apply list_elem_of_fmap_2.
    + exfalso. apply Hx. rewrite <- Hid. by apply list_elem_of_fmap_2.
    + by apply IH.
Qed.

Lemma max_rowid_bound (l : list row) r : r ∈ l → row_id r ≤ max_rowid l.
Proof.
  induction l as [|x l IH]; simpl.
  - intros H. by apply elem_of_nil in H.
  - intros [->|Hr]%elem_of_cons; [lia|]. specialize (IH Hr). lia.
Qed.

(** *** The schema invariant holds in every reachable state *)

Lemma well_formed_new : well_formed new_queue.
Proof. split; simpl; constructor. Qed.

Lemma well_formed_call o q : well_formed q → well_formed (snd (call o q)).
Proof.
  intros [Hnd Hle].
  destruct o as [e now|ids now|ids|cutoff]; simpl.
  - split; simpl.
    + rewrite fmap_app. apply NoDup_app. split; [done|]. split.
      * intros i Hi Hi'. apply list_elem_of_fmap in Hi as (r & -> & Hr).
        apply max_rowid_bound in Hr.
        simpl in Hi'. apply list_elem_of_singleton in Hi'. lia.
      * simpl. apply NoDup_singleton.
    + apply Forall_app. split.
      * apply Forall_forall. intros r Hr%max_rowid_bound. lia.
      * repeat constructor. simpl. lia.
  - destruct ids as [|i ids]; [done|]. split; simpl.
    + rewrite fmap_ids_preserved; [done|]. apply set_processed_id.
    + apply Forall_fmap. eapply Forall_impl; [exact Hle|].
      intros r Hr. simpl. by rewrite set_processed_id.
  - destruct ids as [|i ids]; [done|]. split; simpl.
    + rewrite fmap_ids_preserved; [done|]. apply bump_retry_id.
    + apply Forall_fmap. eapply Forall_impl; [exact Hle|].
      intros r Hr. simpl. by rewrite bump_retry_id.
  - split; simpl.
    + eapply sublist_NoDup; [exact Hnd|].
      apply fmap_sublist, sublist_filter.
    + apply Forall_forall. intros r Hr.
      apply list_elem_of_filter in Hr as [_ Hr].
      rewrite Forall_forall in Hle. by apply Hle.
Qed.

Lemma well_formed_after os : ∀ q, well_formed q → well_formed (after os q).
Proof.
  induction os as [|o os IH]; intros q Hq; [done|].
  rewrite after_cons. by apply IH, well_formed_call.
Qed.

End EventQueueSequences.
Module EventQueueRetries.
Import Py EventQueue EventQueueSequences.

Lemma limit_elem {A} (n : Z) (l : list A) x : x ∈ limit n l → x ∈ l.
Proof.
  unfold limit. destruct (n <? 0); [done|].
  intros (i & Hi & _)%elem_of_take. by eapply list_elem_of_lookup_2.
Qed.

Lemma select_pending_eligible b q r :
  r ∈ select_pending b q → r ∈ events q ∧ eligible r.
Proof.
  unfold select_pending. intros Hr%limit_elem.
  rewrite EventQueueFacts.order_by_created_at_perm in Hr.
  apply list_elem_of_filter in Hr. tauto.
Qed.






End EventQueueRetries.
Module EventQueueTerminal.
Import Py EventQueue EventQueueSequences.

(** C2, as stated, fails: neither UPDATE looks at the status.
    [mark_failed] on the id of a processed record puts it back to
    pending with retry count 1, and [mark_processed] on the id of a
    failed record makes it processed. *)
Lemma terminal_record_rewritten :
  (∃ r r', events one_processed !! 0%nat = Some r
           ∧ status r = Processed
           ∧ events (snd (mark_failed [1] one_processed)) !! 0%nat = Some r'
           ∧ status r' = Pending
           ∧ retry_count r' = retry_count r + 1)
  ∧ (∃ r r', events one_failed !! 0%nat = Some r
             ∧ status r = Failed
             ∧ events (snd (mark_processed [1] "2026-01-05T14:00:10" one_failed))
                 !! 0%nat = Some r'
             ∧ status r' = Processed
             ∧ processed_at r' ≠ processed_at r).
Proof.
  split; eexists _, _;
    (split; [reflexivity|]); (split; [reflexivity|]);
    (split; [reflexivity|]); (split; [reflexivity|]); done.
Qed.

(** C2 (amended): a record whose status is processed or failed is left
    as it is, field by field and at its place in the table, by every
    [enqueue] and by every [mark_processed] and [mark_failed] whose
    list of ids does not contain the record's id; [cleanup_old] keeps
    it as it is or deletes it, and deletes it only if it is older than
    the cutoff. *)
Theorem terminal_record_kept (q : EventQueue) (k : nat) (r : row) :
  events q !! k = Some r → terminal (status r) →
  (∀ event now, events (snd (enqueue event now q)) !! k = Some r)
  ∧ (∀ event_ids now, row_id r ∉ event_ids →
       events (snd (mark_processed event_ids now q)) !! k = Some r)
  ∧ (∀ event_ids, row_id r ∉ event_ids →
       events (snd (mark_failed event_ids q)) !! k = Some r)
  ∧ (∀ cutoff,
       events (snd (cleanup_old cutoff q)) `sublist_of` events q
       ∧ (r ∈ events (snd (cleanup_old cutoff q))
          ∨ String.ltb (created_at r) cutoff = true)).
Proof.
  intros Hk Hterm. repeat split.
  - intros event now. simpl. by apply lookup_app_l_Some.
  - intros ids now Hnot. destruct ids as [|i ids]; [done|]. simpl.
    rewrite list_lookup_fmap, Hk. simpl.
    unfold set_processed. by rewrite decide_False.
  - intros ids Hnot. destruct ids as [|i ids]; [done|]. simpl.
    rewrite list_lookup_fmap, Hk. simpl.
    unfold bump_retry. by rewrite decide_False.
  - simpl. apply sublist_filter.
  - simpl. destruct (String.ltb (created_at r) cutoff) eqn:Hold; [by right|].
    left. apply list_elem_of_filter. split.
    + unfold old_terminal. rewrite Hold. intros [_ ?]. done.
    + by eapply list_elem_of_lookup_2.
Qed.

Lemma terminal_record_kept_witness :
  ∃ r, events one_processed !! 0%nat = Some r
       ∧ terminal (status r)
       ∧ (∀ event now,
            events (snd (enqueue event now one_processed)) !! 0%nat = Some r)
       ∧ (∀ event_ids now, row_id r ∉ event_ids →
            events (snd (mark_processed event_ids now one_processed)) !! 0%nat
            = Some r)
       ∧ (∀ event_ids, row_id r ∉ event_ids →
            events (snd (mark_failed event_ids one_processed)) !! 0%nat
            = Some r)
       ∧ (∀ cutoff,
            events (snd (cleanup_old cutoff one_processed))
              `sublist_of` events one_processed
            ∧ (r ∈ events (snd (cleanup_old cutoff one_processed))
               ∨ String.ltb (created_at r) cutoff = true)).
Proof.
  eexists. split; [reflexivity|]. split; [by left|].
  apply (terminal_record_kept one_processed 0); [reflexivity|by left].
Defined.

(** The two UPDATEs of [mark_processed]: every record whose id is in
    the list, whatever its status, gets status processed and
    [processed_at = now]; every other record is left as it is; ids that
    belong to no record are ignored; [processed_count] grows by the
    length of the list. *)
Lemma mark_processed_updates
    (event_ids : list Z) (now : string) (q : EventQueue) :
  ∃ q',
    mark_processed event_ids now q = (Ret tt, q')
    ∧ length (events q') = length (events q)
    ∧ (∀ k r, events q !! k = Some r → row_id r ∈ event_ids →
         ∃ r', events q' !! k = Some r'
               ∧ status r' = Processed ∧ processed_at r' = Some now
               ∧ row_id r' = row_id r ∧ retry_count r' = retry_count r)
    ∧ (∀ k r, events q !! k = Some r → row_id r ∉ event_ids →
         events q' !! k = Some r)
    ∧ _processed_count q' = _processed_count q + Z.of_nat (length event_ids)
    ∧ (event_ids ≠ [] → stats_processed_count q' = _processed_count q').
Proof.
  destruct event_ids as [|i ids] eqn:Hids.
  - exists q. repeat split; try done.
    + intros k r _ Hin. by apply elem_of_nil in Hin.
    + simpl. lia.
  - rewrite <- Hids.
    eexists. split; [unfold mark_processed; rewrite Hids at 1; reflexivity|].
    simpl. repeat split.
    + by rewrite length_fmap.
    + intros k r Hk Hin. eexists. split.
      * rewrite list_lookup_fmap, Hk. simpl. reflexivity.
      * unfold set_processed. by rewrite decide_True.
    + intros k r Hk Hnot. rewrite list_lookup_fmap, Hk. simpl.
      unfold set_processed. by rewrite decide_False.
Qed.

End EventQueueTerminal.

Module EventQueueCount.
Import Py EventQueue EventQueueSequences.

(** C4, as stated, fails: [mark_processed] adds the length of its
    argument to the counter whether or not the ids name pending
    records, and [mark_failed] takes a processed record out of that
    status without touching the counter. *)
Lemma processed_count_drifts :
  (let q := after [MarkProcessed [7] "2026-01-05T14:00:05"] new_queue in
   total_processed (get_queue_stats q) = 1
   ∧ processed (get_queue_stats q) = 0)
  ∧ (let q := after [Enqueue sample_event "2026-01-05 08:30:00";
                     MarkProcessed [1; 1] "2026-01-05T14:00:05"] new_queue in
     total_processed (get_queue_stats q) = 2
     ∧ processed (get_queue_stats q) = 1)
  ∧ (let q := after [Enqueue sample_event "2026-01-05 08:30:00";
                     MarkProcessed [1] "2026-01-05T14:00:05";
                     MarkFailed [1]] new_queue in
     total_processed (get_queue_stats q) = 1
     ∧ processed (get_queue_stats q) = 0).
Proof. repeat split; reflexivity. Qed.

Lemma set_processed_listed ids now r :
  row_id r ∈ ids → status (set_processed ids now r) = Processed.
Proof. intros. unfold set_processed. by rewrite decide_True. Qed.

Lemma set_processed_other ids now r :
  row_id r ∉ ids → set_processed ids now r = r.
Proof. intros. unfold set_processed. by rewrite decide_False. Qed.

Lemma bump_retry_listed ids r :
  row_id r ∈ ids → status (bump_retry ids r) ≠ Processed.
Proof.
  intros. unfold bump_retry. rewrite decide_True by done. simpl.
  by destruct (4 <=? retry_count r).
Qed.

Lemma bump_retry_other ids r : row_id r ∉ ids → bump_retry ids r = r.
Proof. intros. unfold bump_retry. by rewrite decide_False. Qed.

Lemma processed_after_set_processed ids now (l : list row) :
  (∀ r, r ∈ l → row_id r ∈ ids → status r ≠ Processed) →
  length (filter (λ r, status r = Processed) (set_processed ids now <$> l))
  = (length (filter (λ r, status r = Processed) l)
     + length (filter (λ r, row_id r ∈ ids) l))%nat.
Proof.
  induction l as [|x l IH]; intros Hl; [done|].
  assert (∀ r, r ∈ l → row_id r ∈ ids → status r ≠ Processed) as Hl'
    by (intros r Hr; apply Hl; by right).
  specialize (IH Hl'). csimpl.
  rewrite (filter_cons (λ r, row_id r ∈ ids)).
  rewrite (filter_cons (λ r, status r = Processed) _ l).
  rewrite filter_cons.
  destruct (decide (row_id x ∈ ids)) as [Hin|Hnot].
  - assert (status x ≠ Processed) by (apply Hl; [by left|done]).
    rewrite decide_True by (by apply set_processed_listed).
    rewrite (decide_False (P := status x = Processed)) by done.
    simpl. rewrite IH. lia.
  - rewrite set_processed_other by done.
    destruct (decide (status x = Processed)); simpl; rewrite IH; lia.
Qed.

Lemma processed_after_bump_retry ids (l : list row) :
  (∀ r, r ∈ l → row_id r ∈ ids → status r ≠ Processed) →
  length (filter (λ r, status r = Processed) (bump_retry ids <$> l))
  = length (filter (λ r, status r = Processed) l).
Proof.
  induction l as [|x l IH]; intros Hl; [done|].
  assert (∀ r, r ∈ l → row_id r ∈ ids → status r ≠ Processed) as Hl'
    by (intros r Hr; apply Hl; by right).
  specialize (IH Hl'). csimpl.
  rewrite (filter_cons (λ r, status r = Processed) _ l).
  rewrite filter_cons.
  destruct (decide (row_id x ∈ ids)) as [Hin|Hnot].
  - assert (status x ≠ Processed) by (apply Hl; [by left|done]).
    rewrite (decide_False (P := status x = Processed)) by done.
    rewrite decide_False by (by apply bump_retry_listed).
    done.
  - rewrite bump_retry_other by done.
    destruct (decide (status x = Processed)); simpl; by rewrite IH.
Qed.

Lemma listed_rows_counted ids (l : list row) :
  NoDup (row_id <$> l) → NoDup ids →
  (∀ i, i ∈ ids → i ∈ row_id <$> l) →
  length (filter (λ r, row_id r ∈ ids) l) = length ids.
Proof.
  intros Hl Hids Hsub.
  rewrite <- (length_fmap row_id).
  apply Permutation_length, NoDup_Permutation; [|done|].
  - eapply sublist_NoDup; [exact Hl|].
    apply fmap_sublist, sublist_filter.
  - intros i. split.
    + intros (r & -> & Hr)%list_elem_of_fmap.
      by apply list_elem_of_filter in Hr as [? _].
    + intros Hi. pose proof (Hsub i Hi) as (r & -> & Hr)%list_elem_of_fmap.
      apply list_elem_of_fmap_2. by apply list_elem_of_filter.
Qed.

Lemma pending_id_not_processed q (r : row) :
  well_formed q → r ∈ events q → row_id r ∈ ids_with Pending q →
  status r ≠ Processed.
Proof.
  intros [Hnd _] Hr (r' & Hid & Hr')%list_elem_of_fmap.
  apply list_elem_of_filter in Hr' as [Hst Hr'].
  assert (r = r') as -> by (eapply same_id_same_row; eauto).
  by rewrite Hst.
Qed.

Lemma coherent_call o q :
  well_formed q → drain_call o q → coherent q → coherent (snd (call o q)).
Proof.
  intros Hwf Hcall [Hq Hstats]. unfold coherent, count_status in *.
  destruct o as [e now|ids now|ids|cutoff]; simpl in *.
  - by rewrite filter_app, length_app, Nat.add_0_r.
  - destruct (decide (ids = [])) as [->|Hne]; [done|].
    rewrite mark_processed_state by done.
    destruct Hcall as [Hnd Hpend]. rewrite Forall_forall in Hpend.
    simpl. split; [|done]. rewrite processed_after_set_processed.
    + rewrite listed_rows_counted; [lia|apply Hwf|done|].
      intros j Hj. specialize (Hpend j Hj).
      apply list_elem_of_fmap in Hpend as (r & -> & Hr).
      apply list_elem_of_fmap_2.
      by apply list_elem_of_filter in Hr as [_ ?].
    + intros r Hr Hin. eapply pending_id_not_processed; eauto.
  - destruct (decide (ids = [])) as [->|Hne]; [done|].
    rewrite mark_failed_state by done.
    rewrite Forall_forall in Hcall.
    simpl. split; [|done]. rewrite processed_after_bump_retry; [done|].
    intros r Hr Hin Hst. apply (Hcall _ Hin).
    apply list_elem_of_fmap_2. by apply list_elem_of_filter.
  - done.
Qed.

Lemma coherent_after os : ∀ q,
  well_formed q → drain_calls os q → coherent q → coherent (after os q).
Proof.
  induction os as [|o os IH]; intros q Hwf Hos Hq; [done|].
  destruct Hos as [Ho Hos]. rewrite after_cons.
  apply IH; [by apply well_formed_call|done|by apply coherent_call].
Qed.

(** C4 (amended): after any sequence of [enqueue], [mark_processed] and
    [mark_failed] calls on a new queue, without [cleanup_old], in which
    every [mark_processed] is given distinct ids of records that are
    pending at that moment and no [mark_failed] is given the id of a
    processed record, the [total_processed] of the queue statistics,
    and with it the [processed_count] row of table [stats], equals the
    number of records whose status is processed. *)
Theorem processed_count_matches_drained_records (os : list op) :
  drain_calls os new_queue →
  total_processed (get_queue_stats (after os new_queue))
  = processed (get_queue_stats (after os new_queue))
  ∧ stats_processed_count (after os new_queue)
    = processed (get_queue_stats (after os new_queue)).
Proof.
  intros Hos.
  destruct (coherent_after os new_queue) as [Hmem Hstats];
    [apply well_formed_new|done|done|].
  simpl. split; [done|]. by rewrite Hstats.
Qed.

Lemma processed_count_matches_drained_records_witness :
  drain_calls drained_sample new_queue
  ∧ total_processed (get_queue_stats (after drained_sample new_queue))
    = processed (get_queue_stats (after drained_sample new_queue))
  ∧ stats_processed_count (after drained_sample new_queue)
    = processed (get_queue_stats (after drained_sample new_queue)).
Proof.
  assert (drain_calls drained_sample new_queue) as Hos.
  { simpl. split; [done|]. split; [done|]. split.
    - split; [apply NoDup_singleton|].
      repeat constructor.
    - split; [|done]. repeat constructor.
      vm_compute. intros H. apply list_elem_of_singleton in H. discriminate. }
  split; [exact Hos|].
  exact (processed_count_matches_drained_records drained_sample Hos).
Defined.

End EventQueueCount.
(** ** The cloud client *)

Module ApiClientFacts.
Import Py ApiClient.

Lemma login_returns w c : ∃ b c', login w c = (Ret b, c').
Proof.
  unfold login, try_except, bind, lift, ret.
  destruct (login_post w) as [resp|e]; [|by eauto].
  destruct (decide (resp_status resp = 200)).
  - destruct (resp_json resp) as [data|e']; [|by eauto].
    simpl. destruct (ld_expiresAt data); simpl; by eauto.
  - destruct (resp_text resp); by eauto.
Qed.

Lemma ensure_authenticated_returns w c :
  ∃ c', _ensure_authenticated w c = (Ret tt, c').
Proof.
  unfold _ensure_authenticated.
  destruct (no_token c || _); [|by eauto].
  unfold bind. destruct (login_returns w c) as (b & c' & ->).
  by eauto.
Qed.

(** C7: for every list of events, [submit_events] returns a result.
    The result is [{processed: 0, failed: len(events)}] whenever the
    POST raises a transport error or the response status is not 200
    (and also when a response with status 200 has a body that is not
    JSON); when the response has status 200, the result is its JSON
    body.  So a result other than the all-failed one is the body of a
    response with status 200. *)
Theorem submit_events_reports_all_failed
    (w : world) (events : list EventQueue.pending_event)
    (c : ParikShanAPIClient) :
  ∃ result,
    fst (submit_events w events c) = Ret result
    ∧ (∀ e, events_post w = Raise e → result = all_failed events)
    ∧ (∀ resp, events_post w = Ret resp → resp_status resp ≠ 200 →
         result = all_failed events)
    ∧ (∀ resp body, events_post w = Ret resp → resp_status resp = 200 →
         resp_json resp = Ret body → result = body)
    ∧ (∀ resp e, events_post w = Ret resp → resp_status resp = 200 →
         resp_json resp = Raise e → result = all_failed events)
    ∧ (result = all_failed events
       ∨ ∃ resp, events_post w = Ret resp ∧ resp_status resp = 200
                 ∧ resp_json resp = Ret result).
Proof.
  unfold submit_events, bind at 1.
  destruct (ensure_authenticated_returns w c) as (c' & ->).
  unfold try_except, bind, lift, ret.
  destruct (events_post w) as [resp|e] eqn:Hpost.
  - destruct (decide (resp_status resp = 200)) as [H200|H200].
    + destruct (resp_json resp) as [body|e'] eqn:Hjson; simpl.
      * exists body. repeat split; try done.
        -- intros resp' [= <-] ?. done.
        -- intros resp' body' [= <-] _ Hbody. congruence.
        -- intros resp' e' [= <-] _ Hbody. congruence.
        -- right. by exists resp.
      * exists (all_failed events). repeat split; try done.
        -- intros resp' body' [= <-] _ Hbody. congruence.
        -- by left.
    + destruct (resp_text resp); simpl;
        exists (all_failed events); repeat split; try done;
        try (by left); by intros resp' ? [= <-] ?.
  - simpl. exists (all_failed events). repeat split; try done. by left.
Qed.

Lemma submit_events_reports_all_failed_witness :
  fst (submit_events server_error EventQueue.sample_batch logged_in)
  = Ret {[ "processed" := 0; "failed" := 2 ]}
  ∧ fst (submit_events connection_lost EventQueue.sample_batch logged_in)
    = Ret {[ "processed" := 0; "failed" := 2 ]}
  ∧ fst (submit_events accepts_one EventQueue.sample_batch logged_in)
    = Ret {[ "processed" := 1; "failed" := 1 ]}.
Proof.
  split; [|split].
  - destruct (submit_events_reports_all_failed server_error
                EventQueue.sample_batch logged_in)
      as (result & -> & _ & H500 & _).
    f_equal. by apply (H500 _ eq_refl).
  - destruct (submit_events_reports_all_failed connection_lost
                EventQueue.sample_batch logged_in)
      as (result & -> & Herr & _).
    f_equal. by apply (Herr _ eq_refl).
  - destruct (submit_events_reports_all_failed accepts_one
                EventQueue.sample_batch logged_in)
      as (result & -> & _ & _ & H200 & _).
    f_equal. by apply (H200 _ _ eq_refl eq_refl eq_refl).
Defined.

End ApiClientFacts.

(** ** The drain loop *)

Module EdgeAgentFacts.
Import Py EventQueue ApiClient EdgeAgent.

(** C1 (the code departs from it): the drain turn calls
    [mark_processed] on the accepted prefix and nothing else.  With two
    pending events and the answer [{processed: 1, failed: 1}] the first
    becomes processed, and the second keeps retry count 0; with the
    answer 500, which [submit_events] turns into
    [{processed: 0, failed: 2}], both keep retry count 0. *)
Theorem event_sync_turn_never_marks_failed :
  delivery_state two_queued = [(1, Pending, 0); (2, Pending, 0)]
  ∧ delivery_state (snd (event_sync_turn accepts_one "2026-01-05T14:00:05" two_queued))
    = [(1, Processed, 0); (2, Pending, 0)]
  ∧ delivery_state (snd (event_sync_turn server_error "2026-01-05T14:00:05" two_queued))
    = [(1, Pending, 0); (2, Pending, 0)].
Proof. repeat split; reflexivity. Qed.

Lemma set_processed_retry_count ids now r :
  retry_count (set_processed ids now r) = retry_count r.
Proof. unfold set_processed. by case_decide. Qed.

(** No drain turn, whatever the cloud answers, changes a retry count. *)
Lemma event_sync_turn_keeps_retry_counts w now a :
  retry_count <$> events (event_queue (snd (event_sync_turn w now a)))
  = retry_count <$> events (event_queue a).
Proof.
  unfold event_sync_turn, try_except, bind at 1.
  unfold on_queue at 1, get_pending. simpl.
  destruct (pending_of_row <$> select_pending 50 (event_queue a)) as [|e evs];
    [done|].
  unfold bind at 1, on_client. cbn [api_client event_queue].
  destruct (submit_events w (e :: evs) (api_client a)) as [[result|err] c'];
    simpl; [|done].
  unfold bind, getitem.
  destruct (result !! "processed") as [n|]; simpl; [|done].
  destruct (0 <? n); simpl; [|done].
  unfold on_queue.
  destruct (fmap pe_id (slice_to (e :: evs) n)) as [|i ids] eqn:Hids; simpl;
    [done|].
  rewrite <- list_fmap_compose. apply list_fmap_ext.
  intros k r _. simpl. apply set_processed_retry_count.
Qed.

Lemma event_sync_turn_returns w now a :
  fst (event_sync_turn w now a) = Ret tt.
Proof.
  unfold event_sync_turn, try_except.
  match goal with
  | |- context [match ?m a with _ => _ end] => destruct (m a) as [[[]|e] a']
  end; done.
Qed.

(** Nor does the whole loop: a record never gets nearer to the retry
    limit. *)
Lemma event_sync_loop_keeps_retry_counts turns : ∀ a,
  retry_count <$> events (event_queue (snd (_event_sync_loop turns a)))
  = retry_count <$> events (event_queue a).
Proof.
  induction turns as [|[w now] turns IH]; intros a; simpl; [done|].
  unfold bind.
  pose proof (event_sync_turn_returns w now a) as Hret.
  pose proof (event_sync_turn_keeps_retry_counts w now a) as Hkeep.
  destruct (event_sync_turn w now a) as [[[]|e] a']; simpl in *;
    [|discriminate].
  by rewrite IH.
Qed.

End EdgeAgentFacts.
(** ** The stream supervisor *)

Module StreamFacts.
Import RTSPStreamManager.

Lemma ladder_next k : Z.min (ladder k * 2) 60 = ladder (S k).
Proof.
  unfold ladder. rewrite Nat2Z.inj_succ, Z.pow_succ_r by lia.
  assert (0 < 2 ^ Z.of_nat k) by (apply Z.pow_pos_nonneg; lia).
  lia.
Qed.

Lemma ladder_top k : (4 ≤ k)%nat → ladder k = 60.
Proof.
  intros Hk. unfold ladder.
  assert (2 ^ 4 ≤ 2 ^ Z.of_nat k) by (apply Z.pow_le_mono_r; lia).
  change (2 ^ 4) with 16 in *. lia.
Qed.

Lemma failed_connects_from ios : ∀ k s,
  is_connected s = false → reconnect_delay s = ladder k →
  Forall (λ io, connect_ok io = false) ios →
  _stream_loop ios s
  = (Backoff <$> (ladder <$> seq k (length ios)),
     {| reconnect_delay := ladder (k + length ios); is_connected := false |}).
Proof.
  induction ios as [|io ios IH]; intros k s Hs Hd Hios.
  - simpl. rewrite Nat.add_0_r, <- Hd. by destruct s; simpl in *; subst.
  - apply Forall_cons in Hios as [Hio Hios].
    simpl. unfold stream_turn. rewrite Hs, Hio, Hd, ladder_next.
    rewrite (IH (S k)); [|done|done|done].
    by rewrite Nat.add_succ_r.
Qed.

Lemma frame_turn_delay io d : reconnect_delay (fst (frame_turn io d)) = d.
Proof. unfold frame_turn. by destruct (frame_raises io). Qed.

(** While the stream counts as connected the delay is the base delay. *)
Lemma stream_turn_connected_base io s :
  (is_connected s = true → reconnect_delay s = 5) →
  is_connected (fst (stream_turn io s)) = true →
  reconnect_delay (fst (stream_turn io s)) = 5.
Proof.
  unfold stream_turn. intros Hs.
  destruct (is_connected s).
  - rewrite frame_turn_delay. auto.
  - destruct (connect_ok io); [by rewrite frame_turn_delay|done].
Qed.

Lemma stream_loop_connected_base ios : ∀ s,
  (is_connected s = true → reconnect_delay s = 5) →
  is_connected (snd (_stream_loop ios s)) = true →
  reconnect_delay (snd (_stream_loop ios s)) = 5.
Proof.
  induction ios as [|io ios IH]; intros s Hs; simpl; [done|].
  pose proof (stream_turn_connected_base io s Hs) as Hturn.
  destruct (stream_turn io s) as [s' w]. simpl in Hturn.
  specialize (IH s' Hturn).
  by destruct (_stream_loop ios s') as [ws s''].
Qed.

(** C9: the ladder is 5, 10, 20, 40 and 60 from then on (it starts at
    5, doubles, and is capped at 60); a run of consecutive failed
    connects that starts with delay 5 waits along the ladder; a
    successful connect sets the delay to 5; and in every stream task,
    the failed connects that follow a turn in which the stream was or
    became connected and lost the connection wait along the ladder. *)
Theorem reconnect_waits_follow_ladder :
  (ladder 0 = 5 ∧ ladder 1 = 10 ∧ ladder 2 = 20 ∧ ladder 3 = 40
   ∧ (∀ k, (4 ≤ k)%nat → ladder k = 60)
   ∧ (∀ k, ladder (S k) = Z.min (ladder k * 2) 60))
  ∧ (∀ s fails,
       is_connected s = false → reconnect_delay s = 5 →
       Forall (λ io, connect_ok io = false) fails →
       fst (_stream_loop fails s)
       = Backoff <$> (ladder <$> seq 0 (length fails)))
  ∧ (∀ s io,
       is_connected s = false → connect_ok io = true →
       reconnect_delay (fst (stream_turn io s)) = 5)
  ∧ (∀ pre io fails,
       let s0 := snd (_stream_loop pre task_start) in
       let s := fst (stream_turn io s0) in
       is_connected s0 = true ∨ connect_ok io = true →
       is_connected s = false →
       Forall (λ io, connect_ok io = false) fails →
       fst (_stream_loop fails s)
       = Backoff <$> (ladder <$> seq 0 (length fails))).
Proof.
  split; [|split; [|split]].
  - repeat split; try reflexivity.
    + apply ladder_top.
    + intros k. by rewrite ladder_next.
  - intros s fails Hs Hd Hfails.
    by rewrite (failed_connects_from fails 0 s).
  - intros s io Hs Hio. unfold stream_turn. rewrite Hs, Hio.
    apply frame_turn_delay.
  - intros pre io fails s0 s Hturn Hs Hfails.
    rewrite (failed_connects_from fails 0 s); [done|done| |done].
    assert (is_connected s0 = true → reconnect_delay s0 = 5) as Hbase
      by (by apply stream_loop_connected_base).
    subst s. unfold stream_turn in *.
    destruct (is_connected s0).
    + rewrite frame_turn_delay. auto.
    + destruct Hturn as [?|Hio]; [done|].
      rewrite Hio in *. by rewrite frame_turn_delay.
Qed.

Lemma reconnect_waits_follow_ladder_witness :
  fst (_stream_loop (repeat connect_fails 6)
         {| reconnect_delay := 5; is_connected := false |})
  = [Backoff 5; Backoff 10; Backoff 20; Backoff 40; Backoff 60; Backoff 60].
Proof.
  destruct reconnect_waits_follow_ladder as (_ & Hrun & _).
  rewrite (Hrun _ (repeat connect_fails 6)); [reflexivity|done|done|].
  repeat constructor.
Defined.

End StreamFacts.
(** ** The configuration merge *)

Module ConfigFacts.
Import Py Config.

Lemma same_but_cameras_refl c : same_but_cameras c c.
Proof. by repeat split. Qed.

Lemma same_but_cameras_trans c1 c2 c3 :
  same_but_cameras c1 c2 → same_but_cameras c2 c3 → same_but_cameras c1 c3.
Proof.
  unfold same_but_cameras. intros H1 H2.
  destruct H1 as (?&?&?&?&?&?&?&?), H2 as (?&?&?&?&?&?&?&?).
  repeat split; congruence.
Qed.

Lemma find_nvr_none i l :
  (∀ nvr, nvr ∈ l → Some (nvr_id nvr) ≠ i) → find_nvr i l = None.
Proof.
  induction l as [|x l IH]; intros Hl; simpl; [done|].
  rewrite decide_False by (apply Hl; by left).
  apply IH. intros nvr Hnvr. apply Hl. by right.
Qed.

Lemma find_nvr_some i l nvr : find_nvr i l = Some nvr → nvr ∈ l.
Proof.
  induction l as [|x l IH]; simpl; [done|].
  case_decide; [intros [= ->]; by left|].
  intros Hrest. right. by apply IH.
Qed.

Section WithFormat.
Variable str_format : string → gmap string string → res string.

(** The camera loop touches the camera list only, also when it is
    cut short by an exception. *)
Lemma load_camera_frame cam c r c' :
  load_camera str_format cam c = (r, c') → same_but_cameras c c'.
Proof.
  unfold load_camera, bind, _build_nvr_rtsp_url, lift, ret,
    append_camera, set_cameras.
  destruct (bool_decide _ && truthy_id _).
  - destruct (find_nvr _ _) as [nvr|].
    + destruct (str_format _ _); intros [= <- <-]; by repeat split.
    + intros [= <- <-]; by repeat split.
  - intros [= <- <-]; by repeat split.
Qed.

Lemma load_cameras_frame cams : ∀ c r c',
  load_cameras str_format cams c = (r, c') → same_but_cameras c c'.
Proof.
  induction cams as [|cam cams IH]; intros c r c'; simpl.
  - intros [= <- <-]. apply same_but_cameras_refl.
  - unfold bind.
    destruct (load_camera str_format cam c) as [[[]|e] c1] eqn:Hcam.
    + intros Hrest. eapply same_but_cameras_trans.
      * by eapply load_camera_frame.
      * by eapply IH.
    + intros [= <- <-]. by eapply load_camera_frame.
Qed.

(** With templates that format, a camera entry is always stored; one
    without URL and without a known NVR is stored with the empty
    URL. *)
Lemma load_camera_stores cam c :
  templates_format str_format (nvrs c) →
  ∃ (url : string) c',
    load_camera str_format cam c = (Ret tt, c')
    ∧ cameras c' = (cameras c ++ [camera_of_entry cam url])%list
    ∧ (default "" (rtspUrl cam) = "" →
       (∀ nvr, nvr ∈ nvrs c → Some (nvr_id nvr) ≠ nvrId cam) →
       url = "").
Proof.
  intros Hfmt.
  unfold load_camera, bind, _build_nvr_rtsp_url, lift, ret,
    append_camera, set_cameras.
  destruct (bool_decide (default "" (rtspUrl cam) = "") && truthy_id (nvrId cam))
    eqn:Hcond.
  - destruct (find_nvr (nvrId cam) (nvrs c)) as [nvr|] eqn:Hfind.
    + destruct (Hfmt nvr (default 1 (channelNumber cam))
                  (find_nvr_some _ _ _ Hfind)) as [url ->].
      eexists url, _. repeat split.
      intros _ Hnone. by rewrite (find_nvr_none _ _ Hnone) in Hfind.
    + eexists "", _. by repeat split.
  - eexists _, _. repeat split. by intros ->.
Qed.

Lemma load_cameras_stores cams : ∀ c,
  templates_format str_format (nvrs c) →
  ∃ c' added,
    load_cameras str_format cams c = (Ret tt, c')
    ∧ cameras c' = (cameras c ++ added)%list
    ∧ length added = length cams
    ∧ ∀ cam, cam ∈ cams →
        default "" (rtspUrl cam) = "" →
        (∀ nvr, nvr ∈ nvrs c → Some (nvr_id nvr) ≠ nvrId cam) →
        camera_of_entry cam "" ∈ added.
Proof.
  induction cams as [|cam cams IH]; intros c Hfmt; simpl.
  - exists c, []. repeat split; [by rewrite app_nil_r|].
    intros cam Hcam. by apply elem_of_nil in Hcam.
  - unfold bind.
    destruct (load_camera_stores cam c Hfmt) as (url & c1 & Hc1 & Hcams & Hurl).
    rewrite Hc1.
    pose proof (load_camera_frame _ _ _ _ Hc1) as (_ & Hnvrs & _).
    destruct (IH c1) as (c' & added & Hc' & Hcams' & Hlen & Hin);
      [by rewrite Hnvrs|].
    exists c', (camera_of_entry cam url :: added). repeat split.
    + done.
    + rewrite Hcams', Hcams, <- app_assoc. done.
    + simpl. by rewrite Hlen.
    + intros cam' [->|Hcam']%elem_of_cons Hempty Hnone.
      * rewrite (Hurl Hempty Hnone). by left.
      * right. apply Hin; [done|done|]. by rewrite Hnvrs.
Qed.

(** The three sections after the cameras leave the camera list
    alone and always return. *)
Lemma update_from_cloud_cameras cc c r c' :
  update_from_cloud str_format cc c = (r, c') →
  ∃ r1 c1,
    match cc_cameras cc with
    | Some cams =>
        load_cameras str_format cams (snd (set_cameras [] c)) = (r1, c1)
    | None => (r1, c1) = (Ret tt, c)
    end
    ∧ cameras c' = cameras c1 ∧ r = r1.
Proof.
  unfold update_from_cloud. unfold bind at 1.
  match goal with
  | |- context [match ?m c with _ => _ end] =>
      destruct (m c) as [r1 c1] eqn:Hfirst
  end.
  intros Hrun.
  exists r1, c1. split.
  - destruct (cc_cameras cc); [done|].
    unfold ret in Hfirst. by injection Hfirst as <- <-.
  - destruct r1 as [[]|e]; [|by injection Hrun as <- <-].
    unfold bind, ret, set_nvrs, set_face_encodings, set_school_config in Hrun.
    destruct (cc_nvrs cc), (cc_faceEncodings cc), (cc_schoolConfig cc);
      by injection Hrun as <- <-.
Qed.

Lemma update_from_cloud_sections cc c c' :
  update_from_cloud str_format cc c = (Ret tt, c') →
  sections_merged cc c c'.
Proof.
  unfold update_from_cloud. unfold bind at 1.
  match goal with
  | |- context [match ?m c with _ => _ end] =>
      destruct (m c) as [r1 c1] eqn:Hfirst
  end.
  assert (same_but_cameras c c1) as (Hst & Hn & Hf & Hs & Hfd & Hdd & Hft & Hdt).
  { destruct (cc_cameras cc) as [cams|].
    - apply load_cameras_frame in Hfirst.
      destruct Hfirst as (?&?&?&?&?&?&?&?). by repeat split.
    - unfold ret in Hfirst. injection Hfirst as <- <-.
      apply same_but_cameras_refl. }
  destruct r1 as [[]|e]; [|done].
  unfold sections_merged, bind, ret, set_nvrs, set_face_encodings,
    set_school_config.
  destruct (cc_nvrs cc), (cc_faceEncodings cc), (cc_schoolConfig cc);
    intros [= <-]; simpl; by repeat split.
Qed.

(** Applying a document a second time changes nothing but, possibly,
    the camera list; the thresholds are each time the percentages of
    the document divided by 100 once. *)
Lemma update_from_cloud_twice_same_but_cameras cc c c1 c2 :
  update_from_cloud str_format cc c = (Ret tt, c1) →
  update_from_cloud str_format cc c1 = (Ret tt, c2) →
  same_but_cameras c1 c2.
Proof.
  intros (H1&H2&H3&H4&H5&H6&H7&H8)%update_from_cloud_sections
         (K1&K2&K3&K4&K5&K6&K7&K8)%update_from_cloud_sections.
  unfold same_but_cameras.
  destruct (cc_nvrs cc), (cc_faceEncodings cc), (cc_schoolConfig cc);
    simpl in *; repeat split; congruence.
Qed.

Lemma thresholds_divided_once cc sc c c1 c2 (n m : Z) :
  cc_schoolConfig cc = Some sc →
  attendanceConfidenceThreshold sc = Some n →
  fightConfidenceThreshold sc = Some m →
  update_from_cloud str_format cc c = (Ret tt, c1) →
  update_from_cloud str_format cc c1 = (Ret tt, c2) →
  face_confidence_threshold c1 = percent n
  ∧ face_confidence_threshold c2 = percent n
  ∧ discipline_confidence_threshold c1 = percent m
  ∧ discipline_confidence_threshold c2 = percent m.
Proof.
  intros Hsc Hn Hm
         (_&_&_&_&_&_&H7&H8)%update_from_cloud_sections
         (_&_&_&_&_&_&K7&K8)%update_from_cloud_sections.
  rewrite Hsc in *. simpl in *. rewrite Hn in *. rewrite Hm in *.
  done.
Qed.

Lemma inactive_without_url cam c :
  rtsp_url cam = "" → cam ∉ get_active_cameras c.
Proof.
  intros Hurl Hin. unfold get_active_cameras in Hin.
  apply list_elem_of_filter in Hin as [[_ Hne] _]. done.
Qed.

End WithFormat.

(** C8 (the code departs from it): the cameras are resolved against
    the NVR list of the configuration as it is before the update, and
    the NVRs of the document are stored after the cameras.  Applied to
    a new configuration, the document [first_sync] leaves its camera
    without URL; applied once more, it gives that camera the URL built
    from the NVR of the same document.  The two configurations
    differ. *)
Theorem update_from_cloud_twice_differs :
  ∃ c1 c2,
    update_from_cloud format first_sync (init ∅) = (Ret tt, c1)
    ∧ update_from_cloud format first_sync c1 = (Ret tt, c2)
    ∧ rtsp_url <$> cameras c1 = [""]
    ∧ rtsp_url <$> cameras c2
      = ["rtsp://admin:pw@10.0.0.5:554/cam/realmonitor?channel=2&subtype=0"]
    ∧ get_active_cameras c1 = []
    ∧ length (get_active_cameras c2) = 1%nat
    ∧ c1 ≠ c2.
Proof.
  eexists _, _.
  split; [vm_compute; reflexivity|].
  split; [vm_compute; reflexivity|].
  split; [reflexivity|]. split; [reflexivity|].
  split; [reflexivity|]. split; [reflexivity|].
  intros Heq. apply (f_equal (λ c, rtsp_url <$> cameras c)) in Heq.
  discriminate Heq.
Qed.

End ConfigFacts.

(** ** The event queue: identifiers, order and clean-up *)

Module QueueHistoryFacts.
Import Py EventQueue EventQueueSequences QueueHistory.

Lemma sequence_grows_call o q :
  sqlite_sequence q ≤ sqlite_sequence (snd (call o q)).
Proof.
  destruct o as [e now|ids now|ids|cutoff]; simpl; try done.
  - lia.
  - by destruct ids.
  - by destruct ids.
Qed.

Lemma sequence_grows os : ∀ q, sqlite_sequence q ≤ sqlite_sequence (after os q).
Proof.
  induction os as [|o os IH]; intros q; [done|].
  rewrite after_cons. etrans; [apply sequence_grows_call|apply IH].
Qed.

(** X1: with AUTOINCREMENT an id is never handed out twice.  Whatever
    calls come in between, also [cleanup_old] deleting records, the id
    that [enqueue] returns is larger than the id of every record the
    queue has held before, and of every record it holds now. *)
Theorem enqueue_never_reuses_an_id
    (q : EventQueue) (os : list op) (event : Event) (now : string) (r : row) :
  well_formed q → r ∈ events q →
  ∃ i q',
    enqueue event now (after os q) = (Ret i, q')
    ∧ row_id r < i
    ∧ (∀ r', r' ∈ events (after os q) → row_id r' < i)
    ∧ sqlite_sequence q' = i
    ∧ well_formed q'.
Proof.
  intros Hwf Hr.
  pose proof (well_formed_after os q Hwf) as Hwf'.
  eexists _, _. split; [reflexivity|]. simpl.
  pose proof (sequence_grows os q) as Hseq.
  destruct Hwf as [_ Hle]. rewrite Forall_forall in Hle.
  specialize (Hle r Hr).
  repeat split.
  - lia.
  - intros r' Hr'%max_rowid_bound. lia.
  - apply (well_formed_call (Enqueue event now) _ Hwf').
  - apply (well_formed_call (Enqueue event now) _ Hwf').
Qed.

Lemma enqueue_never_reuses_an_id_witness :
  ∃ r, events one_processed !! 0%nat = Some r ∧ row_id r = 1
       ∧ ∃ i q',
           enqueue sample_event "2026-02-01 09:00:00"
             (after [CleanupOld "2026-01-06 00:00:00"] one_processed)
           = (Ret i, q')
           ∧ events (after [CleanupOld "2026-01-06 00:00:00"] one_processed) = []
           ∧ 1 < i.
Proof.
  eexists. split; [reflexivity|]. split; [reflexivity|].
  assert (well_formed one_processed) as Hwf.
  { split; vm_compute; [apply NoDup_singleton|].
    repeat constructor. discriminate. }
  destruct (enqueue_never_reuses_an_id one_processed
              [CleanupOld "2026-01-06 00:00:00"] sample_event
              "2026-02-01 09:00:00" _ Hwf
              (proj2 (list_elem_of_singleton _ _) eq_refl))
    as (i & q' & Hq' & Hlt & _).
  exists i, q'. split; [exact Hq'|]. split; [reflexivity|exact Hlt].
Defined.

(** The row an INSERT adds is among the rows of the SELECT that
    follows, with its id, the four fields it was given and retry count
    0, provided the limit is large enough to hold every pending record
    (or negative, which SQLite reads as no limit). *)
Lemma inserted_row_is_selected
    (q : EventQueue) (event : Event) (now : string) (batch_size : Z) :
  batch_size < 0
  ∨ Z.of_nat (length (filter eligible (events q))) < batch_size →
  ∃ i q' evs,
    enqueue event now q = (Ret i, q')
    ∧ get_pending batch_size q' = (Ret evs, q')
    ∧ pending_of_event i event ∈ evs.
Proof.
  intros Hb. eexists _, _, _. split; [reflexivity|]. split; [reflexivity|].
  set (i := Z.max (sqlite_sequence q) (max_rowid (events q)) + 1).
  change (pending_of_event i event)
    with (pending_of_row (insert_row event now i)).
  apply list_elem_of_fmap_2.
  unfold select_pending. simpl.
  set (sorted := order_by_created_at _).
  assert (insert_row event now i ∈ sorted) as Hin.
  { unfold sorted. rewrite EventQueueFacts.order_by_created_at_perm.
    apply list_elem_of_filter. split.
    - split; simpl; [done|lia].
    - apply elem_of_app. right. by apply list_elem_of_singleton. }
  unfold limit. destruct (Z.ltb_spec batch_size 0); [done|].
  rewrite take_ge; [done|].
  unfold sorted. rewrite EventQueueFacts.order_by_created_at_perm.
  rewrite filter_app, length_app.
  assert (length (filter eligible [insert_row event now i]) ≤ 1)%nat
    by (rewrite filter_cons; case_decide; simpl; lia).
  lia.
Qed.

Lemma strictly_older_older a b : strictly_older a b → older a b.
Proof.
  unfold strictly_older, older, String.ltb, String.leb.
  by destruct (String.compare _ _).
Qed.

Lemma insert_before_all r l :
  Forall (older r) l → insert_by_created_at r l = r :: l.
Proof.
  destruct 1 as [|x l Hx _]; simpl; [done|].
  unfold older in Hx. by rewrite Hx.
Qed.

Lemma order_by_created_at_sorted_input l :
  StronglySorted older l → order_by_created_at l = l.
Proof.
  induction 1 as [|x l Hl IH Hx]; simpl; [done|].
  rewrite IH. by apply insert_before_all.
Qed.

Lemma filter_strongly_sorted (R : relation row) (P : row → Prop)
    `{∀ x, Decision (P x)} l :
  StronglySorted R l → StronglySorted R (filter P l).
Proof.
  induction 1 as [|x l Hl IH Hx]; [constructor|].
  rewrite filter_cons. case_decide; [|done].
  constructor; [done|].
  apply Forall_forall. intros y [_ Hy]%list_elem_of_filter.
  rewrite Forall_forall in Hx. by apply Hx.
Qed.

Lemma strongly_sorted_weaken (R R' : relation row) l :
  (∀ a b, R a b → R' a b) → StronglySorted R l → StronglySorted R' l.
Proof.
  intros HR. induction 1 as [|x l Hl IH Hx]; constructor; [done|].
  eapply Forall_impl; [exact Hx|]. auto.
Qed.

(** When the records were created at strictly increasing times, the
    SELECT gives the pending records with retry count below 5 in the
    order of their insertion, cut at the limit. *)
Lemma select_in_insertion_order (q : EventQueue) (batch_size : Z) :
  StronglySorted strictly_older (events q) →
  get_pending batch_size q
  = (Ret (pending_of_row <$> limit batch_size (filter eligible (events q))), q).
Proof.
  intros Hs. unfold get_pending, select_pending.
  rewrite order_by_created_at_sorted_input; [done|].
  apply filter_strongly_sorted.
  eapply strongly_sorted_weaken; [|exact Hs].
  intros a b. apply strictly_older_older.
Qed.

End QueueHistoryFacts.

Module QueueCleanupFacts.
Import Py EventQueue EventQueueSequences QueueHistory.

Lemma filter_filter_implied (P Q : row → Prop)
    `{∀ x, Decision (P x)} `{∀ x, Decision (Q x)} (l : list row) :
  (∀ r, P r → Q r) → filter P (filter Q l) = filter P l.
Proof.
  intros HPQ. induction l as [|x l IH]; [done|].
  rewrite (filter_cons Q). rewrite (filter_cons P x l).
  destruct (decide (Q x)) as [HQ|HQ].
  - rewrite filter_cons. by rewrite IH.
  - rewrite IH. rewrite decide_False; [done|]. intros HP. by apply HQ, HPQ.
Qed.

Lemma filter_filter_same (P : row → Prop) `{∀ x, Decision (P x)}
    (l : list row) :
  filter P (filter P l) = filter P l.
Proof. by apply filter_filter_implied. Qed.

Lemma filter_filter_shorter (P Q : row → Prop)
    `{∀ x, Decision (P x)} `{∀ x, Decision (Q x)} (l : list row) :
  (length (filter P (filter Q l)) ≤ length (filter P l))%nat.
Proof.
  induction l as [|x l IH]; [done|].
  rewrite (filter_cons Q). rewrite (filter_cons P x l).
  destruct (decide (Q x)); [rewrite filter_cons|];
    destruct (decide (P x)); simpl; lia.
Qed.

(** X4: [cleanup_old] deletes old processed and failed records and
    nothing else.  It leaves the answer of [get_pending], the number of
    pending records and the processed counter as they are; the records
    it keeps stay in their order; afterwards no processed or failed
    record older than the cutoff is left, and a second clean-up with
    the same cutoff deletes nothing. *)
Theorem cleanup_old_only_drops_old_terminal_records
    (cutoff : string) (q : EventQueue) :
  ∃ q',
    cleanup_old cutoff q = (Ret tt, q')
    ∧ (∀ batch_size, fst (get_pending batch_size q') = fst (get_pending batch_size q))
    ∧ pending_count q' = pending_count q
    ∧ processed_count q' = processed_count q
    ∧ events q' `sublist_of` events q
    ∧ (∀ r, r ∈ events q →
         r ∈ events q'
         ↔ ¬ (terminal (status r) ∧ String.ltb (created_at r) cutoff = true))
    ∧ snd (cleanup_old cutoff q') = q'.
Proof.
  eexists. split; [reflexivity|]. simpl. repeat split.
  - intros b. unfold get_pending, select_pending. simpl.
    rewrite filter_filter_implied; [done|].
    intros r [Hst _] [[?|?] _]; congruence.
  - unfold pending_count, count_status. simpl.
    rewrite filter_filter_implied; [done|].
    intros r Hst [[?|?] _]; congruence.
  - apply sublist_filter.
  - by intros [Hkeep _]%list_elem_of_filter.
  - intros Hkeep. by apply list_elem_of_filter.
  - unfold cleanup_old. simpl. by rewrite filter_filter_same.
Qed.

(** X6: the three status counts of [get_queue_stats] add up to the
    number of records in the table. *)
Theorem queue_stats_partition_the_table (q : EventQueue) :
  pending (get_queue_stats q) + processed (get_queue_stats q)
  + failed (get_queue_stats q)
  = Z.of_nat (length (events q)).
Proof.
  unfold get_queue_stats, count_status. simpl.
  induction (events q) as [|r l IH]; [done|].
  rewrite !filter_cons.
  destruct (status r) eqn:Hst;
    repeat (case_decide; try discriminate; try congruence);
    simpl length; lia.
Qed.

Lemma processed_bound_call o q :
  well_formed q → drain_or_cleanup_call o q →
  count_status Processed q ≤ _processed_count q →
  count_status Processed (snd (call o q)) ≤ _processed_count (snd (call o q)).
Proof.
  intros Hwf Hcall Hq. unfold count_status in *.
  destruct o as [e now|ids now|ids|cutoff]; simpl in *.
  - rewrite filter_app, length_app, Nat.add_0_r. done.
  - destruct (decide (ids = [])) as [->|Hne]; [done|].
    rewrite mark_processed_state by done.
    destruct Hcall as [Hnd Hpend]. rewrite Forall_forall in Hpend.
    simpl. rewrite EventQueueCount.processed_after_set_processed.
    + rewrite EventQueueCount.listed_rows_counted; [lia|apply Hwf|done|].
      intros j Hj. specialize (Hpend j Hj).
      apply list_elem_of_fmap in Hpend as (r & -> & Hr).
      apply list_elem_of_fmap_2.
      by apply list_elem_of_filter in Hr as [_ ?].
    + intros r Hr Hin. eapply EventQueueCount.pending_id_not_processed; eauto.
  - destruct (decide (ids = [])) as [->|Hne]; [done|].
    rewrite mark_failed_state by done.
    rewrite Forall_forall in Hcall.
    simpl. rewrite EventQueueCount.processed_after_bump_retry; [done|].
    intros r Hr Hin Hst. apply (Hcall _ Hin).
    apply list_elem_of_fmap_2. by apply list_elem_of_filter.
  - pose proof (filter_filter_shorter (λ r, status r = Processed)
                  (λ r, ¬ old_terminal cutoff r) (events q)).
    lia.
Qed.

Lemma processed_bound_after os : ∀ q,
  well_formed q → drain_or_cleanup_calls os q →
  count_status Processed q ≤ _processed_count q →
  count_status Processed (after os q) ≤ _processed_count (after os q).
Proof.
  induction os as [|o os IH]; intros q Hwf Hos Hq; [done|].
  destruct Hos as [Ho Hos]. rewrite after_cons.
  apply IH; [by apply well_formed_call|done|by apply processed_bound_call].
Qed.

(** X5: with clean-ups in between, the processed counter is an upper
    bound.  After any sequence of [enqueue], [cleanup_old] and
    drain-loop calls ([mark_processed] on distinct pending ids,
    [mark_failed] on ids of records that are not processed) on a new
    queue, the number of processed records in the table is at most
    [total_processed]. *)
Theorem processed_records_bounded_by_counter (os : list op) :
  drain_or_cleanup_calls os new_queue →
  processed (get_queue_stats (after os new_queue))
  ≤ total_processed (get_queue_stats (after os new_queue)).
Proof.
  intros Hos. apply (processed_bound_after os new_queue);
    [apply well_formed_new|done|done].
Qed.

Lemma processed_records_bounded_by_counter_witness :
  drain_or_cleanup_calls cleaned_sample new_queue
  ∧ processed (get_queue_stats (after cleaned_sample new_queue)) = 0
  ∧ total_processed (get_queue_stats (after cleaned_sample new_queue)) = 1
  ∧ processed (get_queue_stats (after cleaned_sample new_queue))
    ≤ total_processed (get_queue_stats (after cleaned_sample new_queue)).
Proof.
  assert (drain_or_cleanup_calls cleaned_sample new_queue) as Hos.
  { simpl. split; [done|]. split; [done|]. split.
    - split; [apply NoDup_singleton|]. repeat constructor.
    - split; [done|]. split; [|done]. repeat constructor.
      vm_compute. apply not_elem_of_nil. }
  split; [exact Hos|]. split; [reflexivity|]. split; [reflexivity|].
  exact (processed_records_bounded_by_counter cleaned_sample Hos).
Defined.

Lemma counters_agree_call o q :
  stats_processed_count q = _processed_count q →
  stats_processed_count (snd (call o q)) = _processed_count (snd (call o q)).
Proof.
  destruct o as [e now|ids now|ids|cutoff]; simpl; try done.
  - by destruct ids.
  - by destruct ids.
Qed.

Lemma counters_agree_after os : ∀ q,
  stats_processed_count q = _processed_count q →
  stats_processed_count (after os q) = _processed_count (after os q).
Proof.
  induction os as [|o os IH]; intros q Hq; [done|].
  rewrite after_cons. by apply IH, counters_agree_call.
Qed.

(** X9: the processed counter survives a restart.  After any sequence
    of calls on a new queue, opening the database file again
    ([_init_db] reading the counter back from table [stats]) gives the
    queue object as it was, so [processed_count] is the same. *)
Theorem processed_count_survives_restart (os : list op) :
  _init_db (after os new_queue) = after os new_queue
  ∧ processed_count (_init_db (after os new_queue))
    = processed_count (after os new_queue).
Proof.
  assert (_init_db (after os new_queue) = after os new_queue) as Heq.
  { pose proof (counters_agree_after os new_queue eq_refl) as Hc.
    unfold _init_db. destruct (after os new_queue); simpl in *. by subst. }
  split; [done|]. by rewrite Heq.
Qed.

End QueueCleanupFacts.

Module QueueRecordFacts.
Import Py EventQueue EventQueueSequences QueueHistory.

Lemma set_processed_content ids now r :
  content (set_processed ids now r) = content r
  ∧ retry_count (set_processed ids now r) = retry_count r.
Proof. unfold set_processed. by case_decide. Qed.

Lemma bump_retry_content ids r :
  content (bump_retry ids r) = content r
  ∧ retry_count r ≤ retry_count (bump_retry ids r).
Proof. unfold bump_retry. case_decide; simpl; split; try done; lia. Qed.

(** A record after a call is a record from before with the same
    content and no fewer retries, or a new one with a new id. *)
Lemma record_origin_call o q r' :
  r' ∈ events (snd (call o q)) →
  (∃ r, r ∈ events q ∧ content r' = content r
        ∧ retry_count r ≤ retry_count r')
  ∨ sqlite_sequence q < row_id r'.
Proof.
  destruct o as [e now|ids now|ids|cutoff]; simpl.
  - intros [Hr|Hr]%elem_of_app.
    + left. by exists r'.
    + right. apply list_elem_of_singleton in Hr. subst r'. simpl. lia.
  - destruct ids as [|i ids]; [intros; left; by exists r'|]. simpl.
    intros (r & -> & Hr)%list_elem_of_fmap. left. exists r.
    destruct (set_processed_content (i :: ids) now r) as [-> ->]. done.
  - destruct ids as [|i ids]; [intros; left; by exists r'|]. simpl.
    intros (r & -> & Hr)%list_elem_of_fmap. left. exists r.
    destruct (bump_retry_content (i :: ids) r) as [-> ?]. done.
  - intros [_ Hr]%list_elem_of_filter. left. by exists r'.
Qed.

Lemma record_origin_after os : ∀ q r',
  r' ∈ events (after os q) →
  (∃ r, r ∈ events q ∧ content r' = content r
        ∧ retry_count r ≤ retry_count r')
  ∨ sqlite_sequence q < row_id r'.
Proof.
  induction os as [|o os IH]; intros q r' Hr'.
  - left. by exists r'.
  - rewrite after_cons in Hr'.
    pose proof (QueueHistoryFacts.sequence_grows_call o q) as Hseq.
    destruct (IH _ _ Hr') as [(r1 & Hr1 & Hc1 & Hn1)|Hnew]; [|right; lia].
    destruct (record_origin_call _ _ _ Hr1) as [(r & Hr & Hc & Hn)|Hnew].
    + left. exists r. split; [done|]. split; [congruence|lia].
    + right. assert (row_id r' = row_id r1) as -> by (by injection Hc1). done.
Qed.

(** X7: no call ever changes what an event says, and retries are never
    taken back.  If a record of a well-formed queue is still in the
    table after any sequence of calls, it has the id, type, camera,
    timestamp, data and creation time it had, and a retry count that is
    at least the one it had. *)
Theorem record_content_is_never_changed
    (q : EventQueue) (os : list op) (r r' : row) :
  well_formed q → r ∈ events q →
  r' ∈ events (after os q) → row_id r' = row_id r →
  content r' = content r ∧ retry_count r ≤ retry_count r'.
Proof.
  intros Hwf Hr Hr' Hid.
  destruct (record_origin_after os q r' Hr') as [(r0 & Hr0 & Hc & Hn)|Hnew].
  - assert (r0 = r) as ->.
    { eapply same_id_same_row; [apply Hwf|done|done|].
      rewrite <- Hid. by injection Hc. }
    done.
  - destruct Hwf as [_ Hle]. rewrite Forall_forall in Hle.
    specialize (Hle r Hr). lia.
Qed.

Lemma record_content_is_never_changed_witness :
  ∃ r r',
    events two_pending !! 1%nat = Some r
    ∧ events (after [MarkFailed [2]; MarkProcessed [1] "2026-01-05T14:00:05";
                     MarkFailed [2; 1]] two_pending) !! 1%nat = Some r'
    ∧ content r' = content r
    ∧ retry_count r = 0 ∧ retry_count r' = 2.
Proof.
  set (os := [MarkFailed [2]; MarkProcessed [1] "2026-01-05T14:00:05";
              MarkFailed [2; 1]]).
  destruct (events two_pending !! 1%nat) as [r|] eqn:Hr; [|discriminate].
  destruct (events (after os two_pending) !! 1%nat) as [r'|] eqn:Hr';
    [|discriminate].
  exists r, r'. split; [done|]. split; [done|].
  assert (well_formed two_pending) as Hwf.
  { split; vm_compute; [|repeat constructor; discriminate].
    apply NoDup_cons. split; [|apply NoDup_singleton].
    intros H. apply list_elem_of_singleton in H. discriminate. }
  assert (row_id r' = row_id r) as Hid.
  { injection Hr as <-. injection Hr' as <-. reflexivity. }
  split.
  - exact (proj1 (record_content_is_never_changed two_pending os r r' Hwf
                    (list_elem_of_lookup_2 _ _ _ Hr)
                    (list_elem_of_lookup_2 _ _ _ Hr') Hid)).
  - injection Hr as <-. injection Hr' as <-. split; reflexivity.
Defined.

Lemma status_consistent_call o q :
  Forall status_consistent (events q) →
  Forall status_consistent (events (snd (call o q))).
Proof.
  intros Hq.
  destruct o as [e now|ids now|ids|cutoff]; simpl.
  - apply Forall_app. split; [done|].
    repeat constructor; simpl; first [done|lia].
  - destruct ids as [|i ids]; [done|]. simpl.
    apply Forall_fmap. eapply Forall_impl; [exact Hq|].
    intros r (H0 & Hp & Hf & Hd). unfold set_processed. simpl.
    case_decide; [|done]. repeat split; simpl; done.
  - destruct ids as [|i ids]; [done|]. simpl.
    apply Forall_fmap. eapply Forall_impl; [exact Hq|].
    intros r (H0 & Hp & Hf & Hd). unfold bump_retry. simpl.
    case_decide; [|done].
    destruct (Z.leb_spec 4 (retry_count r));
      repeat split; simpl; first [done|lia].
  - apply Forall_forall. intros r [_ Hr]%list_elem_of_filter.
    rewrite Forall_forall in Hq. by apply Hq.
Qed.

Lemma status_consistent_after os : ∀ q,
  Forall status_consistent (events q) →
  Forall status_consistent (events (after os q)).
Proof.
  induction os as [|o os IH]; intros q Hq; [done|].
  rewrite after_cons. by apply IH, status_consistent_call.
Qed.

Lemma pending_is_eligible (l : list row) :
  Forall status_consistent l →
  filter eligible l = filter (λ r, status r = Pending) l.
Proof.
  induction 1 as [|r l (H0 & Hp & _) _ IH]; [done|].
  rewrite !filter_cons, IH.
  destruct (decide (status r = Pending)) as [Hst|Hst].
  - rewrite decide_True; [done|]. split; [done|]. specialize (Hp Hst). lia.
  - rewrite decide_False; [done|]. by intros [? _].
Qed.

(** X8: in every state that calls on a new queue can reach, the status
    of a record fits its other columns: a pending record has between 0
    and 4 retries, a failed record at least 5, a processed record has a
    [processed_at]; so the [retry_count < 5] test of [get_pending]
    leaves out no pending record, and [pending_count] is the number of
    records an unlimited [get_pending] returns. *)
Theorem reachable_records_are_status_consistent (os : list op) :
  Forall status_consistent (events (after os new_queue))
  ∧ ∃ evs, fst (get_pending (-1) (after os new_queue)) = Ret evs
           ∧ pending_count (after os new_queue) = Z.of_nat (length evs).
Proof.
  assert (Forall status_consistent (events (after os new_queue))) as Hinv
    by (apply status_consistent_after; constructor).
  split; [done|]. eexists. split; [reflexivity|].
  unfold pending_count, count_status, select_pending, limit. simpl.
  rewrite length_fmap, EventQueueFacts.order_by_created_at_perm.
  by rewrite pending_is_eligible.
Qed.

End QueueRecordFacts.

(** ** The agent at work *)

Module AgentRunFacts.
Import Py EventQueue ApiClient EdgeAgent AgentRuns EventQueueSequences.

Lemma submit_events_returns w evs c :
  ∃ result c', submit_events w evs c = (Ret result, c').
Proof.
  unfold submit_events, bind at 1.
  destruct (ApiClientFacts.ensure_authenticated_returns w c) as (c' & ->).
  unfold try_except, bind, lift, ret.
  destruct (events_post w) as [resp|e]; [|by eauto].
  destruct (decide (resp_status resp = 200)).
  - destruct (resp_json resp); by eauto.
  - destruct (resp_text resp); by eauto.
Qed.

Lemma all_failed_processed {A} (evs : list A) :
  all_failed evs !! "processed" = Some 0.
Proof. unfold all_failed. apply lookup_insert_eq. Qed.

(** What [submit_events] returns when the cloud acknowledges nothing
    has no positive [processed] entry. *)
Lemma submit_events_nothing w evs c result c' :
  acknowledges_nothing w →
  submit_events w evs c = (Ret result, c') →
  match result !! "processed" with
  | None => True
  | Some n => n ≤ 0
  end.
Proof.
  unfold acknowledges_nothing, submit_events, bind at 1.
  destruct (ApiClientFacts.ensure_authenticated_returns w c) as (c1 & ->).
  unfold try_except, bind, lift, ret.
  destruct (events_post w) as [resp|e].
  - destruct (decide (resp_status resp = 200)) as [H200|H200].
    + intros [?|Hbody]; [done|].
      destruct (resp_json resp) as [body|e]; intros [= <- <-]; [done|].
      by rewrite all_failed_processed.
    + intros _. destruct (resp_text resp); intros [= <- <-];
        by rewrite all_failed_processed.
  - intros _ [= <- <-]. by rewrite all_failed_processed.
Qed.

(** The queue after a drain turn is the queue after one
    [mark_processed] on a prefix of the batch's ids. *)
Lemma event_sync_turn_queue w now a :
  ∃ k,
    event_queue (snd (event_sync_turn w now a))
    = snd (mark_processed (take k (row_id <$> batch a)) now (event_queue a)).
Proof.
  unfold event_sync_turn, try_except, bind at 1.
  unfold on_queue at 1, get_pending. simpl. fold (batch a).
  destruct (pending_of_row <$> batch a) as [|e evs] eqn:Hbatch.
  { exists 0%nat. done. }
  unfold bind at 1, on_client. cbn [api_client event_queue].
  destruct (submit_events w (e :: evs) (api_client a)) as [[result|err] c'];
    simpl; [|by exists 0%nat].
  unfold bind, getitem.
  destruct (result !! "processed") as [n|]; simpl; [|by exists 0%nat].
  destruct (Z.ltb_spec 0 n); simpl; [|by exists 0%nat].
  exists (Z.to_nat n).
  unfold on_queue. cbn [api_client event_queue].
  unfold slice_to. destruct (Z.ltb_spec n 0); [lia|].
  assert (pe_id <$> take (Z.to_nat n) (e :: evs)
          = take (Z.to_nat n) (row_id <$> batch a)) as ->.
  { rewrite <- Hbatch, <- !fmap_take, <- list_fmap_compose. done. }
  by destruct (mark_processed _ now (event_queue a)) as [[[]|err] q'].
Qed.

Lemma select_pending_ids b q :
  well_formed q →
  NoDup (row_id <$> select_pending b q)
  ∧ Forall (λ i, i ∈ ids_with Pending q) (row_id <$> select_pending b q).
Proof.
  intros [Hnd _]. split.
  - unfold select_pending, limit.
    assert (NoDup (row_id <$> order_by_created_at (filter eligible (events q))))
      as Hsorted.
    { rewrite EventQueueFacts.order_by_created_at_perm.
      eapply sublist_NoDup; [exact Hnd|].
      apply fmap_sublist, sublist_filter. }
    destruct (b <? 0); [done|].
    eapply sublist_NoDup; [exact Hsorted|].
    apply fmap_sublist, sublist_take.
  - apply Forall_fmap, Forall_forall.
    intros r [Hr [Hst _]]%EventQueueRetries.select_pending_eligible.
    simpl. apply list_elem_of_fmap_2. by apply list_elem_of_filter.
Qed.

Lemma turn_is_drain_call k now q :
  well_formed q →
  drain_call (MarkProcessed (take k (row_id <$> select_pending 50 q)) now) q.
Proof.
  intros Hwf. destruct (select_pending_ids 50 q Hwf) as [Hnd Hpend].
  split.
  - eapply sublist_NoDup; [exact Hnd|apply sublist_take].
  - by apply Forall_take.
Qed.

Lemma happen_returns h a : fst (happen h a) = Ret tt.
Proof.
  destruct h as [event now|w now]; simpl.
  - unfold _handle_detection_event, bind, on_queue. done.
  - apply EdgeAgentFacts.event_sync_turn_returns.
Qed.

Lemma happenings_cons h hs a :
  snd (happenings (h :: hs) a) = snd (happenings hs (snd (happen h a))).
Proof.
  simpl. unfold bind. pose proof (happen_returns h a) as Hret.
  destruct (happen h a) as [[[]|e] a']; simpl in *; [done|discriminate].
Qed.

(** A happening acts on the queue like one queue call of a drain
    loop. *)
Lemma happen_as_call h a :
  well_formed (event_queue a) →
  ∃ o, drain_call o (event_queue a)
       ∧ event_queue (snd (happen h a)) = snd (call o (event_queue a)).
Proof.
  intros Hwf. destruct h as [event now|w now]; simpl.
  - exists (Enqueue event now). split; [done|].
    unfold _handle_detection_event, bind, on_queue. done.
  - destruct (event_sync_turn_queue w now a) as [k Hk].
    exists (MarkProcessed (take k (row_id <$> batch a)) now).
    split; [by apply turn_is_drain_call|done].
Qed.

Lemma happenings_invariant hs : ∀ a,
  well_formed (event_queue a) → coherent (event_queue a) →
  well_formed (event_queue (snd (happenings hs a)))
  ∧ coherent (event_queue (snd (happenings hs a))).
Proof.
  induction hs as [|h hs IH]; intros a Hwf Hco; [done|].
  rewrite happenings_cons.
  destruct (happen_as_call h a Hwf) as (o & Ho & Hq).
  apply IH; rewrite Hq.
  - by apply well_formed_call.
  - by apply EventQueueCount.coherent_call.
Qed.

(** X10: in the running agent the processed counter is exact.
    Whatever detections the stream tasks report and whatever the cloud
    answers to the drain turns, the [total_processed] of the queue
    statistics equals the number of records whose status is processed,
    and so does the counter kept in table [stats]. *)
Theorem agent_keeps_processed_count_exact (hs : list happening) :
  let q := event_queue (snd (happenings hs new_agent)) in
  total_processed (get_queue_stats q) = processed (get_queue_stats q)
  ∧ stats_processed_count q = processed (get_queue_stats q)
  ∧ well_formed q.
Proof.
  assert (coherent new_queue) as Hnew by (by split).
  destruct (happenings_invariant hs new_agent well_formed_new Hnew)
    as [Hwf [Hmem Hstats]].
  cbv zeta. split; [exact Hmem|]. split; [|exact Hwf].
  rewrite Hstats. exact Hmem.
Qed.

(** A drain turn in terms of what [submit_events] returned. *)
Lemma event_sync_turn_by_result w now a result c' :
  batch a ≠ [] →
  submit_events w (pending_of_row <$> batch a) (api_client a) = (Ret result, c') →
  event_sync_turn w now a
  = (Ret tt,
     {| event_queue :=
          match result !! "processed" with
          | Some n =>
              if 0 <? n
              then snd (mark_processed (take (Z.to_nat n) (row_id <$> batch a))
                          now (event_queue a))
              else event_queue a
          | None => event_queue a
          end;
        api_client := c' |}).
Proof.
  intros Hne Hsubmit.
  unfold event_sync_turn, try_except, bind at 1.
  unfold on_queue at 1, get_pending. simpl. fold (batch a).
  destruct (pending_of_row <$> batch a) as [|e evs] eqn:Hbatch.
  { by destruct (batch a). }
  unfold bind at 1, on_client. cbn [api_client event_queue].
  rewrite Hsubmit. simpl.
  unfold bind, getitem.
  destruct (result !! "processed") as [n|]; simpl; [|done].
  destruct (Z.ltb_spec 0 n); simpl; [|done].
  unfold on_queue. cbn [api_client event_queue].
  unfold slice_to. destruct (Z.ltb_spec n 0); [lia|].
  assert (pe_id <$> take (Z.to_nat n) (e :: evs)
          = take (Z.to_nat n) (row_id <$> batch a)) as ->.
  { rewrite <- Hbatch, <- !fmap_take, <- list_fmap_compose. done. }
  by destruct (mark_processed _ now (event_queue a)) as [[[]|err] q'].
Qed.

Lemma submit_events_body w evs c resp body :
  events_post w = Ret resp → resp_status resp = 200 →
  resp_json resp = Ret body →
  ∃ c', submit_events w evs c = (Ret body, c').
Proof.
  intros Hpost H200 Hjson.
  unfold submit_events, bind at 1.
  destruct (ApiClientFacts.ensure_authenticated_returns w c) as (c' & ->).
  unfold try_except, bind, lift, ret.
  rewrite Hpost. rewrite decide_True by done. rewrite Hjson. by eauto.
Qed.

(** X11: a drain turn marks exactly the acknowledged prefix.  When the
    cloud answers 200 with [processed = n > 0], the queue after the
    turn is the queue after [mark_processed] on the ids of the first
    [n] records of the batch (of the whole batch when [n] exceeds its
    length): those records are processed, every other record is as it
    was, and the processed counter has grown by the smaller of [n] and
    the batch length. *)
Theorem drain_turn_marks_acknowledged_prefix
    (w : world) (now : string) (a : EdgeAgent)
    (resp : response (gmap string Z)) (body : gmap string Z) (n : Z) :
  events_post w = Ret resp → resp_status resp = 200 →
  resp_json resp = Ret body → body !! "processed" = Some n → 0 < n →
  let ids := take (Z.to_nat n) (row_id <$> batch a) in
  let q := event_queue a in
  let q' := event_queue (snd (event_sync_turn w now a)) in
  q' = snd (mark_processed ids now q)
  ∧ length (events q') = length (events q)
  ∧ (∀ k r, events q !! k = Some r → row_id r ∈ ids →
       ∃ r', events q' !! k = Some r' ∧ status r' = Processed
             ∧ kept_by_drain r' = kept_by_drain r)
  ∧ (∀ k r, events q !! k = Some r → row_id r ∉ ids →
       events q' !! k = Some r)
  ∧ processed_count q'
    = processed_count q + Z.min n (Z.of_nat (length (batch a))).
Proof.
  intros Hpost H200 Hjson Hn Hpos ids q q'.
  assert (q' = snd (mark_processed ids now q)) as Hq'.
  { subst q'. destruct (decide (batch a = [])) as [Hempty|Hne].
    - destruct (event_sync_turn_queue w now a) as [k ->].
      subst ids. rewrite Hempty. simpl. by rewrite !take_nil.
    - destruct (submit_events_body w (pending_of_row <$> batch a)
                  (api_client a) resp body Hpost H200 Hjson) as [c' Hsub].
      rewrite (event_sync_turn_by_result w now a body c' Hne Hsub).
      simpl. rewrite Hn.
      destruct (Z.ltb_spec 0 n); [done|lia]. }
  split; [exact Hq'|]. rewrite Hq'. clear Hq'.
  destruct (decide (ids = [])) as [Hnil|Hnil].
  - rewrite Hnil. simpl. repeat split; try done.
    + intros k r _ Hin. by apply elem_of_nil in Hin.
    + unfold processed_count.
      assert (length ids = 0%nat) as Hlen by (by rewrite Hnil).
      subst ids. rewrite length_take, length_fmap in Hlen. lia.
  - rewrite mark_processed_state by done. simpl. repeat split.
    + by rewrite length_fmap.
    + intros k r Hk Hin. eexists.
      rewrite list_lookup_fmap, Hk. simpl. split; [reflexivity|].
      unfold set_processed. by rewrite decide_True.
    + intros k r Hk Hnot. rewrite list_lookup_fmap, Hk. simpl.
      unfold set_processed. by rewrite decide_False.
    + unfold processed_count. subst ids.
      rewrite length_take, length_fmap. lia.
Qed.

Lemma drain_turn_marks_acknowledged_prefix_witness :
  delivery_state
    (snd (event_sync_turn (acknowledges 7) "2026-01-05T14:00:05" two_queued))
  = [(1, Processed, 0); (2, Processed, 0)]
  ∧ processed_count
      (event_queue
         (snd (event_sync_turn (acknowledges 7) "2026-01-05T14:00:05" two_queued)))
    = 2.
Proof.
  destruct (drain_turn_marks_acknowledged_prefix (acknowledges 7)
              "2026-01-05T14:00:05" two_queued _ _ 7
              eq_refl eq_refl eq_refl eq_refl eq_refl)
    as (Hq' & _ & _ & _ & Hcount).
  split.
  - unfold delivery_state. rewrite Hq'. reflexivity.
  - rewrite Hcount. reflexivity.
Defined.

(** X12: a turn in which nothing is acknowledged leaves the queue as it
    is.  When the POST raises, or answers with another status than 200,
    or with a body that is not JSON or lacks [processed], or with
    [processed <= 0], the turn returns normally, no record and no
    counter changes, and the next turn submits the same batch. *)
Theorem drain_turn_without_acknowledgement
    (w : world) (now : string) (a : EdgeAgent) :
  acknowledges_nothing w →
  fst (event_sync_turn w now a) = Ret tt
  ∧ event_queue (snd (event_sync_turn w now a)) = event_queue a
  ∧ batch (snd (event_sync_turn w now a)) = batch a.
Proof.
  intros Hw.
  assert (event_queue (snd (event_sync_turn w now a)) = event_queue a) as Hq.
  { destruct (decide (batch a = [])) as [Hempty|Hne].
    - destruct (event_sync_turn_queue w now a) as [k ->].
      rewrite Hempty. simpl. by rewrite take_nil.
    - destruct (submit_events_returns w (pending_of_row <$> batch a)
                  (api_client a)) as (result & c' & Hsub).
      rewrite (event_sync_turn_by_result w now a result c' Hne Hsub).
      simpl. pose proof (submit_events_nothing _ _ _ _ _ Hw Hsub) as Hres.
      destruct (result !! "processed") as [n|]; [|done].
      destruct (Z.ltb_spec 0 n); [lia|done]. }
  split; [apply EdgeAgentFacts.event_sync_turn_returns|].
  split; [exact Hq|]. unfold batch. by rewrite Hq.
Qed.

Lemma drain_turn_without_acknowledgement_witness :
  acknowledges_nothing server_error
  ∧ event_queue (snd (event_sync_turn server_error "2026-01-05T14:00:05" two_queued))
    = two_pending.
Proof.
  assert (acknowledges_nothing server_error) as Hw by (left; done).
  split; [exact Hw|].
  exact (proj1 (proj2 (drain_turn_without_acknowledgement server_error
                         "2026-01-05T14:00:05" two_queued Hw))).
Defined.

(** X13: with nothing to send the cloud is not contacted.  When
    [get_pending] returns no record, the turn makes no request, not
    even a login for an expired token: the agent, its queue and its
    client, is left exactly as it was, whatever the cloud would have
    answered. *)
Theorem drain_turn_with_empty_batch
    (w : world) (now : string) (a : EdgeAgent) :
  batch a = [] → event_sync_turn w now a = (Ret tt, a).
Proof.
  intros Hempty.
  unfold event_sync_turn, try_except, bind at 1.
  unfold on_queue at 1, get_pending. simpl. fold (batch a).
  rewrite Hempty. simpl. by destruct a.
Qed.

Lemma drain_turn_with_empty_batch_witness :
  batch new_agent = []
  ∧ event_sync_turn accepts_one "2026-01-05T14:00:05" new_agent
    = (Ret tt, new_agent).
Proof.
  split; [reflexivity|].
  exact (drain_turn_with_empty_batch accepts_one "2026-01-05T14:00:05"
           new_agent eq_refl).
Defined.

Lemma happen_keeps_unfailed h a :
  Forall (λ r, retry_count r = 0 ∧ status r ≠ Failed) (events (event_queue a)) →
  Forall (λ r, retry_count r = 0 ∧ status r ≠ Failed)
    (events (event_queue (snd (happen h a)))).
Proof.
  intros Ha. destruct h as [event now|w now]; simpl.
  - unfold _handle_detection_event, bind, on_queue. simpl.
    apply Forall_app. split; [done|]. by repeat constructor.
  - destruct (event_sync_turn_queue w now a) as [k ->].
    destruct (take k (row_id <$> batch a)) as [|i ids]; [done|]. simpl.
    apply Forall_fmap. eapply Forall_impl; [exact Ha|].
    intros r [Hr Hst]. unfold set_processed. simpl.
    by case_decide.
Qed.

(** X14: the agent never gives an event up.  Whatever detections are
    reported and whatever the cloud answers, every record keeps retry
    count 0 and no record ever gets status failed: an event the cloud
    does not accept stays pending and is submitted again. *)
Theorem agent_never_fails_an_event (hs : list happening) :
  Forall (λ r, retry_count r = 0 ∧ status r ≠ Failed)
    (events (event_queue (snd (happenings hs new_agent))))
  ∧ failed (get_queue_stats (event_queue (snd (happenings hs new_agent)))) = 0.
Proof.
  assert (∀ a,
    Forall (λ r, retry_count r = 0 ∧ status r ≠ Failed) (events (event_queue a)) →
    Forall (λ r, retry_count r = 0 ∧ status r ≠ Failed)
      (events (event_queue (snd (happenings hs a))))) as Hall.
  { induction hs as [|h hs IH]; intros a Ha; [done|].
    rewrite happenings_cons. by apply IH, happen_keeps_unfailed. }
  specialize (Hall new_agent (Forall_nil_2 _)).
  split; [exact Hall|].
  simpl. unfold count_status.
  induction Hall as [|r l [_ Hst] _ IH]; [done|].
  rewrite filter_cons. by rewrite decide_False.
Qed.

End AgentRunFacts.

(** ** The cloud session *)

Module CloudSessionFacts.
Import Py ApiClient CloudSession.

(** X15: what [login] leaves behind, case by case.  It never raises.
    After a transport error, a status other than 200 or a body that is
    not JSON it returns [False] and the client is as it was.  After a
    200 whose expiry time parses it returns [True] and token, expiry
    and school id are the ones received.  After a 200 whose expiry time
    does not parse it returns [False], with the received token already
    stored next to the old expiry and school id. *)
Theorem login_outcomes (w : world) (c : ParikShanAPIClient) :
  match login_post w with
  | Raise _ => login w c = (Ret false, c)
  | Ret resp =>
      if decide (resp_status resp = 200) then
        match resp_json resp with
        | Raise _ => login w c = (Ret false, c)
        | Ret data =>
            match ld_expiresAt data with
            | Ret expires =>
                login w c
                = (Ret true,
                   {| token := Some (ld_token data);
                      token_expires_at := Some expires;
                      school_id := Some (ld_schoolId data) |})
            | Raise _ =>
                login w c
                = (Ret false,
                   {| token := Some (ld_token data);
                      token_expires_at := token_expires_at c;
                      school_id := school_id c |})
            end
        end
      else login w c = (Ret false, c)
  end.
Proof.
  unfold login, try_except, bind, lift, ret, set_token, set_expiry_and_school.
  destruct (login_post w) as [resp|e]; [|done].
  destruct (decide (resp_status resp = 200)).
  - destruct (resp_json resp) as [data|e']; [|done].
    by destruct (ld_expiresAt data).
  - by destruct (resp_text resp).
Qed.

Lemma login_transport_error w c e :
  login_post w = Raise e → login w c = (Ret false, c).
Proof. intros H. unfold login, try_except, bind, lift. by rewrite H. Qed.

(** X16: [_ensure_authenticated] logs in only when it has to, and a
    failed login is no error.  A client whose token is not empty and
    has not expired is left as it is, without a request.  A client
    without token whose login request fails is left as it is too, the
    call returns normally, and a following [submit_events] still sends
    its batch and returns what the cloud answers. *)
Theorem ensure_authenticated_is_lenient
    (w : world) (c : ParikShanAPIClient) :
  (no_token c = false → token_expired w = false →
     _ensure_authenticated w c = (Ret tt, c))
  ∧ (∀ e, login_post w = Raise e →
       _ensure_authenticated w c = (Ret tt, c)
       ∧ ∀ evs resp body,
           events_post w = Ret resp → resp_status resp = 200 →
           resp_json resp = Ret body →
           submit_events w evs c = (Ret body, c)).
Proof.
  assert (∀ e, login_post w = Raise e →
               _ensure_authenticated w c = (Ret tt, c)) as Hfail.
  { intros e He. unfold _ensure_authenticated.
    destruct (no_token c || _); [|done].
    unfold bind. by rewrite (login_transport_error w c e He). }
  split.
  - intros Htok Hexp. unfold _ensure_authenticated.
    rewrite Htok, Hexp. by rewrite andb_false_r.
  - intros e He. split; [by eapply Hfail|].
    intros evs resp body Hpost H200 Hjson.
    unfold submit_events, bind at 1. rewrite (Hfail e He).
    unfold try_except, bind, lift, ret. rewrite Hpost.
    rewrite decide_True by done. by rewrite Hjson.
Qed.

(** [get_config] never raises and returns a document only for a
    200.  The result is the JSON body when the GET answers 200 with
    one, and [None] after a transport error, another status or a body
    that is not JSON. *)
Lemma get_config_returns_document_or_none
    (w : world) (config_get : res (response Config.cloud_config))
    (c : ParikShanAPIClient) :
  ∃ c',
    get_config w config_get c
    = (Ret match config_get with
           | Ret resp =>
               if decide (resp_status resp = 200) then
                 match resp_json resp with
                 | Ret document => Some document
                 | Raise _ => None
                 end
               else None
           | Raise _ => None
           end,
       c')
    ∧ _ensure_authenticated w c = (Ret tt, c').
Proof.
  unfold get_config, bind at 1.
  destruct (ApiClientFacts.ensure_authenticated_returns w c) as (c' & ->).
  exists c'. split; [|done].
  unfold try_except, bind, lift, ret.
  destruct config_get as [resp|e]; [|done].
  destruct (decide (resp_status resp = 200)).
  - by destruct (resp_json resp).
  - by destruct (resp_text resp).
Qed.

(** [send_heartbeat] never raises: it returns [True] for a 200
    and [False] after a transport error or any other status, also when
    reading the error text fails. *)
Lemma send_heartbeat_reports_success
    (w : world) (heartbeat_post : res (response unit))
    (c : ParikShanAPIClient) :
  ∃ c',
    send_heartbeat w heartbeat_post c
    = (Ret match heartbeat_post with
           | Ret resp => bool_decide (resp_status resp = 200)
           | Raise _ => false
           end,
       c')
    ∧ _ensure_authenticated w c = (Ret tt, c').
Proof.
  unfold send_heartbeat, bind at 1.
  destruct (ApiClientFacts.ensure_authenticated_returns w c) as (c' & ->).
  exists c'. split; [|done].
  unfold try_except, bind, lift, ret.
  destruct heartbeat_post as [resp|e]; [|done].
  destruct (decide (resp_status resp = 200)).
  - by rewrite bool_decide_eq_true_2.
  - rewrite bool_decide_eq_false_2 by done. by destruct (resp_text resp).
Qed.

End CloudSessionFacts.

(** ** The configuration merge: the camera section *)

Module ConfigLoadingFacts.
Import Py Config ConfigLoading.

Section WithFormat.
Variable str_format : string → gmap string string → res string.

Lemma load_camera_resolved cam c :
  load_camera str_format cam c
  = match resolved_url str_format (nvrs c) cam with
    | Ret url => (Ret tt, with_cameras (cameras c ++ [camera_of_entry cam url]) c)
    | Raise e => (Raise e, c)
    end.
Proof.
  unfold load_camera, resolved_url, bind, _build_nvr_rtsp_url, lift, ret,
    append_camera, with_cameras.
  destruct (bool_decide _ && truthy_id _); [|done].
  destruct (find_nvr _ _) as [nvr|]; [|done].
  by destruct (str_format _ _).
Qed.

Lemma load_cameras_resolved cams : ∀ c,
  load_cameras str_format cams c
  = (match snd (resolved_cameras str_format (nvrs c) cams) with
     | None => Ret tt
     | Some e => Raise e
     end,
     with_cameras
       (cameras c ++ fst (resolved_cameras str_format (nvrs c) cams)) c).
Proof.
  induction cams as [|cam cams IH]; intros c; simpl.
  - unfold ret, with_cameras. simpl. rewrite app_nil_r. by destruct c.
  - unfold bind. rewrite load_camera_resolved.
    destruct (resolved_url str_format (nvrs c) cam) as [url|e]; simpl.
    + rewrite IH. unfold with_cameras. simpl.
      destruct (resolved_cameras str_format (nvrs c) cams) as [stored e].
      simpl. by rewrite <- app_assoc.
    + unfold with_cameras. simpl. rewrite app_nil_r. by destruct c.
Qed.

Lemma resolved_self_contained l cams :
  Forall self_contained cams →
  resolved_cameras str_format l cams
  = ((λ cam, camera_of_entry cam (default "" (rtspUrl cam))) <$> cams, None).
Proof.
  induction 1 as [|cam cams Hcam _ IH]; [done|].
  simpl. unfold resolved_url.
  assert (bool_decide (default "" (rtspUrl cam) = "") && truthy_id (nvrId cam)
          = false) as ->.
  { destruct Hcam as [Hurl| ->]; [|apply andb_false_r].
    by rewrite bool_decide_eq_false_2. }
  by rewrite IH.
Qed.

(** X17: cameras that need no NVR are stored as they come.  When
    every camera entry of the document has a URL of its own or names
    no NVR, [update_from_cloud] cannot fail; the camera list it
    leaves is the list of the document, in its order and in place of
    the old one, each camera with the URL of its entry. *)
Theorem self_contained_cameras_replace_the_list
    (cc : cloud_config) (c : Config) (cams : list camera_entry) :
  cc_cameras cc = Some cams → Forall self_contained cams →
  ∃ c',
    update_from_cloud str_format cc c = (Ret tt, c')
    ∧ cameras c'
      = (λ cam, camera_of_entry cam (default "" (rtspUrl cam))) <$> cams.
Proof.
  intros Hcams Hself.
  destruct (update_from_cloud str_format cc c) as [r c'] eqn:Hrun.
  destruct (ConfigFacts.update_from_cloud_cameras _ _ _ _ _ Hrun)
    as (r1 & c1 & Hfirst & Hsame & ->).
  rewrite Hcams, load_cameras_resolved in Hfirst. simpl in Hfirst.
  rewrite resolved_self_contained in Hfirst by done.
  injection Hfirst as <- <-.
  exists c'. by rewrite Hsame.
Qed.

(** X18: a bad template stops the update half-way.  When formatting
    raises for a camera of the document, [update_from_cloud] raises
    that exception; the camera list holds the cameras that came
    before in the document and nothing else, and the NVRs, face
    encodings and school configuration of the document are not
    applied. *)
Theorem failing_template_truncates_cameras
    (cc : cloud_config) (c : Config)
    (before after : list camera_entry) (cam : camera_entry)
    (stored : list CameraConfig) (e : exn) :
  cc_cameras cc = Some (before ++ cam :: after)%list →
  resolved_cameras str_format (nvrs c) before = (stored, None) →
  resolved_url str_format (nvrs c) cam = Raise e →
  ∃ c',
    update_from_cloud str_format cc c = (Raise e, c')
    ∧ cameras c' = stored
    ∧ length stored = length before
    ∧ same_but_cameras c c'.
Proof.
  intros Hcams Hbefore Hcam.
  assert (resolved_cameras str_format (nvrs c) (before ++ cam :: after)%list
          = (stored, Some e) ∧ length stored = length before) as [Hall Hlen].
  { clear Hcams. revert stored Hbefore.
    induction before as [|b before IH]; intros stored; simpl.
    - intros [= <-]. by rewrite Hcam.
    - destruct (resolved_url str_format (nvrs c) b) as [url|e']; [|done].
      destruct (resolved_cameras str_format (nvrs c) before) as [st e'] eqn:Hb.
      intros [= <- ->]. destruct (IH st eq_refl) as [-> Hlen].
      simpl. by rewrite Hlen. }
  unfold update_from_cloud. unfold bind at 1. rewrite Hcams.
  unfold bind at 1. simpl.
  rewrite load_cameras_resolved. simpl. rewrite Hall. simpl.
  eexists. split; [reflexivity|]. simpl. repeat split; done.
Qed.

End WithFormat.

Lemma self_contained_cameras_replace_the_list_witness :
  Forall self_contained [hall_camera]
  ∧ ∃ c',
      update_from_cloud format
        {| cc_cameras := Some [hall_camera]; cc_nvrs := None;
           cc_faceEncodings := None; cc_schoolConfig := None |}
        synced_once
      = (Ret tt, c')
      ∧ rtsp_url <$> cameras c' = ["rtsp://10.0.0.9/stream1"].
Proof.
  assert (Forall self_contained [hall_camera]) as Hself.
  { constructor; [|constructor]. left. discriminate. }
  split; [exact Hself|].
  destruct (self_contained_cameras_replace_the_list format
              {| cc_cameras := Some [hall_camera]; cc_nvrs := None;
                 cc_faceEncodings := None; cc_schoolConfig := None |}
              synced_once [hall_camera] eq_refl Hself)
    as (c' & Hrun & Hcams).
  exists c'. split; [exact Hrun|]. rewrite Hcams. reflexivity.
Defined.

Lemma failing_template_truncates_cameras_witness :
  ∃ c',
    update_from_cloud format annex_sync annex_config
    = (Raise (KeyError "host"), c')
    ∧ cam_name <$> cameras c' = ["Hall"]
    ∧ nvrs c' = [broken_nvr].
Proof.
  destruct (failing_template_truncates_cameras format annex_sync annex_config
              [hall_camera] [gate_camera] yard_camera
              [camera_of_entry hall_camera "rtsp://10.0.0.9/stream1"]
              (KeyError "host") eq_refl eq_refl eq_refl)
    as (c' & Hrun & Hcams & _ & _ & Hnvrs & _).
  exists c'. split; [exact Hrun|]. split; [by rewrite Hcams|exact Hnvrs].
Defined.

End ConfigLoadingFacts.

Module ConfigUrlFacts.
Import Py Config ConfigLoading.

Lemma nvr_kwargs_lookup nvr channel :
  nvr_kwargs nvr channel !! "username" = Some (username nvr)
  ∧ nvr_kwargs nvr channel !! "password" = Some (password nvr)
  ∧ nvr_kwargs nvr channel !! "ip" = Some (ip_address nvr)
  ∧ nvr_kwargs nvr channel !! "port" = Some (pretty (port nvr))
  ∧ nvr_kwargs nvr channel !! "channel" = Some (pretty channel).
Proof.
  unfold nvr_kwargs.
  split; [|split; [|split; [|split]]].
  - by rewrite lookup_insert_eq.
  - rewrite lookup_insert_ne by done. by rewrite lookup_insert_eq.
  - do 2 (rewrite lookup_insert_ne by done). by rewrite lookup_insert_eq.
  - do 3 (rewrite lookup_insert_ne by done). by rewrite lookup_insert_eq.
  - do 4 (rewrite lookup_insert_ne by done). by rewrite lookup_singleton_eq.
Qed.

Lemma plain_cons c s :
  plain (String c s) = true →
  c ≠ "{"%char ∧ c ≠ "}"%char ∧ plain s = true.
Proof.
  cbn [plain]. rewrite !andb_true_iff, !negb_true_iff.
  intros [[H1 H2] H3]. apply Ascii.eqb_neq in H1, H2. done.
Qed.

(** [format] copies text without braces. *)
Lemma format_plain kw s : ∀ rest,
  plain s = true →
  format_from kw Text (s ++ rest)
  = res_map (String.append s) (format_from kw Text rest).
Proof.
  induction s as [|c s IH]; intros rest Hs.
  - change ("" ++ rest) with rest. destruct (format_from kw Text rest); reflexivity.
  - apply plain_cons in Hs as (H1 & H2 & Hs).
    change (String c s ++ rest) with (String c (s ++ rest)).
    cbn [format_from].
    rewrite !decide_False by done. rewrite IH by done.
    destruct (format_from kw Text rest); reflexivity.
Qed.

Lemma format_field_name kw name : ∀ acc rest v,
  plain name = true → kw !! (acc ++ name) = Some v →
  format_from kw (Field acc) (name ++ String "}" rest)
  = res_map (String.append v) (format_from kw Text rest).
Proof.
  induction name as [|c name IH]; intros acc rest v Hname Hv.
  - change ("" ++ String "}" rest) with (String "}" rest).
    cbn [format_from]. rewrite decide_True by done.
    assert (acc ++ "" = acc) as Hacc.
    { clear. induction acc as [|a acc IH]; [done|].
      change (String a acc ++ "") with (String a (acc ++ "")).
      by rewrite IH. }
    rewrite Hacc in Hv. by rewrite Hv.
  - apply plain_cons in Hname as (H1 & H2 & Hname).
    change (String c name ++ String "}" rest)
      with (String c (name ++ String "}" rest)).
    cbn [format_from].
    rewrite !decide_False by done. apply IH; [done|].
    assert ((acc ++ String c "") ++ name = acc ++ String c name) as ->; [|done].
    clear. induction acc as [|a acc IH]; [done|].
    change ((String a acc ++ String c "") ++ name)
      with (String a ((acc ++ String c "") ++ name)).
    change (String a acc ++ String c name)
      with (String a (acc ++ String c name)).
    by rewrite IH.
Qed.

(** [format] replaces a field [{name}] by the keyword argument of that
    name, copied as it is. *)
Lemma format_field kw c name rest v :
  plain (String c name) = true → kw !! String c name = Some v →
  format_from kw Text (String "{" (String c name ++ String "}" rest))
  = res_map (String.append v) (format_from kw Text rest).
Proof.
  intros Hname Hv.
  pose proof (plain_cons _ _ Hname) as (H1 & H2 & Hrest).
  change (String c name ++ String "}" rest)
    with (String c (name ++ String "}" rest)).
  cbn [format_from].
  rewrite decide_True by done. rewrite !decide_False by done.
  by apply (format_field_name kw name (String c "")).
Qed.

Lemma format_default_template nvr channel :
  format default_template (nvr_kwargs nvr channel)
  = Ret (default_url nvr channel).
Proof.
  destruct (nvr_kwargs_lookup nvr channel) as (Hu & Hp & Hi & Hpo & Hc).
  unfold format, default_url.
  generalize dependent (nvr_kwargs nvr channel). intros kw Hu Hp Hi Hpo Hc.
  change default_template with
    ("rtsp://" ++ String "{" ("username" ++ String "}"
     (":" ++ String "{" ("password" ++ String "}"
     ("@" ++ String "{" ("ip" ++ String "}"
     (":" ++ String "{" ("port" ++ String "}"
     ("/cam/realmonitor?channel=" ++ String "{" ("channel" ++ String "}"
     ("&subtype=0" ++ "")))))))))))%string.
  rewrite format_plain by reflexivity.
  rewrite (format_field kw "u"%char "sername" _ _ eq_refl Hu).
  rewrite format_plain by reflexivity.
  rewrite (format_field kw "p"%char "assword" _ _ eq_refl Hp).
  rewrite format_plain by reflexivity.
  rewrite (format_field kw "i"%char "p" _ _ eq_refl Hi).
  rewrite format_plain by reflexivity.
  rewrite (format_field kw "p"%char "ort" _ _ eq_refl Hpo).
  rewrite format_plain by reflexivity.
  rewrite (format_field kw "c"%char "hannel" _ _ eq_refl Hc).
  rewrite format_plain by reflexivity.
  reflexivity.
Qed.

End ConfigUrlFacts.

(** ** The detector facade *)

Module DetectorFacts.
Import Py Config Detectors.

Section WithModels.
Variable frame : Type.
Variable run : detector → frame → res (list detection).

Lemma detect_app (ds1 ds2 : CompositeDetector) f :
  detect frame run (ds1 ++ ds2)%list f
  = (detect frame run ds1 f ++ detect frame run ds2 f)%list.
Proof.
  induction ds1 as [|d ds1 IH]; [done|]. simpl.
  destruct (run d f); [|done]. by rewrite IH, app_assoc.
Qed.

(** X20: one detector's failure does not hide what the others found.
    [CompositeDetector.detect] returns, in the order of the
    detectors, exactly the detections of the detectors that did not
    raise: the result is the lists the detectors returned, one after
    the other in the order of the detectors, with nothing for a
    detector that raised.  So every detection of a detector that
    returned is in the result, every detection in the result comes
    from a detector that returned it, the result is empty when every
    detector raises, a detector that raises can be left out, and the
    list of a detector that returns stands between what the
    detectors before it and the detectors after it give. *)
Theorem composite_detect_isolates_failures
    (detectors : CompositeDetector) (f : frame) :
  (∀ d found x, d ∈ detectors → run d f = Ret found → x ∈ found →
     x ∈ detect frame run detectors f)
  ∧ (∀ x, x ∈ detect frame run detectors f →
       ∃ d found, d ∈ detectors ∧ run d f = Ret found ∧ x ∈ found)
  ∧ ((∀ d, d ∈ detectors → ∃ e, run d f = Raise e) →
     detect frame run detectors f = [])
  ∧ (∀ before d after e,
       detectors = (before ++ d :: after)%list → run d f = Raise e →
       detect frame run detectors f
       = detect frame run (before ++ after)%list f)
  ∧ detect frame run detectors f
    = concat ((λ d, match run d f with
                    | Ret found => found
                    | Raise _ => []
                    end) <$> detectors)
  ∧ (∀ before d after found,
       detectors = (before ++ d :: after)%list → run d f = Ret found →
       detect frame run detectors f
       = (detect frame run before f ++ found
          ++ detect frame run after f)%list).
Proof.
  split; [|split; [|split; [|split; [|split]]]].
  - induction detectors as [|d0 ds IH]; intros d found x Hd Hrun Hx.
    + by apply elem_of_nil in Hd.
    + simpl. apply elem_of_cons in Hd as [<-|Hd].
      * rewrite Hrun. apply elem_of_app. by left.
      * destruct (run d0 f); [apply elem_of_app; right|]; by eapply IH.
  - induction detectors as [|d0 ds IH]; intros x Hx.
    + by apply elem_of_nil in Hx.
    + simpl in Hx. destruct (run d0 f) as [found|e] eqn:Hrun.
      * apply elem_of_app in Hx as [Hx|Hx].
        -- exists d0, found. split; [by left|done].
        -- destruct (IH x Hx) as (d & fd & Hd & Hr & Hin).
           exists d, fd. split; [by right|done].
      * destruct (IH x Hx) as (d & fd & Hd & Hr & Hin).
        exists d, fd. split; [by right|done].
  - induction detectors as [|d0 ds IH]; intros Hall; [done|]. simpl.
    destruct (Hall d0) as [e ->]; [by left|].
    apply IH. intros d Hd. apply Hall. by right.
  - intros before d after e -> Hrun.
    rewrite !detect_app. simpl. by rewrite Hrun.
  - induction detectors as [|d0 ds IH]; [done|].
    rewrite fmap_cons. simpl. rewrite IH. by destruct (run d0 f).
  - intros before d after found -> Hrun.
    rewrite detect_app. simpl. by rewrite Hrun.
Qed.

End WithModels.

(** X21: which detectors a camera gets.  [create_detector] puts the
    face detector first and only when face recognition is not turned
    off, and the discipline detector only when discipline alerts are
    not turned off and the camera type is CORRIDOR, CLASSROOM or ENTRY;
    the composite holds at most these two.  With both turned off the
    composite is empty and finds nothing in any frame; a camera of
    another type never gets a discipline detector. *)
Theorem create_detector_selects_by_type_and_toggles
    (camera_type : string) (encodings : list face_encoding)
    (config : school_config_entry) :
  let face := FaceDetector encodings
                (percent (default 80 (attendanceConfidenceThreshold config))) in
  let discipline := DisciplineDetector
                      (percent (default 85 (fightConfidenceThreshold config)))
                      (default 30 (crowdingThreshold config))
                      (default 5 (runningThreshold config)) in
  create_detector camera_type encodings config
  = ((if default true (enableFaceRecognition config) then [face] else [])
     ++ (if default true (enableDisciplineAlerts config)
            && bool_decide (camera_type ∈ discipline_camera_types)
         then [discipline] else []))%list
  ∧ (camera_type ∉ discipline_camera_types →
     discipline ∉ create_detector camera_type encodings config)
  ∧ (enableFaceRecognition config = Some false →
     enableDisciplineAlerts config = Some false →
     ∀ frame run (f : frame),
       detect frame run (create_detector camera_type encodings config) f = []).
Proof.
  intros face discipline. unfold create_detector.
  split; [|split].
  - destruct (default true (enableFaceRecognition config));
      destruct (_ && _); done.
  - intros Htype. rewrite bool_decide_eq_false_2 by done.
    rewrite andb_false_r.
    destruct (default true (enableFaceRecognition config)); simpl.
    + intros Hin. apply list_elem_of_singleton in Hin. discriminate.
    + apply not_elem_of_nil.
  - intros -> ->. simpl. done.
Qed.

(** X22: the detectors use the thresholds the configuration shows.
    After an [update_from_cloud] whose document carries a school
    configuration, a composite built from the stored school
    configuration holds a face detector exactly when
    [face_detection_enabled] is set, with threshold
    [face_confidence_threshold], and any discipline detector it holds
    has threshold [discipline_confidence_threshold] and
    [discipline_detection_enabled] is set. *)
Theorem detectors_agree_with_configuration
    (str_format : string → gmap string string → res string)
    (cc : cloud_config) (sc : school_config_entry) (c c' : Config)
    (camera_type : string) (encodings : list face_encoding) :
  cc_schoolConfig cc = Some sc →
  update_from_cloud str_format cc c = (Ret tt, c') →
  let composite := create_detector camera_type encodings (school_config c') in
  (face_detection_enabled c' = true
   ↔ FaceDetector encodings (face_confidence_threshold c') ∈ composite)
  ∧ (∀ d, d ∈ composite →
       match d with
       | FaceDetector _ t =>
           t = face_confidence_threshold c' ∧ face_detection_enabled c' = true
       | DisciplineDetector t _ _ =>
           t = discipline_confidence_threshold c'
           ∧ discipline_detection_enabled c' = true
           ∧ camera_type ∈ discipline_camera_types
       end).
Proof.
  intros Hsc Hrun composite. subst composite.
  apply ConfigFacts.update_from_cloud_sections in Hrun
    as (_&_&_&Hs&Hfd&Hdd&Hft&Hdt).
  rewrite Hsc in Hs, Hfd, Hdd, Hft, Hdt. simpl in Hs, Hfd, Hdd, Hft, Hdt.
  rewrite Hs, Hfd, Hdd, Hft, Hdt. clear Hs Hfd Hdd Hft Hdt.
  unfold create_detector.
  destruct (default true (enableFaceRecognition sc)) eqn:Hface;
    destruct (default true (enableDisciplineAlerts sc)) eqn:Hdisc;
    destruct (bool_decide (camera_type ∈ discipline_camera_types)) eqn:Htype;
    simpl; split.
  all: try (split; [intros _; by left|done]).
  all: try (split; [done|];
            intros Hin;
            repeat (apply elem_of_cons in Hin as [Hin|Hin]; [discriminate|]);
            by apply elem_of_nil in Hin).
  all: intros d Hd.
  all: repeat (apply elem_of_cons in Hd as [->|Hd]; [simpl|]).
  all: try (by apply elem_of_nil in Hd).
  all: repeat (split; [reflexivity|]); try reflexivity.
  all: exact (bool_decide_eq_true_1 _ Htype).
Qed.

Lemma detectors_agree_with_configuration_witness :
  cc_schoolConfig first_sync ≠ None
  ∧ ∃ c',
      update_from_cloud format first_sync (init ∅) = (Ret tt, c')
      ∧ FaceDetector [] (face_confidence_threshold c')
        ∈ create_detector "ENTRY" [] (school_config c')
      ∧ face_confidence_threshold c' = percent 75.
Proof.
  split; [done|].
  destruct (update_from_cloud format first_sync (init ∅)) as [r c'] eqn:Hrun.
  assert (r = Ret tt) as -> by (by vm_compute in Hrun; injection Hrun as <- _).
  exists c'. split; [done|].
  destruct (detectors_agree_with_configuration format first_sync _ (init ∅) c'
              "ENTRY" [] eq_refl Hrun) as [Hface _].
  split.
  - apply Hface. by vm_compute in Hrun; injection Hrun as <-.
  - by vm_compute in Hrun; injection Hrun as <-.
Defined.

End DetectorFacts.

(** ** The stream object *)

Module StreamObjectFacts.
Import Py Config Detectors Stream.

Section WithWorld.
Variable frame : Type.
Variable owner : Type.
Variable moment : Type.
Variable event_callback : moment → EventQueue.Event → M owner unit.
Variable total_ms : Z → Q.
Variable isoformat : Z → string.

Lemma init_detector_eq st :
  _init_detector st = set_detector (Some (detector_of st)) st.
Proof.
  unfold _init_detector, detector_of. destruct st as [? ? ? ? ? ? ? ? ? []]; done.
Qed.

Lemma process_frame_fixed (io : frame_io frame moment) st o :
  fixed_part (process_frame event_callback total_ms isoformat io st o).1.2
  = fixed_part st.
Proof.
  unfold process_frame. rewrite init_detector_eq.
  destruct (_cap st); [|done].
  destruct (isOpened io) as [[]|]; [|done..].
  destruct (read io) as [[[] f]|]; [|done..].
  cbn [frame_skip count_frame set_stats set_frame_count].
  destruct (frame_skip st =? 0); [done|].
  destruct (negb (_ =? 0)); [done|].
  destruct (negb (Qle_bool _ _)); [done|].
  cbn [_detector set_detector].
  destruct (detect _ _ _ _); [done|].
  by destruct (deliver _ _ _ _ _) as [[] ?].
Qed.

Lemma process_frame_connected (io : frame_io frame moment) st o :
  is_connected
    (stats (process_frame event_callback total_ms isoformat io st o).1.2)
  = is_connected (stats st).
Proof.
  pose proof (process_frame_fixed io st o) as H. unfold fixed_part in H.
  by injection H.
Qed.

Lemma connect_connected io st :
  is_connected (stats (connect io st).2)
  = (connect io st).1 || is_connected (stats st).
Proof.
  unfold connect. destruct (video_capture io); [|done].
  destruct (cap_set io); [|done].
  by destruct (cap_isOpened io) as [[]|].
Qed.

Lemma loop_turn_refines (io : turn_io frame moment) delay st o :
  RTSPStreamManager.stream_turn
    (camera_io_of event_callback total_ms isoformat io st o)
    (supervised delay st)
  = (supervised
       (loop_turn event_callback total_ms isoformat io delay st o).1.1.1
       (loop_turn event_callback total_ms isoformat io delay st o).1.2,
     (loop_turn event_callback total_ms isoformat io delay st o).1.1.2).
Proof.
  unfold RTSPStreamManager.stream_turn, RTSPStreamManager.frame_turn,
    loop_turn, frame_turn, camera_io_of, supervised.
  cbn [RTSPStreamManager.is_connected RTSPStreamManager.reconnect_delay
       RTSPStreamManager.connect_ok RTSPStreamManager.frame_raises].
  destruct (is_connected (stats st)) eqn:Hst.
  - pose proof (process_frame_connected (turn_frame io) st o) as Hc.
    destruct (process_frame _ _ _ _ st o) as [[[r|e] st1] o1]; simpl in *.
    + by rewrite Hc, Hst.
    + done.
  - pose proof (connect_connected (turn_connect io) st) as Hc.
    rewrite Hst, orb_false_r in Hc.
    destruct (connect (turn_connect io) st) as [[] st1]; simpl in *.
    + pose proof (process_frame_connected (turn_frame io) st1 o) as Hf.
      destruct (process_frame _ _ _ _ st1 o) as [[[r|e] st2] o2];
        simpl in *; [by rewrite Hf, Hc|done].
    + by rewrite Hc.
Qed.

(** X23: the supervisor's model is the loop on the stream object.
    The turns of [_stream_loop] on a stream object, with [connect],
    [process_frame] and [disconnect] as the class has them, perform
    the sleeps of the supervisor's model and end in the state it
    ends in, where the model is told of each turn whether [connect]
    succeeds and whether [process_frame] raises. *)
Theorem stream_task_refines_supervisor
    (ios : list (turn_io frame moment)) (delay : Z) (st : RTSPStream)
    (o : owner) :
  RTSPStreamManager._stream_loop
    (camera_ios_of event_callback total_ms isoformat ios delay st o)
    (supervised delay st)
  = ((loop_turns event_callback total_ms isoformat ios delay st o).1.1.1,
     supervised
       (loop_turns event_callback total_ms isoformat ios delay st o).1.1.2
       (loop_turns event_callback total_ms isoformat ios delay st o).1.2).
Proof.
  revert delay st o. induction ios as [|io ios IH]; intros delay st o.
  - done.
  - cbn [camera_ios_of loop_turns].
    pose proof (loop_turn_refines io delay st o) as Hturn.
    destruct (loop_turn _ _ _ io delay st o) as [[[d1 w] st1] o1].
    cbn [fst snd] in Hturn.
    cbn [RTSPStreamManager._stream_loop]. rewrite Hturn, IH.
    by destruct (loop_turns _ _ _ ios d1 st1 o1) as [[[ws d2] st2] o2].
Qed.

Lemma process_frame_no_frame (io : frame_io frame moment) st o :
  no_frame io →
  process_frame event_callback total_ms isoformat io st o
  = (Returns None, count_error st, o).
Proof.
  intros [[b Hb] Hread]. unfold process_frame.
  destruct (_cap st); [|done]. rewrite Hb.
  destruct b; [|done]. by destruct (Hread Hb) as [f ->].
Qed.

(** X24: a capture that stops delivering frames is never reopened.
    While a connected stream's capture is closed or its [read]
    reports no frame, every turn of [_stream_loop] only adds one to
    [errors_count] and sleeps the frame pause: [connect] is not
    called, the capture object stays the same, the stream stays
    marked connected, no frame is counted and the callback is not
    called. *)
Theorem stalled_capture_is_never_reopened
    (ios : list (turn_io frame moment)) (delay : Z) (st : RTSPStream)
    (o : owner) :
  is_connected (stats st) = true →
  Forall (λ io, no_frame (turn_frame io)) ios →
  ∃ st',
    loop_turns event_callback total_ms isoformat ios delay st o
    = (replicate (length ios) RTSPStreamManager.FramePause, delay, st', o)
    ∧ is_connected (stats st') = true
    ∧ _cap st' = _cap st
    ∧ errors_count (stats st')
      = errors_count (stats st) + Z.of_nat (length ios)
    ∧ frames_processed (stats st') = frames_processed (stats st)
    ∧ last_frame_time (stats st') = last_frame_time (stats st).
Proof.
  intros Hst Hios. revert st Hst.
  induction Hios as [|io ios Hio _ IH]; intros st Hst.
  - exists st. repeat split; simpl; try done. lia.
  - cbn [loop_turns]. unfold loop_turn, frame_turn at 1. rewrite Hst.
    rewrite (process_frame_no_frame _ _ _ Hio).
    destruct (IH (count_error st) Hst) as (st' & -> & ? & ? & Herr & ? & ?).
    exists st'. repeat split; try done.
    rewrite Herr. simpl. lia.
Qed.

Lemma runs_detection_frame (io : frame_io frame moment) st :
  runs_detection total_ms io st = true →
  ∃ url f,
    _cap st = Some url ∧ isOpened io = Returns true
    ∧ read io = Returns (true, f)
    ∧ (frame_skip st =? 0) = false
    ∧ ((_frame_count st + 1) `mod` frame_skip st =? 0) = true
    ∧ Qle_bool (inject_Z (detection_interval_ms st))
        (total_ms (detection_time io - _last_detection_time st)) = true.
Proof.
  unfold runs_detection. destruct (_cap st) as [url|]; [|done].
  destruct (isOpened io) as [[]|]; [|done..].
  destruct (read io) as [[[] f]|]; [|done..].
  cbn [frame_skip count_frame set_stats set_frame_count _frame_count
       detection_interval_ms _last_detection_time].
  intros H. apply andb_true_iff in H as [H H3].
  apply andb_true_iff in H as [H1 H2]. apply negb_true_iff in H1.
  by exists url, f.
Qed.

Lemma process_frame_detecting (io : frame_io frame moment) st o :
  runs_detection total_ms io st = true →
  ∃ f, read io = Returns (true, f) ∧
    let st1 := set_detector (Some (detector_of st))
                 (set_last_detection_time (detection_time io)
                    (count_frame (frame_time io) st)) in
    process_frame event_callback total_ms isoformat io st o
    = match detect frame (run io) (detector_of st) f with
      | [] => (Returns (Some 0), st1, o)
      | detections =>
          let n := Z.of_nat (length detections) in
          let st2 := count_detections n st1 in
          match deliver event_callback io 0
                  (event_of isoformat st2 (detection_time io) <$> detections) o with
          | (Ret _, o') => (Returns (Some n), st2, o')
          | (Raise _, o') => (Returns None, count_error st2, o')
          end
      end.
Proof.
  intros H. apply runs_detection_frame in H
    as (url & f & Hcap & Hopen & Hread & Hskip & Hmod & Hdue).
  exists f. split; [done|]. unfold process_frame.
  rewrite Hcap, Hopen, Hread, init_detector_eq.
  cbn [frame_skip count_frame set_stats set_frame_count _frame_count
       detection_interval_ms _last_detection_time
       set_last_detection_time].
  rewrite Hskip, Hmod, Hdue. cbn [negb _detector set_detector].
  unfold detector_of at 1 3 5.
  cbn [_detector cam_type camera face_encodings school_config].
  fold (detector_of st). done.
Qed.

Lemma process_frame_idle (io : frame_io frame moment) st o :
  runs_detection total_ms io st = false →
  ∃ r st',
    process_frame event_callback total_ms isoformat io st o = (r, st', o)
    ∧ _detector st' = _detector st
    ∧ _last_detection_time st' = _last_detection_time st
    ∧ detections_count (stats st') = detections_count (stats st)
    ∧ (∀ n, r ≠ Returns (Some n)).
Proof.
  unfold runs_detection, process_frame.
  destruct (_cap st) as [url|]; [|by eexists _, _].
  destruct (isOpened io) as [[]|]; [|by eexists _, _..].
  destruct (read io) as [[[] f]|]; [|by eexists _, _..].
  cbn [frame_skip count_frame set_stats set_frame_count _frame_count
       detection_interval_ms _last_detection_time
       set_last_detection_time].
  destruct (frame_skip st =? 0); [by eexists _, _|].
  destruct (_ `mod` _ =? 0); [|by eexists _, _].
  cbn [negb andb]. intros ->. by eexists _, _.
Qed.

Lemma process_frame_detector (io : frame_io frame moment) st o :
  _detector (process_frame event_callback total_ms isoformat io st o).1.2
  = if runs_detection total_ms io st then Some (detector_of st)
    else _detector st.
Proof.
  destruct (runs_detection total_ms io st) eqn:Hruns.
  - destruct (process_frame_detecting io st o Hruns) as (f & _ & ->).
    destruct (detect _ _ _ _); [done|]. cbv zeta.
    by destruct (deliver _ _ _ _ _) as [[] ?].
  - by destruct (process_frame_idle io st o Hruns) as (r & st' & -> & ? & _).
Qed.

(** X25: a stream builds its detector once.  Once a stream has a
    detector, [process_frame] keeps it, and the face encodings that
    [update_config] writes into the stream change nothing of what
    [process_frame] returns, reports to the callback or counts: the
    stream goes on recognising against the encodings it had at its
    first detection. *)
Theorem built_detector_ignores_new_face_encodings
    (io : frame_io frame moment) (st : RTSPStream) (o : owner)
    (d : CompositeDetector) (l : list face_encoding) :
  _detector st = Some d →
  process_frame event_callback total_ms isoformat io
    (set_face_encodings l st) o
  = (let '(r, st', o') :=
       process_frame event_callback total_ms isoformat io st o in
     (r, set_face_encodings l st', o'))
  ∧ _detector
      (process_frame event_callback total_ms isoformat io
         (set_face_encodings l st) o).1.2 = Some d.
Proof.
  intros Hd. split.
  - unfold process_frame. rewrite !init_detector_eq.
    unfold detector_of.
    cbn [set_face_encodings _cap frame_skip count_frame set_stats
         set_frame_count _frame_count detection_interval_ms
         _last_detection_time set_last_detection_time _detector
         set_detector stats].
    rewrite Hd.
    destruct (_cap st); [|done].
    destruct (isOpened io) as [[]|]; [|done..].
    destruct (read io) as [[[] f]|]; [|done..].
    destruct (frame_skip st =? 0); [done|].
    destruct (negb (_ =? 0)); [done|].
    destruct (negb (Qle_bool _ _)); [done|].
    destruct (detect _ _ _ _) as [|x xs]; [done|].
    unfold event_of.
    cbn [camera count_detections set_stats].
    by destruct (deliver _ _ _ _ _) as [[] ?].
  - rewrite process_frame_detector. unfold detector_of.
    cbn [set_face_encodings _detector]. rewrite Hd.
    by destruct (runs_detection _ _ _).
Qed.

Lemma process_frame_counts (io : frame_io frame moment) st o :
  let st' :=
    (process_frame event_callback total_ms isoformat io st o).1.2 in
  frame_skip st' = frame_skip st
  ∧ ∃ k, 0 ≤ k ≤ 1
      ∧ _frame_count st' = _frame_count st + k
      ∧ frames_processed (stats st') = frames_processed (stats st) + k
      ∧ (runs_detection total_ms io st = true →
         k = 1 ∧ (_frame_count st + 1) `mod` frame_skip st = 0).
Proof.
  intros st'. split.
  { pose proof (process_frame_fixed io st o) as H. unfold fixed_part in H.
    by injection H. }
  subst st'. destruct (runs_detection total_ms io st) eqn:Hruns.
  - exists 1. split; [lia|].
    destruct (runs_detection_frame _ _ Hruns)
      as (_ & _ & _ & _ & _ & _ & Hmod & _).
    apply Z.eqb_eq in Hmod.
    destruct (process_frame_detecting io st o Hruns) as (f & _ & ->).
    destruct (detect _ _ _ _); [done|]. cbv zeta.
    by destruct (deliver _ _ _ _ _) as [[] ?].
  - clear Hruns. unfold process_frame.
    destruct (_cap st); [|exists 0; simpl; split; [lia|]; repeat split; (lia||done)].
    destruct (isOpened io) as [[]|];
      [|exists 0; simpl; split; [lia|]; repeat split; (lia||done)..].
    destruct (read io) as [[[] f]|];
      [|exists 0; simpl; split; [lia|]; repeat split; (lia||done)..].
    exists 1. split; [lia|]. rewrite init_detector_eq.
    cbn [frame_skip count_frame set_stats set_frame_count].
    destruct (frame_skip st =? 0); [done|].
    destruct (negb (_ =? 0)); [done|].
    destruct (negb (Qle_bool _ _)); [done|].
    cbn [_detector set_detector].
    destruct (detect _ _ _ _); [done|].
    by destruct (deliver _ _ _ _ _) as [[] ?].
Qed.

(** X26: the detectors run at most once in [frame_skip] frames.
    Over any sequence of [process_frame] calls on a stream with a
    positive [frame_skip], the number of calls that run the
    detectors is at most the number of multiples of [frame_skip] the
    frame counter passes, and the frame counter advances exactly as
    [frames_processed] does. *)
Theorem detectors_run_once_in_frame_skip_frames
    (ios : list (frame_io frame moment)) (st : RTSPStream) (o : owner) :
  0 < frame_skip st →
  let '(n, st', _) :=
    frames event_callback total_ms isoformat ios st o in
  Z.of_nat n
  ≤ _frame_count st' `div` frame_skip st - _frame_count st `div` frame_skip st
  ∧ _frame_count st' - _frame_count st
    = frames_processed (stats st') - frames_processed (stats st)
  ∧ 0 ≤ _frame_count st' - _frame_count st ≤ Z.of_nat (length ios).
Proof.
  revert st o. induction ios as [|io ios IH]; intros st o Hskip.
  - simpl. lia.
  - cbn [frames].
    pose proof (process_frame_counts io st o) as Hc.
    destruct (process_frame _ _ _ io st o) as [[r st1] o1].
    cbn [fst snd] in Hc.
    destruct Hc as (Hfs & k & Hk & Hfc & Hfp & Hruns).
    specialize (IH st1 o1). rewrite Hfs in IH. specialize (IH Hskip).
    destruct (frames _ _ _ ios st1 o1) as [[n st2] o2].
    destruct IH as (IHn & IHc & IHl).
    assert (_frame_count st `div` frame_skip st
            ≤ _frame_count st1 `div` frame_skip st) as Hmono
      by (apply Z.div_le_mono; lia).
    split; [|split; [lia|rewrite length_cons; lia]].
    destruct (runs_detection total_ms io st).
    + destruct Hruns as [-> Hmod]; [done|].
      rewrite Hfc in *.
      apply Z.mod_divide in Hmod as [q Hq]; [|lia].
      assert ((_frame_count st + 1) `div` frame_skip st = q) as Hq1
        by (rewrite Hq; apply Z.div_mul; lia).
      assert (_frame_count st `div` frame_skip st = q - 1) as Hq0.
      { symmetry. apply (Z.div_unique_pos _ _ _ (frame_skip st - 1)); nia. }
      lia.
    + lia.
Qed.

End WithWorld.

Lemma stalled_capture_is_never_reopened_witness :
  is_connected (stats gate_stream) = true
  ∧ ∃ st',
      loop_turns (λ (_ : string) _, ret tt) exact_ms pretty
        [mk_turn_io answers dark; mk_turn_io answers dark] 5 gate_stream tt
      = ([RTSPStreamManager.FramePause; RTSPStreamManager.FramePause],
         5, st', tt)
      ∧ is_connected (stats st') = true
      ∧ errors_count (stats st') = 2.
Proof.
  split; [done|].
  destruct (stalled_capture_is_never_reopened unit unit string
              (λ _ _, ret tt) exact_ms pretty
              [mk_turn_io answers dark; mk_turn_io answers dark] 5
              gate_stream tt eq_refl) as (st' & Hrun & Hc & _ & He & _).
  { repeat constructor; by eexists. }
  by exists st'.
Defined.

Lemma built_detector_ignores_new_face_encodings_witness :
  _detector gate_stream_at_work = Some (detector_of gate_stream)
  ∧ _detector
      (process_frame (λ (_ : string) _, ret tt) exact_ms pretty one_face
         (set_face_encodings [mk_face_encoding None (Some 7) None None]
            gate_stream_at_work) tt).1.2
    = Some (detector_of gate_stream).
Proof.
  split; [done|].
  by apply (built_detector_ignores_new_face_encodings unit unit string
              (λ _ _, ret tt) exact_ms pretty one_face gate_stream_at_work tt).
Defined.

Lemma detectors_run_once_in_frame_skip_frames_witness :
  0 < frame_skip gate_stream_at_work
  ∧ let '(n, st', _) :=
      frames (λ (_ : string) _, ret tt) exact_ms pretty
        [one_face; one_face] gate_stream_at_work tt in
    n = 1%nat ∧ _frame_count st' = 6.
Proof.
  split; [done|].
  pose proof (detectors_run_once_in_frame_skip_frames unit unit string
                (λ _ _, ret tt) exact_ms pretty [one_face; one_face]
                gate_stream_at_work tt eq_refl) as H.
  vm_compute. done.
Defined.

End StreamObjectFacts.

(** ** From a frame to the queue *)

Module StreamDeliveryFacts.
Import Py Config Detectors Stream EdgeAgent AgentServices.





End StreamDeliveryFacts.

(** ** The stream manager *)

Module ManagerFacts.
Import Py Config Manager.

Lemma connect_keeps io st :
  Stream.camera (Stream.connect io st).2 = Stream.camera st
  ∧ Stream.school_config (Stream.connect io st).2 = Stream.school_config st
  ∧ Stream.face_encodings (Stream.connect io st).2 = Stream.face_encodings st.
Proof.
  unfold Stream.connect. destruct (Stream.video_capture io); [|done].
  destruct (Stream.cap_set io); [|done].
  by destruct (Stream.cap_isOpened io) as [[]|].
Qed.

(** What [spawn] does when the camera answers, and when it does not. *)
Lemma spawn_cases io camera encodings m :
  spawn io camera encodings m = m
  ∨ ∃ stream,
      Stream.camera stream = camera
      ∧ Stream.school_config stream = school_config m
      ∧ Stream.face_encodings stream = encodings
      ∧ Stream.is_connected (Stream.stats stream) = true
      ∧ spawn io camera encodings m
        = set_tasks (_tasks m ++ [{| task_stream := length (objects m);
                                     reconnect_delay := 5;
                                     cancelled := false |}])
            (set_streams (<[cam_id camera := length (objects m)]> (_streams m))
               (set_objects (objects m ++ [stream]) m)).
Proof.
  unfold spawn.
  pose proof (connect_keeps (spawn_connect io)
                (Stream.init camera encodings (school_config m) 5 1000
                   (created io))) as (Hc & Hs & Hf).
  pose proof (StreamObjectFacts.connect_connected (spawn_connect io)
                (Stream.init camera encodings (school_config m) 5 1000
                   (created io))) as Hconn.
  destruct (Stream.connect _ _) as [[] stream]; [|by left].
  right. exists stream. simpl in *. by rewrite Hconn.
Qed.

Lemma disconnect_camera st :
  Stream.camera (Stream.disconnect st) = Stream.camera st.
Proof. done. Qed.

(** A method that keeps the camera of the stream it is called on keeps
    the manager consistent. *)
Lemma consistent_on_stream f ref m :
  (∀ st, Stream.camera (f st) = Stream.camera st) →
  consistent m → consistent (on_stream f ref m).
Proof.
  intros Hf [Hobj Htask]. split; [|done].
  intros camera_id ref' Hin. destruct (Hobj _ _ Hin) as (stream & Hst & Hid).
  cbn [on_stream set_objects objects].
  destruct (decide (ref = ref')) as [->|Hne].
  - exists (f stream). split; [|by rewrite Hf].
    by rewrite list_lookup_alter_eq, Hst.
  - exists stream. split; [|done].
    by rewrite list_lookup_alter_ne.
Qed.

Lemma consistent_delete camera_id m :
  consistent m → consistent (set_streams (delete camera_id (_streams m)) m).
Proof.
  intros [Hobj Htask]. split; intros id ref Hin;
    cbn [set_streams _streams objects _tasks] in *;
    apply lookup_delete_Some in Hin as [_ Hin]; eauto.
Qed.

Lemma consistent_drop_stream camera_id m :
  consistent m → consistent (drop_stream camera_id m).
Proof.
  intros Hm. unfold drop_stream.
  destruct (_streams m !! camera_id) as [ref|]; [|done].
  apply (consistent_delete camera_id (on_stream Stream.disconnect ref m)).
  by apply consistent_on_stream.
Qed.

Lemma consistent_spawn io camera encodings m :
  consistent m → consistent (spawn io camera encodings m).
Proof.
  intros [Hobj Htask].
  destruct (spawn_cases io camera encodings m)
    as [->|(stream & Hcam & _ & _ & _ & ->)]; [done|].
  split; intros id ref Hin;
    cbn [set_tasks set_streams set_objects _streams objects _tasks] in *.
  - destruct (decide (id = cam_id camera)) as [->|Hne].
    + rewrite lookup_insert_eq in Hin. injection Hin as <-.
      exists stream. split; [|by rewrite Hcam].
      by rewrite lookup_app_r, Nat.sub_diag.
    + rewrite lookup_insert_ne in Hin by done.
      destruct (Hobj _ _ Hin) as (st & Hst & Hid).
      exists st. split; [|done]. by apply lookup_app_l_Some.
  - destruct (decide (id = cam_id camera)) as [->|Hne].
    + rewrite lookup_insert_eq in Hin. injection Hin as <-.
      exists (length (_tasks m)), (mk_task (length (objects m)) 5 false).
      split; [|done]. by rewrite lookup_app_r, Nat.sub_diag.
    + rewrite lookup_insert_ne in Hin by done.
      destruct (Htask _ _ Hin) as (i & t & Ht & Href & Hc).
      exists i, t. split; [|done]. by apply lookup_app_l_Some.
Qed.

Lemma consistent_drop_streams ids m :
  consistent m → consistent (foldr drop_stream m ids).
Proof.
  intros Hm. induction ids as [|id ids IH]; [done|].
  by apply consistent_drop_stream.
Qed.

Lemma consistent_update_loop ios l current_ids new_ids encodings : ∀ i m,
  consistent m →
  consistent (update_loop ios i l current_ids new_ids encodings m).
Proof.
  induction l as [|camera l IH]; intros i m Hm; [done|].
  cbn [update_loop]. apply IH.
  destruct (_streams m !! cam_id camera) as [ref|].
  - by apply consistent_on_stream.
  - destruct (_ && _); [by apply consistent_spawn|done].
Qed.

Lemma consistent_update_config ios l encodings m :
  consistent m → consistent (update_config ios l encodings m).
Proof.
  intros Hm. unfold update_config.
  apply consistent_update_loop, consistent_drop_streams.
  by destruct Hm.
Qed.

Lemma consistent_start_loop ios l : ∀ i m,
  consistent m → consistent (start_loop ios i l m).
Proof.
  induction l as [|camera l IH]; intros i m Hm; [done|].
  cbn [start_loop]. apply IH.
  destruct (streamable camera); [by apply consistent_spawn|done].
Qed.

Lemma consistent_start ios l n encodings config :
  consistent (start ios (init l n encodings config)).
Proof.
  unfold start. apply consistent_start_loop.
  split; intros id ref Hin; cbn in Hin; by rewrite lookup_empty in Hin.
Qed.

(** The object behind an entry of [_streams] is behind no entry of
    another camera id. *)
Lemma other_object m camera_id ref ref' stream :
  consistent m → _streams m !! camera_id = Some ref' →
  objects m !! ref = Some stream →
  cam_id (Stream.camera stream) ≠ camera_id → ref' ≠ ref.
Proof.
  intros [Hobj _] Hin Hst Hne ->.
  destruct (Hobj _ _ Hin) as (stream' & Hst' & Hid). congruence.
Qed.

Lemma drop_stream_streams camera_id m :
  _streams (drop_stream camera_id m) = delete camera_id (_streams m).
Proof.
  unfold drop_stream. destruct (_streams m !! camera_id) eqn:Hin; [done|].
  by rewrite delete_id.
Qed.

Lemma drop_stream_objects camera_id m :
  objects (drop_stream camera_id m)
  = match _streams m !! camera_id with
    | Some ref => alter Stream.disconnect ref (objects m)
    | None => objects m
    end.
Proof. unfold drop_stream. by destruct (_streams m !! camera_id). Qed.

Lemma drop_streams_lookup ids m camera_id :
  _streams (foldr drop_stream m ids) !! camera_id
  = if decide (camera_id ∈ ids) then None else _streams m !! camera_id.
Proof.
  induction ids as [|id ids IH].
  - by rewrite decide_False by apply not_elem_of_nil.
  - cbn [foldr]. rewrite drop_stream_streams.
    destruct (decide (camera_id = id)) as [->|Hne].
    + rewrite lookup_delete_eq. by rewrite decide_True by left.
    + rewrite lookup_delete_ne, IH by done.
      destruct (decide (camera_id ∈ ids)) as [Hin|Hin].
      * by rewrite decide_True by (by right).
      * rewrite decide_False; [done|].
        intros [?|?]%elem_of_cons; done.
Qed.

(** What [drop_stream], [spawn] and the refresh of a stream leave
    alone. *)
Lemma drop_stream_frame camera_id m :
  school_config (drop_stream camera_id m) = school_config m
  ∧ _running (drop_stream camera_id m) = _running m
  ∧ _tasks (drop_stream camera_id m) = _tasks m
  ∧ length (objects (drop_stream camera_id m)) = length (objects m).
Proof.
  unfold drop_stream. destruct (_streams m !! camera_id); [|done].
  cbn. by rewrite length_alter.
Qed.

Lemma drop_streams_frame ids m :
  school_config (foldr drop_stream m ids) = school_config m
  ∧ _running (foldr drop_stream m ids) = _running m
  ∧ _tasks (foldr drop_stream m ids) = _tasks m
  ∧ length (objects (foldr drop_stream m ids)) = length (objects m).
Proof.
  induction ids as [|id ids (IH1 & IH2 & IH3 & IH4)]; [done|].
  cbn [foldr].
  destruct (drop_stream_frame id (foldr drop_stream m ids)) as (-> & -> & -> & ->).
  done.
Qed.

Lemma spawn_frame io camera encodings m :
  school_config (spawn io camera encodings m) = school_config m
  ∧ _running (spawn io camera encodings m) = _running m
  ∧ _tasks m `prefix_of` _tasks (spawn io camera encodings m)
  ∧ objects m `prefix_of` objects (spawn io camera encodings m).
Proof.
  destruct (spawn_cases io camera encodings m)
    as [->|(stream & _ & _ & _ & _ & ->)]; [done|].
  cbn. repeat split; by apply prefix_app_r.
Qed.

Lemma update_loop_frame ios l current_ids new_ids encodings : ∀ i m,
  let m' := update_loop ios i l current_ids new_ids encodings m in
  school_config m' = school_config m
  ∧ _running m' = _running m
  ∧ _tasks m `prefix_of` _tasks m'
  ∧ (length (objects m) ≤ length (objects m'))%nat.
Proof.
  induction l as [|camera l IH]; intros i m; [done|].
  cbn [update_loop].
  match goal with
  | |- context [update_loop _ _ _ _ _ _ ?m1] =>
      destruct (IH (S i) m1) as (IH1 & IH2 & IH3 & IH4);
      assert (school_config m1 = school_config m
              ∧ _running m1 = _running m
              ∧ _tasks m `prefix_of` _tasks m1
              ∧ (length (objects m) ≤ length (objects m1))%nat)
        as (H1 & H2 & H3 & H4)
  end.
  { destruct (_streams m !! cam_id camera) as [ref|].
    - cbn. by rewrite length_alter.
    - destruct (_ && _); [|done].
      destruct (spawn_frame (ios i) camera encodings m) as (?&?&?&?).
      repeat split; try done. by apply prefix_length. }
  cbv zeta. rewrite IH1, IH2. repeat split; try done; [by etrans|lia].
Qed.

Lemma update_loop_keys ios l current_ids new_ids encodings : ∀ i m,
  (∀ camera_id, is_Some (_streams m !! camera_id) → camera_id ∈ new_ids) →
  ∀ camera_id,
    is_Some (_streams (update_loop ios i l current_ids new_ids encodings m)
             !! camera_id) →
    camera_id ∈ new_ids.
Proof.
  induction l as [|camera l IH]; intros i m Hm; [done|].
  cbn [update_loop]. apply IH.
  destruct (_streams m !! cam_id camera) as [ref|]; [done|].
  destruct (streamable camera); [|done]. cbn [andb].
  destruct (bool_decide_reflect (cam_id camera ∈ new_ids ∖ current_ids))
    as [Hnew|Hnew]; [|done].
  destruct (spawn_cases (ios i) camera encodings m)
    as [->|(stream & _ & _ & _ & _ & ->)]; [done|].
  intros camera_id. cbn.
  destruct (decide (camera_id = cam_id camera)) as [->|Hne].
  - intros _. by apply elem_of_difference in Hnew as [? _].
  - rewrite lookup_insert_ne by done. apply Hm.
Qed.

Lemma set_face_encodings_twice l st :
  Stream.set_face_encodings l (Stream.set_face_encodings l st)
  = Stream.set_face_encodings l st.
Proof. done. Qed.

(** The second loop of [update_config] on a stream that is in
    [_streams]: it stays, and its face encodings are replaced when the
    list names its camera id. *)
Lemma update_loop_kept ios l current_ids new_ids encodings camera_id ref :
  ∀ i m stream,
    consistent m → _streams m !! camera_id = Some ref →
    objects m !! ref = Some stream →
    let m' := update_loop ios i l current_ids new_ids encodings m in
    _streams m' !! camera_id = Some ref
    ∧ objects m' !! ref
      = Some (if decide (camera_id ∈ cam_id <$> l)
              then Stream.set_face_encodings encodings stream else stream).
Proof.
  induction l as [|camera l IH]; intros i m stream Hm Hin Hst.
  - cbn. by rewrite decide_False by apply not_elem_of_nil.
  - cbn [update_loop]. cbv zeta.
    assert (cam_id (Stream.camera stream) = camera_id) as Hcam.
    { destruct Hm as [Hobj _]. destruct (Hobj _ _ Hin) as (? & ? & ?).
      congruence. }
    destruct (decide (camera_id = cam_id camera)) as [->|Hne].
    + rewrite Hin.
      destruct (IH (S i)
                  (on_stream (Stream.set_face_encodings encodings) ref m)
                  (Stream.set_face_encodings encodings stream))
        as [IH1 IH2].
      * by apply consistent_on_stream.
      * done.
      * cbn. by rewrite list_lookup_alter_eq, Hst.
      * split; [done|]. rewrite IH2, fmap_cons.
        rewrite (decide_True (P := cam_id camera ∈ _ :: _)) by left.
        by destruct (decide _).
    + match goal with
      | |- context [update_loop _ _ _ _ _ _ ?m1] =>
          destruct (IH (S i) m1 stream) as [IH1 IH2]
      end.
      * destruct (_streams m !! cam_id camera) as [ref'|].
        -- by apply consistent_on_stream.
        -- destruct (_ && _); [by apply consistent_spawn|done].
      * destruct (_streams m !! cam_id camera) as [ref'|]; [done|].
        destruct (_ && _); [|done].
        destruct (spawn_cases (ios i) camera encodings m)
          as [->|(new & _ & _ & _ & _ & ->)]; [done|].
        cbn. by rewrite lookup_insert_ne.
      * destruct (_streams m !! cam_id camera) as [ref'|] eqn:Hin'.
        -- cbn. rewrite list_lookup_alter_ne; [done|].
           eapply other_object; [done..|congruence].
        -- destruct (_ && _); [|done].
           destruct (spawn_frame (ios i) camera encodings m)
             as (_ & _ & _ & Hpre).
           by eapply prefix_lookup_Some.
      * split; [done|]. rewrite IH2, fmap_cons.
        destruct (decide (camera_id ∈ cam_id <$> l)) as [Hl|Hl].
        -- by rewrite decide_True by (by right).
        -- rewrite decide_False; [done|].
           intros [?|?]%elem_of_cons; done.
Qed.

(** The first loop of [update_config] on the object of an entry. *)
Lemma drop_streams_object ids : ∀ m camera_id ref stream,
  consistent m → _streams m !! camera_id = Some ref →
  objects m !! ref = Some stream →
  objects (foldr drop_stream m ids) !! ref
  = Some (if decide (camera_id ∈ ids) then Stream.disconnect stream
          else stream).
Proof.
  induction ids as [|id ids IH]; intros m camera_id ref stream Hm Hin Hst.
  - by rewrite decide_False by apply not_elem_of_nil.
  - cbn [foldr]. specialize (IH m camera_id ref stream Hm Hin Hst).
    pose proof (consistent_drop_streams ids m Hm) as Hm1.
    pose proof (drop_streams_lookup ids m) as Hlook.
    assert (cam_id (Stream.camera stream) = camera_id) as Hcam.
    { destruct Hm as [Hobj _]. destruct (Hobj _ _ Hin) as (? & ? & ?).
      congruence. }
    rewrite drop_stream_objects.
    destruct (_streams (foldr drop_stream m ids) !! id) as [ref'|] eqn:Hid.
    + destruct (decide (camera_id = id)) as [->|Hne].
      * rewrite Hlook in Hid. destruct (decide (id ∈ ids)); [done|].
        assert (ref' = ref) as -> by congruence.
        rewrite list_lookup_alter_eq, IH. cbn.
        by rewrite decide_True by left.
      * rewrite list_lookup_alter_ne.
        -- rewrite IH. destruct (decide (camera_id ∈ ids)) as [Hl|Hl].
           ++ by rewrite decide_True by (by right).
           ++ rewrite decide_False; [done|].
              intros [?|?]%elem_of_cons; done.
        -- eapply other_object; [exact Hm1|exact Hid|exact IH|].
           destruct (decide _); cbn; congruence.
    + rewrite IH. destruct (decide (camera_id = id)) as [->|Hne].
      * rewrite Hlook in Hid. rewrite (decide_True (P := id ∈ id :: ids)) by left.
        destruct (decide (id ∈ ids)); [done|congruence].
      * destruct (decide (camera_id ∈ ids)) as [Hl|Hl].
        -- by rewrite decide_True by (by right).
        -- rewrite decide_False; [done|].
           intros [?|?]%elem_of_cons; done.
Qed.

Lemma streamable_ids_spec l camera_id :
  camera_id ∈ streamable_ids l
  ↔ ∃ camera, camera ∈ l ∧ streamable camera = true
              ∧ cam_id camera = camera_id.
Proof.
  unfold streamable_ids. rewrite elem_of_list_to_set, list_elem_of_fmap.
  split.
  - intros (camera & -> & [? ?]%list_elem_of_filter). by exists camera.
  - intros (camera & ? & ? & <-). exists camera. split; [done|].
    by apply list_elem_of_filter.
Qed.

(** X28: a running stream keeps the camera it was created with.
    [update_config] keeps the entries of [_streams] whose camera id is
    the id of an enabled camera with a URL in the new list, each with
    the same stream object, of which it writes [face_encodings] and
    nothing else: the camera of the stream, and with it the URL, is
    the one the stream was created with, whatever the new list says of
    that camera.  Afterwards every entry of [_streams] is for such a
    camera id, and the manager is consistent again. *)
Theorem update_config_keeps_running_streams
    (ios : nat → spawn_io) (l : list CameraConfig)
    (encodings : list face_encoding) (m : RTSPStreamManager) :
  consistent m →
  let m' := update_config ios l encodings m in
  consistent m'
  ∧ (∀ camera_id, is_Some (_streams m' !! camera_id) →
       camera_id ∈ streamable_ids l)
  ∧ (∀ camera_id ref stream,
       _streams m !! camera_id = Some ref →
       objects m !! ref = Some stream →
       camera_id ∈ streamable_ids l →
       _streams m' !! camera_id = Some ref
       ∧ objects m' !! ref
         = Some (Stream.set_face_encodings encodings stream)).
Proof.
  intros Hm m'. split; [by apply consistent_update_config|]. split.
  - subst m'. unfold update_config. apply update_loop_keys.
    intros camera_id. rewrite drop_streams_lookup.
    destruct (decide _) as [Hin|Hin]; [by intros [? ?]|].
    cbn. intros Hsome. apply elem_of_dom in Hsome.
    rewrite elem_of_elements in Hin.
    destruct (decide (camera_id ∈ streamable_ids l)) as [|Hout]; [done|].
    destruct Hin. by apply elem_of_difference.
  - intros camera_id ref stream Hin Hst Hnew. subst m'. unfold update_config.
    assert (camera_id ∉ elements
              (dom (_streams (set_lists l encodings m)) ∖ streamable_ids l))
      as Hkeep by (rewrite elem_of_elements, elem_of_difference; tauto).
    destruct (update_loop_kept ios l
                (dom (_streams (set_lists l encodings m)))
                (streamable_ids l) encodings camera_id ref 0%nat
                (foldr drop_stream (set_lists l encodings m)
                   (elements (dom (_streams (set_lists l encodings m))
                              ∖ streamable_ids l)))
                stream) as [H1 H2].
    + apply consistent_drop_streams. by destruct Hm.
    + rewrite drop_streams_lookup. by rewrite decide_False.
    + rewrite (drop_streams_object _ (set_lists l encodings m) camera_id ref
                 stream); [by rewrite decide_False|by destruct Hm|done..].
    + split; [done|]. rewrite H2. rewrite decide_True; [done|].
      apply streamable_ids_spec in Hnew as (camera & ? & _ & <-).
      by apply list_elem_of_fmap_2.
Qed.

Lemma update_loop_gone ios l current_ids new_ids encodings camera_id ref :
  ∀ i m stream,
    consistent m → _streams m !! camera_id = None →
    camera_id ∉ new_ids →
    objects m !! ref = Some stream →
    cam_id (Stream.camera stream) = camera_id →
    let m' := update_loop ios i l current_ids new_ids encodings m in
    _streams m' !! camera_id = None ∧ objects m' !! ref = Some stream.
Proof.
  induction l as [|camera l IH]; intros i m stream Hm Hout Hnew Hst Hcam;
    [done|].
  cbn [update_loop]. cbv zeta. apply IH; try done.
  - destruct (_streams m !! cam_id camera) as [ref'|].
    + by apply consistent_on_stream.
    + destruct (_ && _); [by apply consistent_spawn|done].
  - destruct (_streams m !! cam_id camera) as [ref'|] eqn:Hin; [done|].
    destruct (streamable camera); [|done]. cbn [andb].
    destruct (bool_decide_reflect (cam_id camera ∈ new_ids ∖ current_ids))
      as [Hin'|Hin']; [|done].
    apply elem_of_difference in Hin' as [Hin' _].
    destruct (spawn_cases (ios i) camera encodings m)
      as [->|(new & _ & _ & _ & _ & ->)]; [done|].
    cbn. rewrite lookup_insert_ne; [done|congruence].
  - destruct (_streams m !! cam_id camera) as [ref'|] eqn:Hin.
    + cbn. rewrite list_lookup_alter_ne; [done|].
      eapply other_object; [done..|congruence].
    + destruct (_ && _); [|done].
      destruct (spawn_frame (ios i) camera encodings m) as (_ & _ & _ & Hpre).
      by eapply prefix_lookup_Some.
Qed.

Lemma connect_true io st st1 :
  Stream.connect io st = (true, st1) →
  Stream._cap st1 = Some (rtsp_url (Stream.camera st))
  ∧ Stream.is_connected (Stream.stats st1) = true
  ∧ Stream.camera st1 = Stream.camera st.
Proof.
  unfold Stream.connect. destruct (Stream.video_capture io); [|done].
  destruct (Stream.cap_set io); [|done].
  destruct (Stream.cap_isOpened io) as [[]|]; [|done..].
  by intros [= <-].
Qed.

Section WithWorld.
Variable frame : Type.
Variable owner : Type.
Variable moment : Type.
Variable event_callback : moment → EventQueue.Event → M owner unit.
Variable total_ms : Z → Q.
Variable isoformat : Z → string.

(** After [stop] no task takes a turn. *)
Lemma task_turn_after_stop i (io : Stream.turn_io frame moment) m o :
  task_turn event_callback total_ms isoformat i io (stop m) o
  = (stop m, o).
Proof.
  unfold task_turn.
  assert (_running (stop m) = false) as ->; [|by destruct (_ !! i)].
  unfold stop. cbn [set_streams _running].
  induction (map_to_list (_streams _)).*2 as [|ref refs IH]; [done|].
  done.
Qed.

(** X29: the task of a removed camera goes on.  [update_config]
    disconnects the stream of a camera that is no longer an enabled
    camera with a URL and deletes its entry of [_streams], but the
    task created for the stream stays in [_tasks], not cancelled,
    with the manager running.  At its next turn the task finds the
    stream disconnected and calls [connect]: when the camera answers
    and [process_frame] does not raise, the stream is connected
    again, on the URL of the removed camera, while [_streams] has no
    entry for it. *)
Theorem removed_camera_is_reconnected_by_its_task
    (ios : nat → spawn_io) (l : list CameraConfig)
    (encodings : list face_encoding) (m : RTSPStreamManager)
    (camera_id : Z) (ref : nat) (stream : Stream.RTSPStream) :
  consistent m → _running m = true →
  _streams m !! camera_id = Some ref →
  objects m !! ref = Some stream →
  camera_id ∉ streamable_ids l →
  let m' := update_config ios l encodings m in
  _streams m' !! camera_id = None
  ∧ objects m' !! ref = Some (Stream.disconnect stream)
  ∧ _running m' = true
  ∧ ∃ i t,
      _tasks m !! i = Some t ∧ _tasks m' !! i = Some t
      ∧ task_stream t = ref ∧ cancelled t = false
      ∧ ∀ (io : Stream.turn_io frame moment) (o : owner) stream1,
          Stream.connect (Stream.turn_connect io)
            (Stream.disconnect stream) = (true, stream1) →
          Stream.raises
            (Stream.process_frame event_callback total_ms isoformat
               (Stream.turn_frame io) stream1 o).1.1 = false →
          let m'' :=
            (task_turn event_callback total_ms isoformat i io m' o).1 in
          _streams m'' !! camera_id = None
          ∧ ∃ stream2,
              objects m'' !! ref = Some stream2
              ∧ Stream.is_connected (Stream.stats stream2) = true
              ∧ Stream._cap stream2
                = Some (rtsp_url (Stream.camera stream))
              ∧ Stream.camera stream2 = Stream.camera stream.
Proof.
  intros Hm Hrun Hin Hst Hout m'.
  assert (cam_id (Stream.camera stream) = camera_id) as Hcam.
  { destruct Hm as [Hobj _]. destruct (Hobj _ _ Hin) as (? & ? & ?).
    congruence. }
  assert (consistent (set_lists l encodings m)) as Hm0 by (by destruct Hm).
  assert (camera_id ∈ elements
            (dom (_streams (set_lists l encodings m)) ∖ streamable_ids l))
    as Hdrop.
  { rewrite elem_of_elements, elem_of_difference. split; [|done].
    by apply elem_of_dom. }
  destruct (update_loop_gone ios l
              (dom (_streams (set_lists l encodings m)))
              (streamable_ids l) encodings camera_id ref 0%nat
              (foldr drop_stream (set_lists l encodings m)
                 (elements (dom (_streams (set_lists l encodings m))
                            ∖ streamable_ids l)))
              (Stream.disconnect stream)) as [Hgone Hobj'].
  { by apply consistent_drop_streams. }
  { rewrite drop_streams_lookup. by rewrite decide_True. }
  { done. }
  { rewrite (drop_streams_object _ (set_lists l encodings m) camera_id ref
               stream); [by rewrite decide_True|done..]. }
  { done. }
  fold (update_config ios l encodings m) in Hgone, Hobj'. fold m' in Hgone, Hobj'.
  assert (_running m' = true ∧ _tasks m `prefix_of` _tasks m')
    as [Hrun' Hpre].
  { subst m'. unfold update_config.
    match goal with
    | |- context [update_loop ?a ?b ?c ?d ?e ?f ?g] =>
        destruct (update_loop_frame a c d e f b g) as (_ & -> & Hp & _)
    end.
    match goal with
    | Hp : context [foldr drop_stream ?m0 ?ids] |- _ =>
        destruct (drop_streams_frame ids m0) as (_ & Hr & Ht & _)
    end.
    rewrite Hr. rewrite Ht in Hp. done. }
  split; [done|]. split; [done|]. split; [done|].
  destruct Hm as [_ Htask].
  destruct (Htask _ _ Hin) as (i & t & Ht & Href & Hc).
  exists i, t. split; [done|].
  assert (_tasks m' !! i = Some t) as Ht'
    by (by eapply prefix_lookup_Some).
  split; [done|]. split; [done|]. split; [done|].
  intros io o stream1 Hconnect Hreturns m''. subst m''.
  unfold task_turn. rewrite Ht', Hrun', Hc, Href, Hobj'. cbn [andb negb].
  unfold Stream.loop_turn, Stream.frame_turn.
  cbn [Stream.disconnect Stream.set_connected Stream.set_stats
       Stream.stats Stream.is_connected].
  fold (Stream.set_connected false (Stream.set_cap None stream)).
  fold (Stream.disconnect stream). rewrite Hconnect.
  pose proof (StreamObjectFacts.process_frame_fixed _ _ _ event_callback
                total_ms isoformat (Stream.turn_frame io) stream1 o)
    as Hfixed.
  destruct (Stream.process_frame _ _ _ _ stream1 o) as [[[r|e] stream2] o2];
    [|done].
  cbn [fst snd set_tasks set_objects _streams objects].
  split; [done|]. exists stream2.
  split; [apply list_lookup_insert_eq; by eapply lookup_lt_Some|].
  destruct (connect_true _ _ _ Hconnect) as (Hcap & Hconn & Hcamera).
  unfold Stream.fixed_part in Hfixed. cbn [fst snd] in Hfixed.
  injection Hfixed as Hf1 _ _ _ _ Hf6 Hf7 _.
  rewrite Hf6, Hf7, Hf1. done.
Qed.

End WithWorld.

Lemma update_config_keeps_running_streams_witness :
  consistent two_streams
  ∧ _streams two_streams !! 1 = Some 0%nat
  ∧ ∃ stream,
      objects two_streams !! 0%nat = Some stream
      ∧ rtsp_url (Stream.camera stream) = "rtsp://10.0.0.5/gate"
      ∧ objects (update_config (λ _, answers 9) [gate_moved; hall] []
                   two_streams) !! 0%nat
        = Some (Stream.set_face_encodings [] stream).
Proof.
  assert (consistent two_streams) as Hm by apply consistent_start.
  split; [done|]. split; [done|].
  destruct (objects two_streams !! 0%nat) as [stream|] eqn:Hst; [|done].
  exists stream. split; [done|]. split; [by injection Hst as <-|].
  destruct (update_config_keeps_running_streams (λ _, answers 9)
              [gate_moved; hall] [] two_streams Hm) as (_ & _ & Hkept).
  apply (Hkept 1 0%nat stream); [done..|].
  apply streamable_ids_spec. exists gate_moved.
  split; [by left|done].
Defined.

Lemma removed_camera_is_reconnected_by_its_task_witness :
  consistent two_streams ∧ _running two_streams = true
  ∧ _streams two_streams !! 3 = Some 1%nat
  ∧ (3 ∉ streamable_ids [gate])
  ∧ _streams (update_config (λ _, answers 9) [gate] [] two_streams) !! 3
    = None
  ∧ ∃ i t,
      _tasks (update_config (λ _, answers 9) [gate] [] two_streams) !! i
      = Some t
      ∧ task_stream t = 1%nat ∧ cancelled t = false.
Proof.
  assert (consistent two_streams) as Hm by apply consistent_start.
  assert (3 ∉ streamable_ids [gate]) as Hout.
  { intros (camera & Hin & _ & Hid)%streamable_ids_spec.
    apply list_elem_of_singleton in Hin. by subst camera. }
  split; [done|]. split; [done|]. split; [done|]. split; [done|].
  destruct (objects two_streams !! 1%nat) as [stream|] eqn:Hst; [|done].
  destruct (removed_camera_is_reconnected_by_its_task unit unit string
              (λ _ _, ret tt) Stream.exact_ms pretty (λ _, answers 9) [gate]
              [] two_streams 3 1%nat stream Hm eq_refl eq_refl Hst Hout)
    as (Hgone & _ & _ & i & t & _ & Ht & Href & Hc & _).
  split; [done|]. by exists i, t.
Defined.

End ManagerFacts.

(** ** The configuration refresh *)

Module RefreshFacts.
Import Py AgentServices.

Lemma uniform_on_stream f ref m :
  (∀ st, Stream.school_config (f st) = Stream.school_config st) →
  Manager.uniform m → Manager.uniform (Manager.on_stream f ref m).
Proof.
  intros Hf Hm. unfold Manager.uniform, Manager.on_stream. cbn.
  apply Forall_alter; [done|]. intros st _ Hst. by rewrite Hf.
Qed.

Lemma uniform_drop_stream camera_id m :
  Manager.uniform m → Manager.uniform (Manager.drop_stream camera_id m).
Proof.
  intros Hm. unfold Manager.drop_stream.
  destruct (Manager._streams m !! camera_id) as [ref|]; [|done].
  by apply (uniform_on_stream Stream.disconnect ref m).
Qed.

Lemma uniform_spawn io camera encodings m :
  Manager.uniform m → Manager.uniform (Manager.spawn io camera encodings m).
Proof.
  intros Hm.
  destruct (ManagerFacts.spawn_cases io camera encodings m)
    as [->|(stream & _ & Hsc & _ & _ & ->)]; [done|].
  unfold Manager.uniform. cbn. apply Forall_app. split; [done|].
  by constructor.
Qed.

Lemma uniform_update_loop ios l current_ids new_ids encodings : ∀ i m,
  Manager.uniform m →
  Manager.uniform
    (Manager.update_loop ios i l current_ids new_ids encodings m).
Proof.
  induction l as [|camera l IH]; intros i m Hm; [done|].
  cbn [Manager.update_loop]. apply IH.
  destruct (Manager._streams m !! Config.cam_id camera) as [ref|].
  - by apply uniform_on_stream.
  - destruct (_ && _); [by apply uniform_spawn|done].
Qed.

Lemma uniform_update_config ios l encodings m :
  Manager.uniform m → Manager.uniform (Manager.update_config ios l encodings m).
Proof.
  intros Hm. unfold Manager.update_config. apply uniform_update_loop.
  induction (elements _) as [|id ids IH]; [done|].
  by apply uniform_drop_stream.
Qed.

Lemma update_config_school_config ios l encodings m :
  Manager.school_config (Manager.update_config ios l encodings m)
  = Manager.school_config m.
Proof.
  unfold Manager.update_config.
  match goal with
  | |- context [Manager.update_loop ?a ?b ?c ?d ?e ?f ?g] =>
      destruct (ManagerFacts.update_loop_frame a c d e f b g) as (-> & _)
  end.
  by destruct (ManagerFacts.drop_streams_frame
                 (elements
                    (dom (Manager._streams (Manager.set_lists l encodings m))
                     ∖ Manager.streamable_ids l))
                 (Manager.set_lists l encodings m)) as (-> & _).
Qed.

Lemma uniform_start ios l n encodings config :
  Manager.uniform (Manager.start ios (Manager.init l n encodings config)).
Proof.
  unfold Manager.start.
  generalize 0%nat at 1.
  assert (Manager.uniform
            (Manager.set_running true (Manager.init l n encodings config)))
    as Hm by constructor.
  revert Hm.
  generalize (Manager.set_running true (Manager.init l n encodings config))
    at 1 3.
  cbn [Manager.cameras Manager.set_running Manager.init].
  induction l as [|camera l IH]; intros m Hm i; [done|].
  cbn [Manager.start_loop]. apply IH.
  destruct (Manager.streamable camera); [by apply uniform_spawn|done].
Qed.

Lemma sync_configuration_manager str_format w config_get a :
  rtsp_manager (_sync_configuration str_format w config_get a).2
  = rtsp_manager a.
Proof.
  unfold _sync_configuration, bind, on_client, on_config.
  destruct (EdgeAgent.on_client _ _) as [[[document|]|e] a1]; cbn; try done.
  destruct (empty_document document); [done|]. cbn.
  by destruct (Config.update_from_cloud _ _ _) as [r c].
Qed.

(** X30: a refresh never reaches the detectors' settings.  A turn of
    [_config_refresh_loop] returns whatever the cloud answers, and
    leaves the manager with the school configuration it was created
    with: every stream object, those the turn creates included,
    carries that school configuration, whatever school configuration
    the turn stores in [config].  When [_sync_configuration] raises,
    [update_config] is not called and the manager is as before. *)
Theorem refresh_turn_never_updates_detector_settings
    (str_format : string → gmap string string → res string)
    (w : ApiClient.world)
    (config_get : res (ApiClient.response Config.cloud_config))
    (ios : nat → Manager.spawn_io) (a : Agent)
    (m : Manager.RTSPStreamManager) :
  rtsp_manager a = Some m → Manager.uniform m →
  let '(r, a') := config_refresh_turn str_format w config_get ios a in
  r = Ret tt
  ∧ ∃ m',
      rtsp_manager a' = Some m'
      ∧ Manager.school_config m' = Manager.school_config m
      ∧ Manager.uniform m'
      ∧ (m' = m
         ∨ m' = Manager.update_config ios (Config.cameras (config a'))
                  (Config.face_encodings (config a')) m)
      ∧ (∀ e a1,
           _sync_configuration str_format w config_get a = (Raise e, a1) →
           a' = a1 ∧ m' = m).
Proof.
  intros Hm Huni. unfold config_refresh_turn, try_except, bind.
  pose proof (sync_configuration_manager str_format w config_get a) as Hkeep.
  destruct (_sync_configuration str_format w config_get a) as [[[]|e] a1];
    cbn [snd] in Hkeep; rewrite Hm in Hkeep.
  - unfold update_streams. rewrite Hkeep. split; [done|].
    eexists. split; [done|]. cbn [config].
    split; [apply update_config_school_config|].
    split; [by apply uniform_update_config|].
    split; [by right|]. intros e a2 [=].
  - split; [done|]. exists m. split; [done|]. split; [done|].
    split; [done|]. split; [by left|]. by intros e' a2 [= _ <-].
Qed.

Lemma refresh_turn_never_updates_detector_settings_witness :
  ∃ m, rtsp_manager at_work = Some m ∧ Manager.uniform m
    ∧ let '(r, a') :=
        config_refresh_turn Config.format ApiClient.accepts_one
          (serves Config.first_sync) (λ _, Manager.answers 9) at_work in
      r = Ret tt
      ∧ Config.school_config (config a')
        ≠ Config.school_config (config at_work)
      ∧ ∃ m', rtsp_manager a' = Some m'
          ∧ Manager.school_config m' = Config.school_config (config at_work).
Proof.
  eexists. split; [reflexivity|].
  assert (Manager.uniform
            (Manager.start (λ _, Manager.answers 0)
               (Manager.init (Config.cameras (config at_work))
                  (Config.nvrs (config at_work))
                  (Config.face_encodings (config at_work))
                  (Config.school_config (config at_work))))) as Huni
    by apply uniform_start.
  split; [exact Huni|].
  pose proof (refresh_turn_never_updates_detector_settings Config.format
                ApiClient.accepts_one (serves Config.first_sync)
                (λ _, Manager.answers 9) at_work _ eq_refl Huni) as H.
  destruct (config_refresh_turn _ _ _ _ at_work) as [r a'] eqn:Hrun.
  destruct H as (-> & m' & Hm' & Hsc & _).
  split; [done|]. split.
  - apply (f_equal snd) in Hrun. cbn [snd] in Hrun. subst a'.
    vm_compute. discriminate.
  - exists m'. by split.
Defined.

End RefreshFacts.

(** ** The queue's calls behind the binding of their parameters *)

Module QueueBindingFacts.
Import Py EventQueue QueueHistory QueueBinding.

(** A literal list of parameters, each of which can be bound. *)
Ltac all_bindable :=
  repeat (apply Forall_cons_2; [simpl; try done|]); apply Forall_nil_2.

Section WithLimit.
Variable variable_limit : Z.

Lemma bind_parameters_bound parameters :
  Z.of_nat (length parameters) ≤ variable_limit →
  Forall bindable parameters →
  bind_parameters variable_limit parameters = Ret tt.
Proof.
  intros Hlen Hall. unfold bind_parameters.
  rewrite decide_False by lia. by rewrite decide_True.
Qed.

Lemma bind_parameters_too_many parameters :
  variable_limit < Z.of_nat (length parameters) →
  bind_parameters variable_limit parameters
  = Raise (OperationalError "too many SQL variables").
Proof. intros Hlen. unfold bind_parameters. by rewrite decide_True. Qed.

Lemma bind_parameters_overflow parameters :
  Z.of_nat (length parameters) ≤ variable_limit →
  ¬ Forall bindable parameters →
  bind_parameters variable_limit parameters = Raise OverflowError.
Proof.
  intros Hlen Hall. unfold bind_parameters.
  rewrite decide_False by lia. by rewrite decide_False.
Qed.

Lemma bindable_integers (ids : list Z) :
  Forall bindable (Integer <$> ids) ↔ Forall sqlite_integer ids.
Proof. by rewrite Forall_fmap. Qed.

Lemma bindable_text_integers (s : string) (ids : list Z) :
  Forall bindable (Text s :: (Integer <$> ids)) ↔ Forall sqlite_integer ids.
Proof.
  rewrite Forall_cons, bindable_integers. simpl. tauto.
Qed.

(** With parameters that can be bound, each call is its statement. *)
Lemma get_pending_bound batch_size q :
  2 ≤ variable_limit → sqlite_integer batch_size →
  QueueBinding.get_pending variable_limit batch_size q
  = EventQueue.get_pending batch_size q.
Proof.
  intros Hlimit Hb. unfold QueueBinding.get_pending, bind, lift.
  rewrite bind_parameters_bound; [done|simpl; lia|all_bindable].
Qed.

Lemma get_pending_overflow batch_size q :
  2 ≤ variable_limit → ¬ sqlite_integer batch_size →
  QueueBinding.get_pending variable_limit batch_size q
  = (Raise OverflowError, q).
Proof.
  intros Hlimit Hb. unfold QueueBinding.get_pending, bind, lift.
  rewrite bind_parameters_overflow; [done|simpl; lia|].
  intros Hall. apply Hb.
  apply Forall_cons in Hall as [_ Hall].
  by apply Forall_cons in Hall as [Hall _].
Qed.

Lemma enqueue_bound event now q :
  4 ≤ variable_limit → sqlite_integer (ev_camera_id event) →
  Z.max (sqlite_sequence q) (max_rowid (events q)) < 2 ^ 63 - 1 →
  QueueBinding.enqueue variable_limit event now q
  = EventQueue.enqueue event now q.
Proof.
  intros Hlimit Hcam Hseq. unfold QueueBinding.enqueue, bind, lift.
  rewrite bind_parameters_bound; [|simpl; lia|all_bindable].
  by rewrite decide_False by lia.
Qed.

Lemma mark_processed_nonempty event_ids now q :
  event_ids ≠ [] →
  QueueBinding.mark_processed variable_limit event_ids now q
  = match bind_parameters variable_limit
            (Text now :: (Integer <$> event_ids)) with
    | Ret _ =>
        let n := _processed_count q + Z.of_nat (length event_ids) in
        match bind_parameters variable_limit
                [Integer n; Text "processed_count"] with
        | Ret _ => EventQueue.mark_processed event_ids now q
        | Raise e =>
            (Raise e,
             {| events := events q;
                sqlite_sequence := sqlite_sequence q;
                stats_processed_count := stats_processed_count q;
                _processed_count := n |})
        end
    | Raise e => (Raise e, q)
    end.
Proof.
  intros Hne. destruct event_ids; [done|].
  unfold QueueBinding.mark_processed, bind, lift.
  by destruct (bind_parameters _ _).
Qed.

Lemma mark_failed_nonempty event_ids q :
  event_ids ≠ [] →
  QueueBinding.mark_failed variable_limit event_ids q
  = match bind_parameters variable_limit (Integer <$> event_ids) with
    | Ret _ => EventQueue.mark_failed event_ids q
    | Raise e => (Raise e, q)
    end.
Proof.
  intros Hne. destruct event_ids; [done|].
  unfold QueueBinding.mark_failed, bind, lift.
  by destruct (bind_parameters _ _).
Qed.

Lemma mark_processed_bound event_ids now q :
  accepted variable_limit event_ids q →
  QueueBinding.mark_processed variable_limit event_ids now q
  = EventQueue.mark_processed event_ids now q.
Proof.
  intros (Hlen & Hids & Hcount).
  destruct (decide (event_ids = [])) as [->|Hne]; [done|].
  assert (1 ≤ Z.of_nat (length event_ids))
    by (destruct event_ids; [done|simpl; lia]).
  rewrite mark_processed_nonempty by done.
  rewrite bind_parameters_bound;
    [|simpl; rewrite length_fmap; lia|by apply bindable_text_integers].
  cbv zeta.
  rewrite bind_parameters_bound; [done|simpl; lia|all_bindable].
Qed.

Lemma mark_failed_bound event_ids q :
  Z.of_nat (length event_ids) ≤ variable_limit →
  Forall sqlite_integer event_ids →
  QueueBinding.mark_failed variable_limit event_ids q
  = EventQueue.mark_failed event_ids q.
Proof.
  intros Hlen Hids.
  destruct (decide (event_ids = [])) as [->|Hne]; [done|].
  rewrite mark_failed_nonempty by done.
  rewrite bind_parameters_bound;
    [done|by rewrite length_fmap|by apply bindable_integers].
Qed.

(** C6 (amended): for every queue state and every batch size in the
    signed 64-bit range, [get_pending] returns, without changing the
    queue, records of the queue with status pending and a retry
    count below 5, in ascending order of [created_at], and no record
    left out is older than a returned one: at most [batch_size] of
    them (as many as there are, up to the batch size) when the batch
    size is not negative, and all of them when it is negative, which
    SQLite reads as no limit; on an empty queue it returns the empty
    list.  For a batch size outside the signed 64-bit range it
    raises [OverflowError] and leaves the queue as it is.  (The
    SQLite library is taken to accept the statement's two
    parameters.) *)
Theorem get_pending_oldest_within_range (q : EventQueue) (batch_size : Z) :
  2 ≤ variable_limit →
  (sqlite_integer batch_size →
   ∃ rows rest,
     QueueBinding.get_pending variable_limit batch_size q
     = (Ret (pending_of_row <$> rows), q)
     ∧ rows ++ rest ≡ₚ filter eligible (events q)
     ∧ Forall (λ r, r ∈ events q ∧ status r = Pending ∧ retry_count r < 5)
         rows
     ∧ StronglySorted older rows
     ∧ (∀ a b, a ∈ rows → b ∈ rest → older a b)
     ∧ (0 ≤ batch_size →
        Z.of_nat (length rows) ≤ batch_size
        ∧ Z.of_nat (length rows)
          = Z.min batch_size
              (Z.of_nat (length (filter eligible (events q)))))
     ∧ (batch_size < 0 → rest = [])
     ∧ (events q = [] → rows = []))
  ∧ (¬ sqlite_integer batch_size →
     QueueBinding.get_pending variable_limit batch_size q
     = (Raise OverflowError, q)).
Proof.
  intros Hlimit. split; [|by apply get_pending_overflow].
  intros Hrange. rewrite get_pending_bound by done.
  destruct (Z.le_gt_cases 0 batch_size) as [Hb|Hb].
  - destruct (EventQueueFacts.select_pending_oldest q batch_size Hb)
      as (rows & rest & Hget & Hperm & Hle & Hlen & Hall & Hsorted
          & Hold & Hnil).
    exists rows, rest. repeat split; try done. lia.
  - exists (order_by_created_at (filter eligible (events q))), [].
    assert (select_pending batch_size q
            = order_by_created_at (filter eligible (events q))) as Hsel.
    { unfold select_pending, limit.
      by destruct (Z.ltb_spec batch_size 0); [|lia]. }
    repeat split; try done; try lia.
    + unfold EventQueue.get_pending. by rewrite Hsel.
    + rewrite app_nil_r. apply EventQueueFacts.order_by_created_at_perm.
    + apply Forall_forall. intros r Hr.
      rewrite EventQueueFacts.order_by_created_at_perm in Hr.
      apply list_elem_of_filter in Hr as [[? ?] ?]. done.
    + apply EventQueueFacts.order_by_created_at_sorted.
    + intros a b _ Hb'. by apply elem_of_nil in Hb'.
    + intros Hnil. by rewrite Hnil.
Qed.

(** C3 (amended): [mark_processed] does not look at the status of
    the records it is given.  With the empty list it returns and
    changes nothing.  With a list that SQLite accepts (the ids and
    the timestamp are no more parameters than the library allows,
    and every id and the new counter are in the signed 64-bit range)
    it returns normally; every record whose id is in the list,
    whatever its status, gets status processed and
    [processed_at = now]; every other record is left as it is; ids
    that belong to no record are ignored; [processed_count] grows by
    the length of the list.  With any other list it raises
    ([OperationalError] for too many ids, else [OverflowError]) and
    changes no record and not the stored counter; only when it is
    the new counter that cannot be bound, the counter in memory has
    grown already. *)
Theorem mark_processed_fails_on_binding_only
    (event_ids : list Z) (now : string) (q : EventQueue) :
  let n := Z.of_nat (length event_ids) in
  (event_ids = [] ∨ accepted variable_limit event_ids q →
   ∃ q',
     QueueBinding.mark_processed variable_limit event_ids now q
     = (Ret tt, q')
     ∧ length (events q') = length (events q)
     ∧ (∀ k r, events q !! k = Some r → row_id r ∈ event_ids →
          ∃ r', events q' !! k = Some r'
                ∧ status r' = Processed ∧ processed_at r' = Some now
                ∧ row_id r' = row_id r ∧ retry_count r' = retry_count r)
     ∧ (∀ k r, events q !! k = Some r → row_id r ∉ event_ids →
          events q' !! k = Some r)
     ∧ _processed_count q' = _processed_count q + n
     ∧ (event_ids ≠ [] → stats_processed_count q' = _processed_count q'))
  ∧ (event_ids ≠ [] → ¬ accepted variable_limit event_ids q →
     ∃ e q',
       QueueBinding.mark_processed variable_limit event_ids now q
       = (Raise e, q')
       ∧ events q' = events q
       ∧ sqlite_sequence q' = sqlite_sequence q
       ∧ stats_processed_count q' = stats_processed_count q
       ∧ (variable_limit < n + 1 →
          e = OperationalError "too many SQL variables" ∧ q' = q)
       ∧ (n + 1 ≤ variable_limit → e = OverflowError)
       ∧ (n + 1 ≤ variable_limit → ¬ Forall sqlite_integer event_ids →
          q' = q)
       ∧ (n + 1 ≤ variable_limit → Forall sqlite_integer event_ids →
          _processed_count q' = _processed_count q + n)).
Proof.
  intros n. split.
  - intros Hok.
    assert (QueueBinding.mark_processed variable_limit event_ids now q
            = EventQueue.mark_processed event_ids now q) as ->.
    { destruct Hok as [->|Hok]; [done|by apply mark_processed_bound]. }
    apply EventQueueTerminal.mark_processed_updates.
  - intros Hne Hbad.
    assert (1 ≤ n) by (unfold n; destruct event_ids; [done|simpl; lia]).
    assert (Z.of_nat (length (Text now :: (Integer <$> event_ids))) = n + 1)
      as Hparams by (simpl; rewrite length_fmap; lia).
    rewrite mark_processed_nonempty by done.
    destruct (decide (variable_limit < n + 1)) as [Hmany|Hfew].
    { rewrite bind_parameters_too_many by lia.
      eexists _, q. repeat split; try done; lia. }
    destruct (decide (Forall sqlite_integer event_ids)) as [Hids|Hids].
    + rewrite bind_parameters_bound;
        [|lia|by apply bindable_text_integers].
      cbv zeta.
      rewrite bind_parameters_overflow; [|simpl; lia|].
      * eexists _, _. repeat split; try done; lia.
      * intros Hall. apply Forall_cons in Hall as [Hcount _].
        apply Hbad. repeat split; try done; [lia|apply Hcount..].
    + rewrite bind_parameters_overflow;
        [|lia|by rewrite bindable_text_integers].
      eexists _, q. repeat split; try done; lia.
Qed.

(** X2: an event that was enqueued comes back from [get_pending] with
    the id [enqueue] returned, the four fields it was given and retry
    count 0, provided the batch is large enough to hold every pending
    record (or negative, which SQLite reads as no limit).  This is
    for calls that SQLite accepts: the camera id and the batch size
    are in the signed 64-bit range and a rowid is left to hand
    out. *)
Theorem enqueued_event_is_handed_out
    (q : EventQueue) (event : Event) (now : string) (batch_size : Z) :
  4 ≤ variable_limit →
  sqlite_integer (ev_camera_id event) →
  Z.max (sqlite_sequence q) (max_rowid (events q)) < 2 ^ 63 - 1 →
  sqlite_integer batch_size →
  batch_size < 0
  ∨ Z.of_nat (length (filter eligible (events q))) < batch_size →
  ∃ i q' evs,
    QueueBinding.enqueue variable_limit event now q = (Ret i, q')
    ∧ QueueBinding.get_pending variable_limit batch_size q' = (Ret evs, q')
    ∧ pending_of_event i event ∈ evs.
Proof.
  intros Hlimit Hcam Hseq Hrange Hb.
  destruct (QueueHistoryFacts.inserted_row_is_selected q event now
              batch_size Hb) as (i & q' & evs & Hput & Hget & Hin).
  exists i, q', evs.
  rewrite enqueue_bound by done.
  rewrite get_pending_bound by (done || lia).
  done.
Qed.

(** X3: the drain is first in, first out.  When the records were
    created at strictly increasing times, [get_pending], for a batch
    size in the signed 64-bit range, returns the pending records with
    retry count below 5 in the order of their insertion, the first
    [batch_size] of them (all of them for a negative batch size). *)
Theorem get_pending_in_insertion_order (q : EventQueue) (batch_size : Z) :
  2 ≤ variable_limit → sqlite_integer batch_size →
  StronglySorted strictly_older (events q) →
  QueueBinding.get_pending variable_limit batch_size q
  = (Ret (pending_of_row
            <$> limit batch_size (filter eligible (events q))), q).
Proof.
  intros Hlimit Hrange Hs. rewrite get_pending_bound by done.
  by apply QueueHistoryFacts.select_in_insertion_order.
Qed.

End WithLimit.

(** With the variable limit of SQLite since 3.32: a batch of one, no
    limit, and a batch size that does not fit 64 bits. *)
Lemma get_pending_oldest_within_range_witness :
  2 ≤ 32766
  ∧ (∃ rows rest,
       QueueBinding.get_pending 32766 1 two_pending
       = (Ret (pending_of_row <$> rows), two_pending)
       ∧ rows ++ rest ≡ₚ filter eligible (events two_pending)
       ∧ Z.of_nat (length rows) = 1)
  ∧ (∃ rows,
       QueueBinding.get_pending 32766 (-1) two_pending
       = (Ret (pending_of_row <$> rows), two_pending)
       ∧ rows ≡ₚ filter eligible (events two_pending))
  ∧ QueueBinding.get_pending 32766 (2 ^ 63) two_pending
    = (Raise OverflowError, two_pending).
Proof.
  assert (2 ≤ 32766) as Hlimit by lia.
  destruct (get_pending_oldest_within_range 32766 two_pending 1 Hlimit)
    as [Hone _].
  destruct (get_pending_oldest_within_range 32766 two_pending (-1) Hlimit)
    as [Hall _].
  destruct (get_pending_oldest_within_range 32766 two_pending (2 ^ 63) Hlimit)
    as [_ Hout].
  split; [exact Hlimit|]. split; [|split].
  - destruct Hone as (rows & rest & Hget & Hperm & _ & _ & _ & Hlen & _);
      [by vm_compute|].
    exists rows, rest. split; [exact Hget|]. split; [exact Hperm|].
    destruct Hlen as [_ ->]; [lia|]. reflexivity.
  - destruct Hall as (rows & rest & Hget & Hperm & _ & _ & _ & _ & Hrest & _);
      [by vm_compute|].
    exists rows. split; [exact Hget|].
    rewrite Hrest, app_nil_r in Hperm by lia. exact Hperm.
  - apply Hout. unfold sqlite_integer. lia.
Defined.

(** One id of a record, and one id that does not fit 64 bits. *)
Lemma mark_processed_fails_on_binding_only_witness :
  (∃ q',
     QueueBinding.mark_processed 32766 [1] "2026-01-05T14:00:10" one_failed
     = (Ret tt, q')
     ∧ _processed_count q' = _processed_count one_failed + 1)
  ∧ QueueBinding.mark_processed 32766 [2 ^ 63] "2026-01-05T14:00:10"
      one_failed
    = (Raise OverflowError, one_failed).
Proof.
  split.
  - destruct (mark_processed_fails_on_binding_only 32766 [1]
                "2026-01-05T14:00:10" one_failed) as [Hok _].
    destruct Hok as (q' & Hrun & _ & _ & _ & Hcount & _).
    { right. split; [simpl; lia|]. split; [|by vm_compute].
      apply Forall_cons_2; [by vm_compute|apply Forall_nil_2]. }
    exists q'. split; [exact Hrun|exact Hcount].
  - destruct (mark_processed_fails_on_binding_only 32766 [2 ^ 63]
                "2026-01-05T14:00:10" one_failed) as [_ Hbad].
    destruct Hbad as (e & q' & Hrun & _ & _ & _ & _ & He & Hq & _);
      [done| |].
    { intros (_ & Hids & _). apply Forall_cons in Hids as [[_ Hlt] _]. lia. }
    rewrite Hrun. rewrite He by (simpl; lia).
    rewrite Hq; [reflexivity|simpl; lia|].
    intros Hids. apply Forall_cons in Hids as [[_ Hlt] _]. lia.
Defined.

(** C6, as stated, fails outside the batch sizes that are not negative
    and fit 64 bits: [get_pending(-1)] on a queue of two pending
    records returns both, which is more than the batch size, and
    [get_pending(2**63)] returns nothing but raises. *)
Lemma get_pending_beyond_batch_size :
  (∃ evs,
     QueueBinding.get_pending 32766 (-1) two_pending = (Ret evs, two_pending)
     ∧ length evs = 2%nat
     ∧ ¬ (Z.of_nat (length evs) ≤ -1))
  ∧ QueueBinding.get_pending 32766 (2 ^ 63) two_pending
    = (Raise OverflowError, two_pending).
Proof.
  split; [|reflexivity].
  eexists. split; [reflexivity|]. split; [reflexivity|]. simpl. lia.
Qed.

(** C3, as stated, fails: [mark_processed] has no check of the current
    status.  Given the id of a failed record it returns normally, makes
    the record processed and counts it. *)
Lemma mark_processed_takes_failed_record :
  (1 ∉ ids_with Pending one_failed)
  ∧ ∃ q' r',
      QueueBinding.mark_processed 32766 [1] "2026-01-05T14:00:10" one_failed
      = (Ret tt, q')
      ∧ events q' !! 0%nat = Some r'
      ∧ row_id r' = 1
      ∧ status r' = Processed
      ∧ _processed_count q' = _processed_count one_failed + 1.
Proof.
  split.
  - vm_compute. apply not_elem_of_nil.
  - eexists _, _. repeat split; reflexivity.
Qed.

Lemma enqueued_event_is_handed_out_witness :
  ∃ q' evs,
    QueueBinding.enqueue 32766 sample_event "2026-01-05 08:30:02" two_pending
    = (Ret 3, q')
    ∧ QueueBinding.get_pending 32766 50 q' = (Ret evs, q')
    ∧ pending_of_event 3 sample_event ∈ evs.
Proof.
  destruct (enqueued_event_is_handed_out 32766 two_pending sample_event
              "2026-01-05 08:30:02" 50)
    as (i & q' & evs & Hq' & Hget & Hin).
  - lia.
  - by vm_compute.
  - by vm_compute.
  - by vm_compute.
  - right. by vm_compute.
  - vm_compute in Hq'. injection Hq' as <- <-.
    eexists _, evs. split; [reflexivity|]. split; [exact Hget|exact Hin].
Defined.

Lemma get_pending_in_insertion_order_witness :
  StronglySorted strictly_older (events two_pending)
  ∧ ∃ evs, QueueBinding.get_pending 32766 50 two_pending
           = (Ret evs, two_pending)
           ∧ pe_id <$> evs = [1; 2].
Proof.
  assert (StronglySorted strictly_older (events two_pending)) as Hs.
  { repeat constructor. }
  split; [exact Hs|].
  eexists. split.
  - apply (get_pending_in_insertion_order 32766 two_pending 50);
      [lia|by vm_compute|exact Hs].
  - reflexivity.
Defined.

End QueueBindingFacts.

(** ** The configuration merge: cameras behind an NVR, or behind none *)

Module ConfigNvrFacts.
Import Py Config ConfigLoading ConfigNvr.

Section WithFormat.
Variable str_format : string → gmap string string → res string.

(** An entry that needs an NVR resolves as [_build_nvr_rtsp_url]
    says. *)
Lemma resolved_url_build cam c :
  default "" (rtspUrl cam) = "" → truthy_id (nvrId cam) = true →
  _build_nvr_rtsp_url str_format cam c
  = (resolved_url str_format (nvrs c) cam, c).
Proof.
  intros Hurl Hid. unfold _build_nvr_rtsp_url, resolved_url, lift.
  rewrite Hurl, Hid. simpl.
  by destruct (find_nvr _ _).
Qed.

(** Only an entry that needs an NVR can fail to resolve. *)
Lemma resolved_url_raises l cam e :
  resolved_url str_format l cam = Raise e →
  default "" (rtspUrl cam) = "" ∧ truthy_id (nvrId cam) = true.
Proof.
  unfold resolved_url.
  destruct (bool_decide (default "" (rtspUrl cam) = "")) eqn:Hurl;
    [|done].
  destruct (truthy_id (nvrId cam)); [|done].
  intros _. by apply bool_decide_eq_true_1 in Hurl.
Qed.

Lemma resolved_url_unmatched l cam :
  default "" (rtspUrl cam) = "" →
  (∀ nvr, nvr ∈ l → Some (nvr_id nvr) ≠ nvrId cam) →
  resolved_url str_format l cam = Ret "".
Proof.
  intros Hurl Hnone. unfold resolved_url.
  rewrite Hurl, (ConfigFacts.find_nvr_none _ _ Hnone).
  by destruct (_ && _).
Qed.

(** When the loop runs to its end, the list holds one camera for
    each entry, in the order of the entries. *)
Lemma resolved_cameras_all l cams stored :
  resolved_cameras str_format l cams = (stored, None) →
  Forall2 (λ cam kept, ∃ url, resolved_url str_format l cam = Ret url
                              ∧ kept = camera_of_entry cam url)
    cams stored.
Proof.
  revert stored. induction cams as [|cam cams IH]; intros stored; simpl.
  - intros [= <-]. constructor.
  - destruct (resolved_url str_format l cam) as [url|e] eqn:Hurl; [|done].
    destruct (resolved_cameras str_format l cams) as [kept e'].
    intros [= <- ->]. constructor; [by exists url|by apply IH].
Qed.

(** When the loop raises, it is at an entry whose URL cannot be
    built, with the cameras of the entries before it stored. *)
Lemma resolved_cameras_cut l cams stored e :
  resolved_cameras str_format l cams = (stored, Some e) →
  ∃ before other after,
    cams = (before ++ other :: after)%list
    ∧ resolved_url str_format l other = Raise e
    ∧ resolved_cameras str_format l before = (stored, None).
Proof.
  revert stored. induction cams as [|cam cams IH]; intros stored; simpl.
  - done.
  - destruct (resolved_url str_format l cam) as [url|e0] eqn:Hurl.
    + destruct (resolved_cameras str_format l cams) as [kept e'].
      intros [= <- ->].
      destruct (IH kept eq_refl) as (before & other & after & -> & Hraise & Hbefore).
      exists (cam :: before), other, after. simpl.
      by rewrite Hurl, Hbefore.
    + intros [= <- <-]. by exists [], cam, cams.
Qed.

(** What [update_from_cloud] does with the camera section. *)
Lemma update_from_cloud_resolved cc c cams r c' :
  cc_cameras cc = Some cams →
  update_from_cloud str_format cc c = (r, c') →
  cameras c' = fst (resolved_cameras str_format (nvrs c) cams)
  ∧ r = match snd (resolved_cameras str_format (nvrs c) cams) with
        | None => Ret tt
        | Some e => Raise e
        end.
Proof.
  intros Hcams Hrun.
  destruct (ConfigFacts.update_from_cloud_cameras _ _ _ _ _ Hrun)
    as (r1 & c1 & Hfirst & Hsame & ->).
  rewrite Hcams, ConfigLoadingFacts.load_cameras_resolved in Hfirst.
  simpl in Hfirst. injection Hfirst as <- <-.
  by rewrite Hsame.
Qed.

Lemma stored_at_its_place l cams stored cam url :
  Forall2 (λ cam kept, ∃ url, resolved_url str_format l cam = Ret url
                              ∧ kept = camera_of_entry cam url)
    cams stored →
  resolved_url str_format l cam = Ret url →
  length stored = length cams
  ∧ (∀ k, cams !! k = Some cam →
       stored !! k = Some (camera_of_entry cam url))
  ∧ (cam ∈ cams → camera_of_entry cam url ∈ stored).
Proof.
  intros Hall Hurl.
  assert (∀ k, cams !! k = Some cam →
            stored !! k = Some (camera_of_entry cam url)) as Hplace.
  { intros k Hk.
    destruct (Forall2_lookup_l _ _ _ _ _ Hall Hk)
      as (kept & Hkept & url' & Hurl' & ->).
    rewrite Hurl in Hurl'. by injection Hurl' as <-. }
  split; [symmetry; by eapply Forall2_length|]. split; [exact Hplace|].
  intros [k Hk]%list_elem_of_lookup_1.
  eapply list_elem_of_lookup_2. by apply Hplace.
Qed.

(** C10 (amended): for a cloud camera entry whose [rtspUrl] is empty
    (or absent) and whose [nvrId] matches no NVR of the current list,
    [_build_nvr_rtsp_url] returns the empty string, and whenever
    [update_from_cloud] returns it has stored the camera, at the
    place of its entry, with the empty string as [rtsp_url], so that
    [get_active_cameras] leaves it out whatever its enabled flag.
    [update_from_cloud] returns when the templates of the current
    NVRs can be formatted.  It raises instead, with only the cameras
    of the entries before the failing one stored, when formatting
    the template raises for another camera entry of the document,
    one without URL behind a known NVR. *)
Theorem camera_without_nvr_stored_inactive
    (c : Config) (cc : cloud_config)
    (cams : list camera_entry) (cam : camera_entry) :
  cc_cameras cc = Some cams → cam ∈ cams →
  default "" (rtspUrl cam) = "" →
  (∀ nvr, nvr ∈ nvrs c → Some (nvr_id nvr) ≠ nvrId cam) →
  _build_nvr_rtsp_url str_format cam c = (Ret "", c)
  ∧ (∀ c', update_from_cloud str_format cc c = (Ret tt, c') →
       length (cameras c') = length cams
       ∧ camera_of_entry cam "" ∈ cameras c'
       ∧ (∀ k, cams !! k = Some cam →
            cameras c' !! k = Some (camera_of_entry cam ""))
       ∧ rtsp_url (camera_of_entry cam "") = ""
       ∧ enabled (camera_of_entry cam "") = default true (isActive cam)
       ∧ camera_of_entry cam "" ∉ get_active_cameras c')
  ∧ (templates_format str_format (nvrs c) →
     ∃ c', update_from_cloud str_format cc c = (Ret tt, c'))
  ∧ (∀ e c', update_from_cloud str_format cc c = (Raise e, c') →
       ∃ before other after,
         cams = (before ++ other :: after)%list
         ∧ other ≠ cam
         ∧ default "" (rtspUrl other) = ""
         ∧ truthy_id (nvrId other) = true
         ∧ _build_nvr_rtsp_url str_format other c = (Raise e, c)
         ∧ length (cameras c') = length before
         ∧ (cam ∈ before → camera_of_entry cam "" ∈ cameras c')).
Proof.
  intros Hcams Hcam Hempty Hnone.
  pose proof (resolved_url_unmatched (nvrs c) cam Hempty Hnone) as Hurl.
  split; [|split; [|split]].
  - unfold _build_nvr_rtsp_url.
    by rewrite (ConfigFacts.find_nvr_none _ _ Hnone).
  - intros c' Hrun.
    destruct (update_from_cloud_resolved _ _ _ _ _ Hcams Hrun)
      as [Hstored Hret].
    destruct (resolved_cameras str_format (nvrs c) cams)
      as [stored [e|]] eqn:Hres; [done|].
    simpl in Hstored. rewrite Hstored.
    destruct (stored_at_its_place _ _ _ _ _
                (resolved_cameras_all _ _ _ Hres) Hurl)
      as (Hlen & Hplace & Hin).
    repeat split; try done.
    + by apply Hin.
    + by apply ConfigFacts.inactive_without_url.
  - intros Hfmt.
    destruct (ConfigFacts.load_cameras_stores str_format cams
                (snd (set_cameras [] c)) Hfmt)
      as (c1 & added & Hc1 & _).
    destruct (update_from_cloud str_format cc c) as [r c'] eqn:Hrun.
    destruct (ConfigFacts.update_from_cloud_cameras _ _ _ _ _ Hrun)
      as (r1 & c1' & Hfirst & _ & ->).
    rewrite Hcams, Hc1 in Hfirst. injection Hfirst as <- <-.
    by exists c'.
  - intros e c' Hrun.
    destruct (update_from_cloud_resolved _ _ _ _ _ Hcams Hrun)
      as [Hstored Hret].
    destruct (resolved_cameras str_format (nvrs c) cams)
      as [stored [e'|]] eqn:Hres; [|done].
    injection Hret as ->. simpl in Hstored. rewrite Hstored.
    destruct (resolved_cameras_cut _ _ _ _ Hres)
      as (before & other & after & Hsplit & Hraise & Hbefore).
    destruct (resolved_url_raises _ _ _ Hraise) as [Hother Hid].
    destruct (stored_at_its_place _ _ _ _ _
                (resolved_cameras_all _ _ _ Hbefore) Hurl)
      as (Hlen & _ & Hin).
    exists before, other, after. repeat split; try done.
    + intros ->. by rewrite Hurl in Hraise.
    + rewrite resolved_url_build by done. by rewrite Hraise.
Qed.

End WithFormat.

(** X19: a camera behind an NVR without template gets the default URL.
    For a camera entry without URL whose [nvrId] is that of an NVR of
    the current list, the first such NVR having no template,
    [_build_nvr_rtsp_url] returns
    [rtsp://user:password@ip:port/cam/realmonitor?channel=N&subtype=0]
    with that NVR's values copied as they are, [N] being the channel
    number of the entry, 1 when the entry has no [channelNumber] key.
    Whenever [update_from_cloud] returns, it has stored the camera
    with this URL at the place of its entry; it returns when this is
    the only entry of the document, and raises only when the URL of
    another entry cannot be built. *)
Theorem nvr_camera_stored_with_default_url
    (cc : cloud_config) (c : Config) (cams : list camera_entry)
    (cam : camera_entry) (nvr : NVRConfig) :
  default "" (rtspUrl cam) = "" → truthy_id (nvrId cam) = true →
  find_nvr (nvrId cam) (nvrs c) = Some nvr → rtsp_template nvr = "" →
  cc_cameras cc = Some cams → cam ∈ cams →
  let url := default_url nvr (default 1 (channelNumber cam)) in
  _build_nvr_rtsp_url format cam c = (Ret url, c)
  ∧ (∀ c', update_from_cloud format cc c = (Ret tt, c') →
       length (cameras c') = length cams
       ∧ camera_of_entry cam url ∈ cameras c'
       ∧ (∀ k, cams !! k = Some cam →
            cameras c' !! k = Some (camera_of_entry cam url)))
  ∧ (cams = [cam] →
     ∃ c', update_from_cloud format cc c = (Ret tt, c')
           ∧ cameras c' = [camera_of_entry cam url])
  ∧ (∀ e c', update_from_cloud format cc c = (Raise e, c') →
       ∃ other, other ∈ cams ∧ other ≠ cam
                ∧ _build_nvr_rtsp_url format other c = (Raise e, c)).
Proof.
  intros Hurl Hid Hfind Htemplate Hcams Hcam url.
  assert (resolved_url format (nvrs c) cam = Ret url) as Hres.
  { unfold resolved_url. rewrite Hurl, Hid, Hfind, Htemplate. simpl.
    unfold str_or. rewrite decide_True by done.
    apply ConfigUrlFacts.format_default_template. }
  split; [|split; [|split]].
  - rewrite resolved_url_build by done. by rewrite Hres.
  - intros c' Hrun.
    destruct (update_from_cloud_resolved _ _ _ _ _ _ Hcams Hrun)
      as [Hstored Hret].
    destruct (resolved_cameras format (nvrs c) cams)
      as [stored [e|]] eqn:Hall; [done|].
    simpl in Hstored. rewrite Hstored.
    destruct (stored_at_its_place _ _ _ _ _ _
                (resolved_cameras_all _ _ _ _ Hall) Hres)
      as (Hlen & Hplace & Hin).
    repeat split; try done. by apply Hin.
  - intros ->.
    destruct (update_from_cloud format cc c) as [r c'] eqn:Hrun.
    destruct (update_from_cloud_resolved _ _ _ _ _ _ Hcams Hrun)
      as [Hstored ->].
    simpl in Hstored. rewrite Hres in Hstored. simpl in Hstored.
    exists c'. simpl. by rewrite Hres.
  - intros e c' Hrun.
    destruct (update_from_cloud_resolved _ _ _ _ _ _ Hcams Hrun)
      as [_ Hret].
    destruct (resolved_cameras format (nvrs c) cams)
      as [stored [e'|]] eqn:Hall; [|done].
    injection Hret as ->.
    destruct (resolved_cameras_cut _ _ _ _ _ Hall)
      as (before & other & after & -> & Hraise & _).
    destruct (resolved_url_raises _ _ _ _ Hraise) as [Hother Hoid].
    exists other. repeat split.
    + apply elem_of_app. right. by left.
    + intros ->. by rewrite Hres in Hraise.
    + rewrite resolved_url_build by done. by rewrite Hraise.
Qed.

Lemma camera_without_nvr_stored_inactive_witness :
  yard_camera ∈ [hall_camera; yard_camera]
  ∧ ∃ c',
      update_from_cloud format cameras_only synced_once = (Ret tt, c')
      ∧ length (cameras c') = 2%nat
      ∧ cameras c' !! 1%nat = Some (camera_of_entry yard_camera "")
      ∧ enabled (camera_of_entry yard_camera "") = true
      ∧ camera_of_entry yard_camera "" ∉ get_active_cameras c'.
Proof.
  assert (yard_camera ∈ [hall_camera; yard_camera]) as Hin
    by (right; left).
  split; [exact Hin|].
  destruct (camera_without_nvr_stored_inactive format synced_once
              cameras_only [hall_camera; yard_camera] yard_camera
              eq_refl Hin eq_refl)
    as (_ & Hreturned & Hreturns & _).
  { intros nvr Hnvr. apply list_elem_of_singleton in Hnvr. by subst nvr. }
  destruct Hreturns as [c' Hrun].
  { intros nvr channel Hnvr. apply list_elem_of_singleton in Hnvr.
    subst nvr. eexists. vm_compute. reflexivity. }
  destruct (Hreturned c' Hrun)
    as (Hlen & _ & Hplace & _ & Henabled & Hinactive).
  exists c'. repeat split; try done. by apply Hplace.
Defined.

(** C10, as stated, fails when the document has, before the camera,
    another one whose NVR has a template that cannot be formatted:
    [update_from_cloud] raises at that entry and the camera is not
    stored at all. *)
Lemma camera_without_nvr_not_stored :
  lost_camera ∈ [yard_camera; lost_camera]
  ∧ default "" (rtspUrl lost_camera) = ""
  ∧ (∀ nvr, nvr ∈ nvrs annex_config →
       Some (nvr_id nvr) ≠ nvrId lost_camera)
  ∧ ∃ c',
      update_from_cloud format lost_sync annex_config
      = (Raise (KeyError "host"), c')
      ∧ cameras c' = []
      ∧ camera_of_entry lost_camera "" ∉ cameras c'.
Proof.
  split; [right; left|]. split; [reflexivity|]. split.
  - intros nvr Hnvr. apply list_elem_of_singleton in Hnvr. by subst nvr.
  - eexists. split; [reflexivity|]. split; [reflexivity|].
    apply not_elem_of_nil.
Qed.

Lemma nvr_camera_stored_with_default_url_witness :
  ∃ c',
    update_from_cloud format
      {| cc_cameras := Some [hall_camera; gate_camera]; cc_nvrs := None;
         cc_faceEncodings := None; cc_schoolConfig := None |}
      synced_once
    = (Ret tt, c')
    ∧ rtsp_url <$> cameras c' !! 1%nat
      = Some "rtsp://admin:pw@10.0.0.5:554/cam/realmonitor?channel=2&subtype=0".
Proof.
  set (cc := {| cc_cameras := Some [hall_camera; gate_camera];
                cc_nvrs := None; cc_faceEncodings := None;
                cc_schoolConfig := None |}).
  destruct (nvr_camera_stored_with_default_url cc synced_once
              [hall_camera; gate_camera] gate_camera (nvr_of_entry main_nvr)
              eq_refl eq_refl eq_refl eq_refl eq_refl)
    as (_ & Hreturned & _).
  { right; left. }
  destruct (update_from_cloud format cc synced_once) as [r c'] eqn:Hrun.
  assert (r = Ret tt) as -> by (vm_compute in Hrun; congruence).
  destruct (Hreturned c' eq_refl) as (_ & _ & Hplace).
  exists c'. split; [reflexivity|].
  rewrite (Hplace 1%nat eq_refl). reflexivity.
Defined.

End ConfigNvrFacts.
